(** * project1.py: HTML tables to CSV

    A shallow embedding of [Olivia_Gibson/proj1/project1.py] and the proofs
    of its specification.

    Python values are modelled as follows.
    - [str] is a list of Unicode code points ([N]); literals are written
      [lit "..."].
    - [int] is [Z]; [str.find] answers [-1] when there is no match, and
      slice bounds may be negative, exactly as in Python.
    - a [while True: ... break] loop is [while_true body fuel s]: [None]
      means that [fuel] iterations were not enough.
    - the file system is a finite map from paths to texts, the network a
      function from URLs to bodies, standard output a list of printed
      lines; [sys.exit] and uncaught exceptions are results of the [proc]
      monad.

    The program comes first, then the notions the specification uses,
    then the proofs. *)

From Stdlib Require Import ZArith NArith List Ascii String Lia Bool.
From Stdlib Require Import DecimalString DecimalNat.
From stdpp Require Import gmap list.

Local Open Scope Z_scope.

(** ** Python strings *)

Module Py.

Abbreviation str := (list N).

Definition lit (s : string) : str := map N_of_ascii (list_ascii_of_string s).

Definition len (s : str) : Z := Z.of_nat (length s).

(** Named code points. *)
Definition LT : N := 60.     (* less-than sign *)
Definition GT : N := 62.     (* greater-than sign *)
Definition DQ : N := 34.     (* double quote *)
Definition COMMA : N := 44.  (* comma *)
Definition LF : N := 10.     (* line feed *)
Definition CR : N := 13.     (* carriage return *)
Definition SP : N := 32.     (* space *)

(** [startswith sub s]: [sub] is a prefix of [s]. *)
Fixpoint startswith (sub s : str) : bool :=
  match sub, s with
  | [], _ => true
  | _ :: _, [] => false
  | a :: sub', b :: s' => (a =? b)%N && startswith sub' s'
  end.

(** First index [>= i] at which [sub] occurs, [s] being the text from
    index [i] on; [-1] when there is none. *)
Fixpoint find_from (sub s : str) (i : Z) : Z :=
  if startswith sub s then i
  else match s with
       | [] => -1
       | _ :: s' => find_from sub s' (i + 1)
       end.

(** [s.find(sub, start)].  A negative [start] counts from the end; a
    [start] beyond the end finds nothing. *)
Definition find (s sub : str) (start : Z) : Z :=
  let n := len s in
  let st := if start <? 0 then Z.max 0 (start + n) else start in
  if n <? st then -1 else find_from sub (drop (Z.to_nat st) s) st.

(** [sub in s] *)
Definition contains (s sub : str) : bool := negb (find s sub 0 =? -1).

(** Adjustment of a slice bound to [0..n]. *)
Definition clamp (n i : Z) : Z :=
  if i <? 0 then Z.max 0 (i + n) else Z.min i n.

(** [s[a:b]], [s[:b]] and [s[a:]]. *)
Definition slice (s : str) (a b : Z) : str :=
  let i := clamp (len s) a in
  let j := clamp (len s) b in
  take (Z.to_nat (j - i)) (drop (Z.to_nat i) s).

Definition slice_to (s : str) (b : Z) : str :=
  take (Z.to_nat (clamp (len s) b)) s.

Definition slice_from (s : str) (a : Z) : str :=
  drop (Z.to_nat (clamp (len s) a)) s.

(** [c.isspace()] for one code point: the characters [str.strip()]
    removes. *)
Definition isspace (c : N) : bool :=
  ((9 <=? c) && (c <=? 13) || (28 <=? c) && (c <=? 32)
   || (c =? 133) || (c =? 160) || (c =? 5760)
   || (8192 <=? c) && (c <=? 8202)
   || (c =? 8232) || (c =? 8233) || (c =? 8239) || (c =? 8287)
   || (c =? 12288))%N.

Fixpoint lstrip (s : str) : str :=
  match s with
  | [] => []
  | c :: s' => if isspace c then lstrip s' else s
  end.

Definition rstrip (s : str) : str := rev (lstrip (rev s)).

Definition strip (s : str) : str := rstrip (lstrip s).

(** [s.replace(old, new)] for a non-empty [old]: occurrences are replaced
    from left to right and do not overlap.  [skip] counts the characters
    of the current occurrence still to pass over. *)
Fixpoint replace_go (old new s : str) (skip : nat) : str :=
  match s with
  | [] => []
  | c :: s' =>
      match skip with
      | S k => replace_go old new s' k
      | O => if startswith old s
             then new ++ replace_go old new s' (length old - 1)
             else c :: replace_go old new s' 0
      end
  end.

Definition replace (s old new : str) : str := replace_go old new s 0.

(** [sep.join(parts)] *)
Fixpoint join (sep : str) (parts : list str) : str :=
  match parts with
  | [] => []
  | [p] => p
  | p :: rest => p ++ sep ++ join sep rest
  end.

(** [str(n)] for a non-negative integer. *)
Definition str_of_nat (n : nat) : str :=
  lit (NilEmpty.string_of_uint (Nat.to_uint n)).

End Py.

Import Py.

(** ** Loops *)

(** What one pass through a loop body does. *)
Inductive ctl (S : Type) : Type :=
| Next (s : S)     (* fall through to the next iteration *)
| Break (s : S).   (* leave the loop *)

Arguments Next {S} s.
Arguments Break {S} s.

(** A loop whose body may itself fail to return ([None]). *)
Fixpoint while_true {S : Type} (body : S -> option (ctl S))
    (fuel : nat) (s : S) : option S :=
  match fuel with
  | O => None
  | Datatypes.S fuel' =>
      match body s with
      | None => None
      | Some (Break s') => Some s'
      | Some (Next s') => while_true body fuel' s'
      end
  end.

(** ** clean_html *)

(** One test of the loop condition and one pass through the body. *)
Definition clean_body (text : str) : option (ctl str) :=
  if contains text [LT] && contains text [GT] then
    let lt := find text [LT] 0 in
    let gt := find text [GT] lt in
    if (lt =? -1) || (gt =? -1) then Some (Break text)
    else Some (Next (slice_to text lt ++ slice_from text (gt + 1)))
  else Some (Break text).

Definition strip_tags (fuel : nat) (text : str) : option str :=
  while_true clean_body fuel text.

(** The [return] line. *)
Definition clean_finish (text : str) : str :=
  strip (replace (replace text [LF] [SP]) [CR] [SP]).

Definition clean_html (fuel : nat) (text : str) : option str :=
  text' ← strip_tags fuel text;
  Some (clean_finish text').

(** ** extract_tables *)

(** Loop state: the tables found so far and the scan position. *)
Definition extract_body (html : str) (st : list str * Z)
    : option (ctl (list str * Z)) :=
  let '(tables, pos) := st in
  let start := find html (lit "<table") pos in
  if start =? -1 then Some (Break st) else
  let end_ := find html (lit "</table>") start in
  if end_ =? -1 then Some (Break st) else
  let table_html := slice html start (end_ + 8) in
  Some (Next (tables ++ [table_html], end_ + 8)).

Definition extract_tables (fuel : nat) (html : str) : option (list str) :=
  st ← while_true (extract_body html) fuel ([], 0);
  Some (fst st).

(** ** parse_table *)

(** The inner loop over the cells of one row.  Loop state: the cells read
    so far and [cell_pos]. *)
Definition cell_body (fuel : nat) (row_html : str) (st : list str * Z)
    : option (ctl (list str * Z)) :=
  let '(cells, cell_pos) := st in
  let td_start := find row_html (lit "<td") cell_pos in
  let th_start := find row_html (lit "<th") cell_pos in
  if (td_start =? -1) && (th_start =? -1) then Some (Break st)
  else if negb (td_start =? -1)
          && ((td_start <? th_start) || (th_start =? -1)) then
    let cell_start := find row_html [GT] td_start + 1 in
    let cell_end := find row_html (lit "</td>") cell_start in
    let cell := strip (slice row_html cell_start cell_end) in
    cleaned ← clean_html fuel cell;
    Some (Next (cells ++ [cleaned], cell_end + 5))
  else
    let cell_start := find row_html [GT] th_start + 1 in
    let cell_end := find row_html (lit "</th>") cell_start in
    let cell := strip (slice row_html cell_start cell_end) in
    cleaned ← clean_html fuel cell;
    Some (Next (cells ++ [cleaned], cell_end + 5)).

Definition parse_cells (fuel : nat) (row_html : str) : option (list str) :=
  st ← while_true (cell_body fuel row_html) fuel ([], 0);
  Some (fst st).

(** The outer loop over the rows.  Loop state: the rows read so far and
    [pos]. *)
Definition row_body (fuel : nat) (table_html : str)
    (st : list (list str) * Z) : option (ctl (list (list str) * Z)) :=
  let '(rows, pos) := st in
  let row_start := find table_html (lit "<tr") pos in
  if row_start =? -1 then Some (Break st) else
  let row_end := find table_html (lit "</tr>") row_start in
  if row_end =? -1 then Some (Break st) else
  let row_html := slice table_html row_start row_end in
  cells ← parse_cells fuel row_html;
  Some (Next (rows ++ [cells], row_end + 5)).

Definition parse_table (fuel : nat) (table_html : str)
    : option (list (list str)) :=
  st ← while_true (row_body fuel table_html) fuel ([], 0);
  Some (fst st).

(** ** The process and its environment *)

(** The environment of a run: the text files by path, the answer of the
    network to a GET ([None]: the request or the decoding of the body
    fails), and what was printed so far.  Directories, permissions and
    disk errors are not modelled: a path in [files] can be read and any
    path can be written. *)
Record world : Type := World {
  files : gmap (list N) (list N);
  http : list N -> option (list N);
  stdout : list (list N)
}.

(** How a computation ends. *)
Inductive result (A : Type) : Type :=
| Returned (a : A) (w : world)
| Exited (status : Z) (w : world)    (* sys.exit(status) *)
| Uncaught (w : world)               (* an exception nobody handles *)
| Diverged.                          (* a loop ran out of fuel *)

Arguments Returned {A} a w.
Arguments Exited {A} status w.
Arguments Uncaught {A} w.
Arguments Diverged {A}.

Definition proc (A : Type) : Type := world -> result A.

Definition proc_ret {A} (a : A) : proc A := fun w => Returned a w.

Definition proc_bind {A B} (m : proc A) (k : A -> proc B) : proc B :=
  fun w =>
    match m w with
    | Returned a w' => k a w'
    | Exited c w' => Exited c w'
    | Uncaught w' => Uncaught w'
    | Diverged => Diverged
    end.

Declare Scope proc_scope.
Delimit Scope proc_scope with proc.
Notation "x <- m ;; k" := (proc_bind m (fun x => k))
  (at level 100, m at next level, right associativity) : proc_scope.
Notation "m ;; k" := (proc_bind m (fun _ => k))
  (at level 100, right associativity) : proc_scope.

Definition print (line : str) : proc unit :=
  fun w => Returned tt (World (files w) (http w) (stdout w ++ [line])).

Definition sys_exit {A} (status : Z) : proc A := fun w => Exited status w.

(** A pure computation that may not return. *)
Definition run_pure {A} (r : option A) : proc A :=
  fun w => match r with Some a => Returned a w | None => Diverged end.

(** [open(path, "w")]: the file is created, or emptied. *)
Definition open_w (path : str) : proc unit :=
  fun w => Returned tt (World (<[path := []]> (files w)) (http w) (stdout w)).

(** [f.write(data)] on a file opened by [open_w]. *)
Definition write (path data : str) : proc unit :=
  fun w =>
    Returned tt
      (World (<[path := default [] (files w !! path) ++ data]> (files w))
             (http w) (stdout w)).

(** [os.path.exists(path)] *)
Definition path_exists (path : str) : proc bool :=
  fun w => Returned (bool_decide (is_Some (files w !! path))) w.

(** [open(path, "r").read()] *)
Definition read_text (path : str) : proc str :=
  fun w => match files w !! path with
           | Some text => Returned text w
           | None => Uncaught w
           end.

(** [urlopen(req).read().decode("utf-8")] *)
Definition http_get (url : str) : proc str :=
  fun w => match http w url with
           | Some body => Returned body w
           | None => Uncaught w
           end.

(** [for x in xs: body(x)] *)
Fixpoint for_each {A} (xs : list A) (body : A -> proc unit) : proc unit :=
  match xs with
  | [] => proc_ret tt
  | x :: xs' => (body x ;; for_each xs' body)%proc
  end.

(** [enumerate(xs, start)] *)
Fixpoint enumerate {A} (start : nat) (xs : list A) : list (nat * A) :=
  match xs with
  | [] => []
  | x :: xs' => (start, x) :: enumerate (S start) xs'
  end.

(** The status the operating system sees. *)
Definition exit_status {A} (r : result A) : option Z :=
  match r with
  | Returned _ _ => Some 0
  | Exited c _ => Some c
  | Uncaught _ => Some 1
  | Diverged => None
  end.

Definition final_world {A} (r : result A) : option world :=
  match r with
  | Returned _ w | Exited _ w | Uncaught w => Some w
  | Diverged => None
  end.

(** ** fetch_html *)

Definition fetch_html (source : str) : proc str :=
  if startswith (lit "http://") source || startswith (lit "https://") source
  then
    (html <- http_get source ;;
     open_w (lit "page.html") ;;
     write (lit "page.html") html ;;
     print (lit "HTML saved as page.html") ;;
     proc_ret html)%proc
  else
    (found <- path_exists source ;;
     if found then read_text source
     else (print (lit "Error: source not found.") ;; sys_exit 1))%proc.

(** ** save_csv *)

(** One field: the cell between double quotes, its own double quotes
    doubled. *)
Definition csv_field (cell : str) : str :=
  [DQ] ++ replace cell [DQ] [DQ; DQ] ++ [DQ].

Definition csv_line (row : list str) : str :=
  join [COMMA] (map csv_field row).

Definition save_csv (rows : list (list str)) (filename : str) : proc unit :=
  (open_w filename ;;
   for_each rows (fun row => write filename (csv_line row ++ [LF])) ;;
   print (lit "CSV saved as " ++ filename))%proc.

(** ** main *)

Definition usage : str :=
  lit "Usage: python read_html_tables_save_html.py <URL|FILENAME>".

Definition output_name (i : nat) : str :=
  lit "output_" ++ str_of_nat i ++ lit ".csv".

(** The body of the [for] loop of [main]. *)
Definition save_table (fuel : nat) (it : nat * str) : proc unit :=
  let '(i, table_html) := it in
  (rows <- run_pure (parse_table fuel table_html) ;;
   match rows with
   | [] => proc_ret tt
   | _ :: _ => save_csv rows (output_name i)
   end)%proc.

(** [argv] is [sys.argv]: the name of the script, then its arguments. *)
Definition main (fuel : nat) (argv : list str) : proc unit :=
  match argv with
  | [_; source] =>
      (html <- fetch_html source ;;
       tables <- run_pure (extract_tables fuel html) ;;
       match tables with
       | [] => print (lit "No tables found in the HTML.") ;; sys_exit 1
       | _ :: _ => for_each (enumerate 1 tables) (save_table fuel)
       end)%proc
  | _ => (print usage ;; sys_exit 1)%proc
  end.

(** * The words of the specification *)

(** ** Occurrences of a marker *)

Definition occurs_at (sub s : str) (k : nat) : Prop :=
  take (length sub) (drop k s) = sub.

Definition first_at (sub s : str) (k : nat) : Prop :=
  occurs_at sub s k /\ forall j, (j < k)%nat -> ~ occurs_at sub s j.

Definition absent (sub s : str) : Prop := forall j, ~ occurs_at sub s j.

(** The offset of the first occurrence, as a natural number. *)
Fixpoint index_of (sub s : str) : option nat :=
  if startswith sub s then Some 0%nat
  else match s with
       | [] => None
       | _ :: s' => S <$> index_of sub s'
       end.

(** [find] in terms of [index_of]. *)
Definition found (base : Z) (r : option nat) : Z :=
  match r with
  | Some k => base + Z.of_nat k
  | None => -1
  end.

(** ** Cleaning a cell *)

(** Tag stripping in one pass from left to right.  Outside a span a
    less-than sign opens one when a greater-than sign follows somewhere;
    when none follows, the rest of the text is kept as it is.  Inside a
    span everything is dropped up to and including the next greater-than
    sign. *)
Fixpoint remove_spans (inside : bool) (s : str) : str :=
  match s with
  | [] => []
  | c :: s' =>
      if inside then
        if (c =? GT)%N then remove_spans false s' else remove_spans true s'
      else if (c =? LT)%N then
        if existsb (N.eqb GT) s' then remove_spans true s' else s
      else c :: remove_spans false s'
  end.

(** Line feeds and carriage returns become spaces. *)
Definition newline_to_space (c : N) : N :=
  if ((c =? LF) || (c =? CR))%N then SP else c.

(** Whether a scan of [s] that starts inside (or outside) a span ends
    inside one.  A text is balanced when a scan from outside ends
    outside: each of its less-than signs met outside a span is closed
    within the text. *)
Fixpoint ends_inside (inside : bool) (s : str) : bool :=
  match s with
  | [] => inside
  | c :: s' =>
      if inside then ends_inside (negb (c =? GT)%N) s'
      else ends_inside (c =? LT)%N s'
  end.

Definition balanced (s : str) : Prop := ends_inside false s = false.

(** ** CSV *)

(** A field as the specification words it: the cell between double
    quotes, each double quote of the cell written twice. *)
Definition quoted (cell : str) : str :=
  DQ :: flat_map (fun c => if (c =? DQ)%N then [DQ; DQ] else [c]) cell ++ [DQ].

(** A row: its fields, a comma between two of them, then a line feed. *)
Fixpoint row_text (row : list str) : str :=
  match row with
  | [] => [LF]
  | [cell] => quoted cell ++ [LF]
  | cell :: rest => quoted cell ++ COMMA :: row_text rest
  end.

(** Standard CSV unescaping of one field: take the outer quotes off, then
    read each pair of double quotes as one. *)
Definition strip_outer_quotes (field : str) : option str :=
  match field with
  | q :: rest =>
      match rev rest with
      | q' :: mid => if ((q =? DQ) && (q' =? DQ))%N then Some (rev mid) else None
      | [] => None
      end
  | [] => None
  end.

Fixpoint collapse_quotes (s : str) : str :=
  match s with
  | a :: ((b :: s') as t) =>
      if ((a =? DQ) && (b =? DQ))%N then DQ :: collapse_quotes s'
      else a :: collapse_quotes t
  | _ => s
  end.

Definition csv_unescape (field : str) : option str :=
  collapse_quotes <$> strip_outer_quotes field.

(** A reader of one line of quoted fields, as a CSV reader splits it. *)
Inductive reader : Type :=
| AtField                 (* a field must start here *)
| InQuotes (cur : str)    (* inside the quotes of a field *)
| AfterQuote (cur : str). (* just after a double quote met inside *)

Fixpoint read_fields (st : reader) (done : list str) (s : str)
    : option (list str) :=
  match s with
  | [] =>
      match st with
      | AfterQuote cur => Some (done ++ [cur])
      | _ => None
      end
  | c :: s' =>
      match st with
      | AtField =>
          if (c =? DQ)%N then read_fields (InQuotes []) done s' else None
      | InQuotes cur =>
          if (c =? DQ)%N then read_fields (AfterQuote cur) done s'
          else read_fields (InQuotes (cur ++ [c])) done s'
      | AfterQuote cur =>
          if (c =? DQ)%N then read_fields (InQuotes (cur ++ [DQ])) done s'
          else if (c =? COMMA)%N then read_fields AtField (done ++ [cur]) s'
          else None
      end
  end.

Definition read_line (line : str) : option (list str) :=
  read_fields AtField [] line.

(** ** A row with an unclosed cell *)

Definition unclosed_cell_table : str := lit "<table><tr><td>abc</tr></table>".

Definition unclosed_cell_row : str := lit "<tr><td>abc".

(** ** Table fragments *)

(** The fragments of a document, as the specification words them: the
    document is read from left to right; when no [<table] is left, or when
    no [</table>] follows the next [<table], nothing more is emitted;
    otherwise the text from the next [<table] to the end of the first
    [</table>] after it is one fragment, and the reading goes on behind
    it. *)
Inductive extraction : str -> list str -> Prop :=
| extraction_no_opener doc :
    absent (lit "<table") doc ->
    extraction doc []
| extraction_unclosed gap rest :
    first_at (lit "<table") (gap ++ rest) (length gap) ->
    absent (lit "</table>") rest ->
    extraction (gap ++ rest) []
| extraction_emit gap body rest frags :
    first_at (lit "<table") (gap ++ body ++ lit "</table>" ++ rest)
      (length gap) ->
    first_at (lit "</table>") (body ++ lit "</table>" ++ rest)
      (length body) ->
    extraction rest frags ->
    extraction (gap ++ body ++ lit "</table>" ++ rest)
      ((body ++ lit "</table>") :: frags).

(** ** The source argument *)

(** The test of [fetch_html] for a URL. *)
Definition is_url (source : str) : bool :=
  startswith (lit "http://") source || startswith (lit "https://") source.

(** What [print] adds to a world. *)
Definition printed (w : world) (lines : list str) : world :=
  World (files w) (http w) (stdout w ++ lines).

(** ** The files of a run *)

(** The files after the loop of [main] over tables whose grids are
    [grids], the first of them being table number [i]: a table with no row
    writes nothing but still takes its number. *)
Fixpoint saved (i : nat) (grids : list (list (list str)))
    (fs : gmap (list N) (list N)) : gmap (list N) (list N) :=
  match grids with
  | [] => fs
  | [] :: more => saved (S i) more fs
  | g :: more => saved (S i) more (<[output_name i := flat_map row_text g]> fs)
  end.

(** What the loop prints. *)
Fixpoint saved_log (i : nat) (grids : list (list (list str))) : list str :=
  match grids with
  | [] => []
  | [] :: more => saved_log (S i) more
  | _ :: more => (lit "CSV saved as " ++ output_name i) :: saved_log (S i) more
  end.

(** A document with two tables, the second of which has no row, and a
    world where it is the file [in.html]. *)
Definition two_tables_doc : str :=
  lit "<table><tr><td>a</td></tr></table><table></table>".

Definition two_tables_world : world :=
  World {[ lit "in.html" := two_tables_doc ]} (fun _ => None) [].

(** ** Well-formed documents *)

(** A document is read as text and tags: [Tag s] stands for [<s>]. *)
Inductive token : Type :=
| Text (s : str)
| Tag (s : str).

Definition render_token (t : token) : str :=
  match t with
  | Text s => s
  | Tag s => [LT] ++ s ++ [GT]
  end.

Definition render (ts : list token) : str := flat_map render_token ts.

Definition no_char (c : N) (s : str) : bool :=
  forallb (fun x => negb (x =? c)%N) s.

(** A text holds no less-than sign, a tag no less-than or greater-than
    sign, and the tag is one that [allowed] lets through. *)
Definition token_ok (allowed : str -> bool) (t : token) : bool :=
  match t with
  | Text s => no_char LT s
  | Tag s => no_char LT s && no_char GT s && allowed s
  end.

(** Tags allowed outside the table, between the rows of a table, and
    inside a row. *)
Definition outside_tag (s : str) : bool :=
  negb (startswith (lit "table") s) && negb (startswith (lit "tr") s).

Definition section_tag (s : str) : bool :=
  outside_tag s && negb (bool_decide (s = lit "/table")).

Definition inline_tag (s : str) : bool :=
  section_tag s
  && negb (startswith (lit "td") s) && negb (startswith (lit "th") s)
  && negb (bool_decide (s = lit "/tr"))
  && negb (bool_decide (s = lit "/td"))
  && negb (bool_decide (s = lit "/th")).

(** The elements of a table.  Each cell and each row comes with the
    tokens that stand before it. *)
Record cell_el : Type := Cell {
  cell_header : bool;            (* [th] rather than [td] *)
  cell_attrs : str;
  cell_content : list token
}.

Record row_el : Type := Row {
  row_attrs : str;
  row_cells : list (list token * cell_el);
  row_tail : list token
}.

Record table_el : Type := Table {
  table_attrs : str;
  table_rows : list (list token * row_el);
  table_tail : list token
}.

Record document : Type := Document {
  doc_before : list token;
  doc_table : table_el;
  doc_after : list token
}.

Definition cell_name (c : cell_el) : str :=
  if cell_header c then lit "th" else lit "td".

Definition cell_tokens (c : cell_el) : list token :=
  Tag (cell_name c ++ cell_attrs c) :: cell_content c
    ++ [Tag (lit "/" ++ cell_name c)].

Definition cells_tokens (cells : list (list token * cell_el)) : list token :=
  flat_map (fun gc => fst gc ++ cell_tokens (snd gc)) cells.

(** A row without its closing tag: what [parse_table] calls [row_html]. *)
Definition row_open_tokens (r : row_el) : list token :=
  Tag (lit "tr" ++ row_attrs r) :: cells_tokens (row_cells r) ++ row_tail r.

Definition row_tokens (r : row_el) : list token :=
  row_open_tokens r ++ [Tag (lit "/tr")].

Definition rows_tokens (rows : list (list token * row_el)) : list token :=
  flat_map (fun gr => fst gr ++ row_tokens (snd gr)) rows.

Definition table_open_tokens (t : table_el) : list token :=
  Tag (lit "table" ++ table_attrs t) :: rows_tokens (table_rows t)
    ++ table_tail t.

Definition table_tokens (t : table_el) : list token :=
  table_open_tokens t ++ [Tag (lit "/table")].

Definition render_table (t : table_el) : str := render (table_tokens t).

Definition render_document (d : document) : str :=
  render (doc_before d) ++ render_table (doc_table d) ++ render (doc_after d).

Definition attrs_ok (a : str) : bool := no_char LT a && no_char GT a.

Definition wf_cell (c : cell_el) : bool :=
  attrs_ok (cell_attrs c) && forallb (token_ok inline_tag) (cell_content c).

Definition wf_row (r : row_el) : bool :=
  attrs_ok (row_attrs r)
  && forallb (fun gc => forallb (token_ok inline_tag) (fst gc)
                        && wf_cell (snd gc)) (row_cells r)
  && forallb (token_ok inline_tag) (row_tail r).

Definition wf_table (t : table_el) : bool :=
  attrs_ok (table_attrs t)
  && forallb (fun gr => forallb (token_ok section_tag) (fst gr)
                        && wf_row (snd gr)) (table_rows t)
  && forallb (token_ok section_tag) (table_tail t).

Definition wf_document (d : document) : bool :=
  forallb (token_ok outside_tag) (doc_before d)
  && wf_table (doc_table d)
  && forallb (token_ok outside_tag) (doc_after d).

(** The value of a cell: its content, stripped and cleaned. *)
Definition cell_value (c : cell_el) : str :=
  clean_finish (remove_spans false (strip (render (cell_content c)))).

Definition row_values (r : row_el) : list str :=
  map (fun gc => cell_value (snd gc)) (row_cells r).

Definition table_values (t : table_el) : list (list str) :=
  map (fun gr => row_values (snd gr)) (table_rows t).

(** The number of places where [sub] occurs in [s]. *)
Fixpoint count_sub (sub s : str) : nat :=
  (if startswith sub s then 1 else 0)
  + match s with
    | [] => 0
    | _ :: s' => count_sub sub s'
    end.

(** A token in which the marker [LT :: q] starts nowhere, whatever
    follows the token. *)
Definition skips (q : str) (t : token) : Prop :=
  match t with
  | Text s => LT ∉ s
  | Tag s => (LT ∉ s) /\ forall R, startswith q (s ++ GT :: R) = false
  end.

(** A well-formed document whose only table has no row, and a world
    where it is the file [in.html]. *)
Definition empty_table_doc : document :=
  Document [] (Table [] [] []) [].

Definition empty_table_world : world :=
  World {[ lit "in.html" := render_document empty_table_doc ]}
        (fun _ => None) [].

(** A well-formed document with one table of two rows. *)
Definition sample_doc : document :=
  Document
    [Tag (lit "html"); Text (lit "Prices ")]
    (Table (lit " border=1")
       [([Tag (lit "thead")],
         Row [] [([], Cell true [] [Text (lit "Item")]);
                 ([Text (lit " ")], Cell true [] [Text (lit "Price")])] []);
        ([Tag (lit "/thead")],
         Row (lit " class=x")
             [([], Cell false [] [Tag (lit "b"); Text (lit "Tea");
                                  Tag (lit "/b")]);
              ([], Cell false (lit " align=right") [Text (lit " 3 ")])]
             [Text (lit " ")])]
       [])
    [Tag (lit "/html")].

Definition sample_world : world :=
  World {[ lit "in.html" := render_document sample_doc ]} (fun _ => None) [].

(** The number of line feeds of a text. *)
Definition line_feeds (s : str) : nat := count_occ N.eq_dec s LF.

(** ** Cells as [parse_table] leaves them *)

(** A tidy cell holds no line feed and no carriage return, and neither
    starts nor ends with white space. *)
Definition tidy (cell : str) : Prop :=
  (LF ∉ cell) /\ (CR ∉ cell)
  /\ (forall c t, cell = c :: t -> isspace c = false)
  /\ (forall t c, cell = t ++ [c] -> isspace c = false).

(** A text with no span left: none of its less-than signs is followed,
    however far, by a greater-than sign. *)
Definition spanless (s : str) : Prop :=
  forall a b, s = a ++ LT :: b -> GT ∉ b.

(** ** Reading a CSV file back *)

(** A reader of a whole text of quoted fields: a comma ends a field, a
    line feed outside quotes ends a row, and an empty line is a row with
    no field.  [fields] are the fields of the current row, [rows] the rows
    read so far. *)
Fixpoint read_rows (st : reader) (fields : list str)
    (rows : list (list str)) (s : str) : option (list (list str)) :=
  match s with
  | [] =>
      match st, fields with
      | AtField, [] => Some rows
      | _, _ => None
      end
  | c :: s' =>
      match st with
      | AtField =>
          if (c =? DQ)%N then read_rows (InQuotes []) fields rows s'
          else if (c =? LF)%N then
            match fields with
            | [] => read_rows AtField [] (rows ++ [[]]) s'
            | _ :: _ => None
            end
          else None
      | InQuotes cur =>
          if (c =? DQ)%N then read_rows (AfterQuote cur) fields rows s'
          else read_rows (InQuotes (cur ++ [c])) fields rows s'
      | AfterQuote cur =>
          if (c =? DQ)%N then read_rows (InQuotes (cur ++ [DQ])) fields rows s'
          else if (c =? COMMA)%N then
            read_rows AtField (fields ++ [cur]) rows s'
          else if (c =? LF)%N then
            read_rows AtField [] (rows ++ [fields ++ [cur]]) s'
          else None
      end
  end.

Definition read_csv (text : str) : option (list (list str)) :=
  read_rows AtField [] [] text.

(** ** The shape of a fragment *)

(** A fragment opens with [<table], its only [</table>] is its last
    eight characters, and it is at least fourteen characters long. *)
Definition fragment_shape (f : str) : Prop :=
  startswith (lit "<table") f = true
  /\ index_of (lit "</table>") f = Some (length f - 8)%nat
  /\ (14 <= length f)%nat.

(** ** Rows whose first cell is not closed *)

(** A row that opens with [<tr], goes on with a non-empty text [x] that
    holds no less-than sign (the end [>] of the tag, say), then opens a
    cell and never closes it: [rest] holds no less-than sign either. *)
Definition unclosed_row (header : bool) (x rest : str) : str :=
  lit "<tr" ++ x ++ LT :: (if header then lit "th" else lit "td") ++ rest.

(** ** A document cut into pieces *)

(** A gap, a fragment, a gap, a fragment, and so on, then what is left
    of the document. *)
Fixpoint interleave (gaps frags : list str) (rest : str) : str :=
  match gaps, frags with
  | g :: gaps', f :: frags' => g ++ f ++ interleave gaps' frags' rest
  | _, _ => rest
  end.

(** ** Two tables without rows *)

(** A document with two tables, neither of which has a row, and a world
    where it is the file [in.html]. *)
Definition rowless_tables_doc : str := lit "<table></table><table></table>".

Definition rowless_tables_world : world :=
  World {[ lit "in.html" := rowless_tables_doc ]} (fun _ => None) [].

(** ** An unclosed row behind an unclosed cell *)

(** A table whose second [<tr] has no [</tr>] after it, and whose first
    row opens a cell that it never closes. *)
Definition hanging_row_table : str :=
  lit "<table><tr><td>abc</tr><tr><td>b</td></table>".

(** A table of one row with one cell; without its closing tag its text is
    [<table><tr><td>a</td></tr>]. *)
Definition one_row_table : table_el :=
  Table [] [([], Row [] [([], Cell false [] [Text (lit "a")])] [])] [].

(** * Proofs *)

(** ** Strings *)

Section Strings.

Implicit Types (s sub a b : str) (k : nat).

Lemma len_app a b : len (a ++ b) = len a + len b.
Proof. unfold len. rewrite length_app. lia. Qed.

Lemma len_nonneg s : 0 <= len s.
Proof. unfold len. lia. Qed.

Lemma startswith_spec sub s :
  startswith sub s = true <-> take (length sub) s = sub.
Proof.
  revert s. induction sub as [|x sub IH]; intros [|y s]; simpl; try easy.
  rewrite andb_true_iff, N.eqb_eq, IH. split.
  - intros [-> E]. now rewrite E.
  - intros E. injection E as -> E. auto.
Qed.

End Strings.

Section Finding.
Implicit Types (s sub a b : str) (k : nat).

Lemma occurs_at_startswith sub s k :
  occurs_at sub s k <-> startswith sub (drop k s) = true.
Proof. unfold occurs_at. now rewrite startswith_spec. Qed.

Lemma startswith_length sub s :
  startswith sub s = true -> (length sub <= length s)%nat.
Proof.
  revert s. induction sub as [|x sub IH]; intros [|y s]; simpl; try easy; try lia.
  rewrite andb_true_iff. intros [_ H]. apply IH in H. lia.
Qed.

Lemma startswith_app sub s : startswith sub (sub ++ s) = true.
Proof. induction sub; simpl; [easy|]. now rewrite N.eqb_refl. Qed.

Lemma startswith_split sub s :
  startswith sub s = true -> s = sub ++ drop (length sub) s.
Proof.
  rewrite startswith_spec. intros E.
  rewrite <- E at 1. now rewrite take_drop.
Qed.

Lemma index_of_first sub s k :
  index_of sub s = Some k -> first_at sub s k.
Proof.
  revert k. induction s as [|y s IH]; intros k; simpl.
  - destruct (startswith sub []) eqn:E; [|easy]. intros [= <-].
    split; [now apply occurs_at_startswith | lia].
  - destruct (startswith sub (y :: s)) eqn:E.
    + intros [= <-]. split; [now apply occurs_at_startswith | lia].
    + destruct (index_of sub s) as [k'|]; [|easy]. simpl. intros [= <-].
      destruct (IH k' eq_refl) as [Hk Hj]. split.
      * exact Hk.
      * intros [|j] Hlt.
        -- rewrite occurs_at_startswith. simpl. now rewrite E.
        -- apply Hj. lia.
Qed.

Lemma index_of_absent sub s : index_of sub s = None -> absent sub s.
Proof.
  induction s as [|y s IH]; simpl.
  - destruct (startswith sub []) eqn:E; [easy|]. intros _ j.
    rewrite occurs_at_startswith, drop_nil. now rewrite E.
  - destruct (startswith sub (y :: s)) eqn:E; [easy|].
    destruct (index_of sub s); [easy|]. intros _ [|j].
    + rewrite occurs_at_startswith. simpl. now rewrite E.
    + apply (IH eq_refl j).
Qed.

Lemma index_of_bound sub s k :
  index_of sub s = Some k -> (k + length sub <= length s)%nat.
Proof.
  revert k. induction s as [|y s IH]; intros k; simpl.
  - destruct (startswith sub []) eqn:E; [|easy]. intros [= <-].
    apply startswith_length in E. simpl in *. lia.
  - destruct (startswith sub (y :: s)) eqn:E.
    + intros [= <-]. apply startswith_length in E. simpl in *. lia.
    + destruct (index_of sub s) as [k'|]; [|easy]. simpl. intros [= <-].
      specialize (IH k' eq_refl). lia.
Qed.

Lemma index_of_split sub s k :
  index_of sub s = Some k ->
  s = take k s ++ sub ++ drop (k + length sub) s.
Proof.
  intros H. apply index_of_first in H as [H _].
  apply occurs_at_startswith, startswith_split in H.
  rewrite <- (take_drop k s) at 1. f_equal.
  rewrite H at 1. f_equal. now rewrite drop_drop.
Qed.

Lemma find_from_found sub s i : find_from sub s i = found i (index_of sub s).
Proof.
  revert i. induction s as [|y s IH]; intros i; simpl.
  - destruct (startswith sub []); simpl; [lia | easy].
  - destruct (startswith sub (y :: s)); simpl; [lia|].
    rewrite IH. destruct (index_of sub s); simpl; lia.
Qed.

Lemma find_found s sub start :
  0 <= start <= len s ->
  find s sub start = found start (index_of sub (drop (Z.to_nat start) s)).
Proof.
  intros H. unfold find.
  destruct (Z.ltb_spec start 0); [lia|].
  destruct (Z.ltb_spec (len s) start); [lia|].
  apply find_from_found.
Qed.

Lemma find_app_at a b sub :
  find (a ++ b) sub (len a) = found (len a) (index_of sub b).
Proof.
  rewrite find_found.
  - unfold len. rewrite Nat2Z.id, drop_app_length. reflexivity.
  - rewrite len_app. pose proof (len_nonneg a). pose proof (len_nonneg b). lia.
Qed.

Lemma find_at_0 s sub : find s sub 0 = found 0 (index_of sub s).
Proof. apply (find_app_at [] s sub). Qed.

Lemma find_past_end s sub start : len s < start -> find s sub start = -1.
Proof.
  intros H. unfold find. pose proof (len_nonneg s).
  destruct (Z.ltb_spec start 0); [lia|].
  destruct (Z.ltb_spec (len s) start); [easy|lia].
Qed.

End Finding.

Section Slicing.
Implicit Types (s sub a b c : str) (k : nat).

Lemma clamp_in n i : 0 <= i <= n -> clamp n i = i.
Proof. intros H. unfold clamp. destruct (Z.ltb_spec i 0); lia. Qed.

Lemma slice_app_mid a b c :
  slice (a ++ b ++ c) (len a) (len a + len b) = b.
Proof.
  unfold slice. pose proof (len_nonneg a). pose proof (len_nonneg b).
  pose proof (len_nonneg c).
  rewrite !clamp_in by (rewrite !len_app; lia).
  replace (len a + len b - len a) with (len b) by lia.
  unfold len. rewrite !Nat2Z.id, drop_app_length, take_app_length. reflexivity.
Qed.

Lemma slice_to_app a b : slice_to (a ++ b) (len a) = a.
Proof.
  unfold slice_to. pose proof (len_nonneg a). pose proof (len_nonneg b).
  rewrite clamp_in by (rewrite len_app; lia).
  unfold len. now rewrite Nat2Z.id, take_app_length.
Qed.

Lemma slice_from_app a b : slice_from (a ++ b) (len a) = b.
Proof.
  unfold slice_from. pose proof (len_nonneg a). pose proof (len_nonneg b).
  rewrite clamp_in by (rewrite len_app; lia).
  unfold len. now rewrite Nat2Z.id, drop_app_length.
Qed.

(** A slice that ends inside a prefix does not see what follows it. *)
Lemma slice_app_l a b i j :
  0 <= i -> 0 <= j <= len a -> slice (a ++ b) i j = slice a i j.
Proof.
  intros Hi Hj. unfold slice. pose proof (len_nonneg b).
  destruct (Z.le_gt_cases i j) as [Hij|Hij].
  - rewrite !clamp_in by (rewrite ?len_app; lia).
    rewrite drop_app_le by (unfold len in *; lia).
    rewrite take_app_le; [reflexivity|].
    rewrite length_drop. unfold len in *. lia.
  - assert (E : forall n, 0 <= clamp n i -> clamp n j <= clamp n i ->
       Z.to_nat (clamp n j - clamp n i) = 0%nat) by (intros; lia).
    assert (C : forall n, 0 <= n -> 0 <= clamp n i /\ clamp n j <= clamp n i).
    { intros n Hn. unfold clamp.
      destruct (Z.ltb_spec i 0), (Z.ltb_spec j 0); lia. }
    destruct (C (len (a ++ b))) as [? ?]; [apply len_nonneg|].
    destruct (C (len a)) as [? ?]; [apply len_nonneg|].
    rewrite !E by assumption. reflexivity.
Qed.

End Slicing.

(** ** Loops *)

Section Loops.
Context {S : Type} (body : S -> option (ctl S)).

Lemma while_true_more n m s r :
  while_true body n s = Some r -> (n <= m)%nat -> while_true body m s = Some r.
Proof.
  revert m s. induction n as [|n IH]; intros m s; simpl; [easy|].
  intros H Hle. destruct m as [|m]; [lia|]. simpl.
  destruct (body s) as [[s'|s']|]; try easy.
  apply IH; [assumption | lia].
Qed.

(** A loop whose body never breaks on the states of an invariant does
    not return, whatever the fuel. *)
Lemma while_true_stuck (P : S -> Prop) :
  (forall s, P s -> body s = None \/ exists s', body s = Some (Next s') /\ P s') ->
  forall n s, P s -> while_true body n s = None.
Proof.
  intros Hbody. induction n as [|n IH]; intros s Hs; [easy|]. simpl.
  destruct (Hbody s Hs) as [-> | [s' [-> Hs']]]; [easy|]. now apply IH.
Qed.

End Loops.

(** ** Single characters *)

Section Chars.
Implicit Types (s a b r : str) (c : N).

Lemma startswith_char c s :
  startswith [c] s = match s with x :: _ => (c =? x)%N | [] => false end.
Proof. destruct s as [|x s]; simpl; [easy|]. destruct s; apply andb_true_r. Qed.

Lemma index_of_char_notin c s : c ∉ s -> index_of [c] s = None.
Proof.
  induction s as [|x s IH]; [easy|].
  rewrite not_elem_of_cons. intros [Hx Hs].
  cbn [index_of]. rewrite startswith_char.
  destruct (N.eqb_spec c x); [easy|]. now rewrite IH.
Qed.

Lemma index_of_char_app c a r :
  c ∉ a -> index_of [c] (a ++ c :: r) = Some (length a).
Proof.
  induction a as [|x a IH]; intros Ha.
  - cbn [index_of app]. rewrite startswith_char. now rewrite N.eqb_refl.
  - apply not_elem_of_cons in Ha as [Hx Ha].
    cbn [index_of app]. rewrite startswith_char.
    destruct (N.eqb_spec c x); [easy|]. now rewrite IH.
Qed.

(** Every text splits at its first [c], if it has one. *)
Lemma split_at_char c s :
  c ∉ s \/ exists a r, s = a ++ c :: r /\ c ∉ a.
Proof.
  induction s as [|x s IH].
  - left. apply not_elem_of_nil.
  - destruct (N.eq_dec c x) as [<-|Hne].
    + right. exists [], s. split; [easy | apply not_elem_of_nil].
    + destruct IH as [Hs | (a & r & -> & Ha)].
      * left. now apply not_elem_of_cons.
      * right. exists (x :: a), r. split; [easy|]. now apply not_elem_of_cons.
Qed.

Lemma contains_char c s : contains s [c] = true <-> c ∈ s.
Proof.
  unfold contains. rewrite find_at_0.
  destruct (split_at_char c s) as [Hs | (a & r & -> & Ha)].
  - rewrite index_of_char_notin by assumption. simpl. split; [easy|]. intros H. contradiction.
  - rewrite index_of_char_app by assumption. unfold found. split.
    + intros _. apply elem_of_app. right. apply elem_of_cons. now left.
    + intros _. destruct (Z.eqb_spec (0 + Z.of_nat (length a)) (-1)); [lia | easy].
Qed.

End Chars.

(** ** The loop of clean_html *)

Section Cleaning.
Implicit Types (text a b c : str).

Lemma clean_body_plain text : LT ∉ text -> clean_body text = Some (Break text).
Proof.
  intros H. unfold clean_body.
  destruct (contains text [LT]) eqn:E; [|reflexivity].
  apply contains_char in E. contradiction.
Qed.

Lemma clean_body_open a b :
  LT ∉ a -> GT ∉ b -> clean_body (a ++ LT :: b) = Some (Break (a ++ LT :: b)).
Proof.
  intros Ha Hb. unfold clean_body.
  destruct (contains _ [LT] && contains _ [GT]); [|reflexivity].
  rewrite find_at_0, index_of_char_app by assumption. simpl found.
  change (0 + Z.of_nat (length a)) with (len a).
  rewrite find_app_at. cbn [index_of]. rewrite startswith_char.
  change (GT =? LT)%N with false. cbv iota.
  rewrite index_of_char_notin by assumption. simpl.
  now rewrite orb_true_r.
Qed.

Lemma clean_body_span a b c :
  LT ∉ a -> GT ∉ b ->
  clean_body (a ++ LT :: b ++ GT :: c) = Some (Next (a ++ c)).
Proof.
  intros Ha Hb. unfold clean_body.
  assert (E1 : contains (a ++ LT :: b ++ GT :: c) [LT] = true).
  { apply contains_char. rewrite elem_of_app, elem_of_cons. auto. }
  assert (E2 : contains (a ++ LT :: b ++ GT :: c) [GT] = true).
  { apply contains_char. rewrite elem_of_app, elem_of_cons, elem_of_app, elem_of_cons. auto. }
  rewrite E1, E2. cbv iota. simpl andb. cbv iota.
  rewrite find_at_0, index_of_char_app by assumption. simpl found.
  change (0 + Z.of_nat (length a)) with (len a).
  rewrite find_app_at. cbn [index_of]. rewrite startswith_char.
  change (GT =? LT)%N with false. cbv iota.
  rewrite index_of_char_app by assumption. simpl found.
  pose proof (len_nonneg a).
  destruct (Z.eqb_spec (len a) (-1)); [lia|].
  destruct (Z.eqb_spec (len a + Z.of_nat (Datatypes.S (length b))) (-1)); [lia|].
  simpl orb. cbv iota. rewrite slice_to_app.
  replace (a ++ LT :: b ++ GT :: c) with ((a ++ LT :: b ++ [GT]) ++ c)
    by (rewrite <- !app_assoc; simpl; now rewrite <- app_assoc).
  replace (len a + Z.of_nat (Datatypes.S (length b)) + 1)
    with (len (a ++ LT :: b ++ [GT])).
  - now rewrite slice_from_app.
  - unfold len. rewrite length_app. simpl. rewrite length_app. simpl. lia.
Qed.

(** The three shapes of a text. *)
Lemma text_shape text :
  LT ∉ text
  \/ (exists a b, text = a ++ LT :: b /\ (LT ∉ a) /\ (GT ∉ b))
  \/ (exists a b c, text = a ++ LT :: b ++ GT :: c /\ (LT ∉ a) /\ (GT ∉ b)).
Proof.
  destruct (split_at_char LT text) as [H | (a & r & -> & Ha)]; [now left|].
  right. destruct (split_at_char GT r) as [Hr | (b & c & -> & Hb)].
  - left. now exists a, r.
  - right. now exists a, b, c.
Qed.

Lemma existsb_GT s : existsb (N.eqb GT) s = true <-> GT ∈ s.
Proof.
  rewrite existsb_exists. split.
  - intros (x & Hx & E). apply N.eqb_eq in E as <-. now apply list_elem_of_In.
  - intros H. exists GT. split; [now apply list_elem_of_In | apply N.eqb_refl].
Qed.

Lemma remove_spans_plain s : LT ∉ s -> remove_spans false s = s.
Proof.
  induction s as [|x s IH]; [easy|]. rewrite not_elem_of_cons. intros [Hx Hs].
  simpl. destruct (N.eqb_spec x LT); [congruence|]. now rewrite IH.
Qed.

Lemma remove_spans_app_plain a s :
  LT ∉ a -> remove_spans false (a ++ s) = a ++ remove_spans false s.
Proof.
  induction a as [|x a IH]; [easy|]. rewrite not_elem_of_cons. intros [Hx Ha].
  simpl. destruct (N.eqb_spec x LT); [congruence|]. now rewrite IH.
Qed.

Lemma remove_spans_inside b c :
  GT ∉ b -> remove_spans true (b ++ GT :: c) = remove_spans false c.
Proof.
  induction b as [|x b IH]; [easy|]. rewrite not_elem_of_cons. intros [Hx Hb].
  simpl. destruct (N.eqb_spec x GT); [congruence|]. now apply IH.
Qed.

Lemma remove_spans_span b c :
  GT ∉ b -> remove_spans false (LT :: b ++ GT :: c) = remove_spans false c.
Proof.
  intros Hb. cbn [remove_spans]. change (LT =? LT)%N with true. cbv iota.
  assert (E : existsb (N.eqb GT) (b ++ GT :: c) = true).
  { apply existsb_GT. rewrite elem_of_app, elem_of_cons. auto. }
  rewrite E. now apply remove_spans_inside.
Qed.

Lemma remove_spans_open b :
  GT ∉ b -> remove_spans false (LT :: b) = LT :: b.
Proof.
  intros Hb. cbn [remove_spans]. change (LT =? LT)%N with true. cbv iota.
  destruct (existsb (N.eqb GT) b) eqn:E; [|reflexivity].
  apply existsb_GT in E. contradiction.
Qed.

(** The loop computes the one-pass stripping, within [length text + 1]
    passes. *)
Lemma strip_tags_remove_spans fuel text :
  (length text < fuel)%nat ->
  strip_tags fuel text = Some (remove_spans false text).
Proof.
  revert text. induction fuel as [|fuel IH]; intros text Hlen; [lia|].
  unfold strip_tags. cbn [while_true].
  destruct (text_shape text) as [H | [(a & b & -> & Ha & Hb) | (a & b & c & -> & Ha & Hb)]].
  - rewrite clean_body_plain by assumption. now rewrite remove_spans_plain.
  - rewrite clean_body_open by assumption.
    now rewrite remove_spans_app_plain, remove_spans_open.
  - rewrite clean_body_span by assumption.
    rewrite remove_spans_app_plain, remove_spans_span by assumption.
    rewrite <- remove_spans_app_plain by assumption.
    apply IH. rewrite length_app in *. simpl in Hlen.
    rewrite length_app in Hlen. simpl in Hlen. lia.
Qed.

Lemma clean_html_enough fuel text :
  (length text < fuel)%nat ->
  clean_html fuel text = Some (clean_finish (remove_spans false text)).
Proof.
  intros H. unfold clean_html. now rewrite strip_tags_remove_spans.
Qed.

End Cleaning.

(** ** replace and strip *)

Section Finishing.
Implicit Types (s t l r : str) (c : N).

Lemma replace_char s c new :
  replace s [c] new = flat_map (fun x => if (x =? c)%N then new else [x]) s.
Proof.
  unfold replace. induction s as [|x s IH]; [easy|].
  cbn [replace_go flat_map]. rewrite startswith_char.
  rewrite (N.eqb_sym c x). destruct (x =? c)%N; simpl; now rewrite IH.
Qed.

Lemma replace_newlines s :
  replace (replace s [LF] [SP]) [CR] [SP] = map newline_to_space s.
Proof.
  rewrite !replace_char. induction s as [|x s IH]; [easy|].
  cbn [flat_map map]. unfold newline_to_space at 1.
  destruct (N.eqb_spec x LF) as [->|H1]; simpl; [now rewrite IH|].
  destruct (N.eqb_spec x CR) as [->|H2]; simpl; now rewrite IH.
Qed.

Lemma newline_to_space_clear c :
  newline_to_space c <> LF /\ newline_to_space c <> CR.
Proof.
  unfold newline_to_space.
  destruct (N.eqb_spec c LF), (N.eqb_spec c CR); simpl; split; try easy.
Qed.

Lemma lstrip_split s :
  exists l, s = l ++ lstrip s /\ forallb isspace l = true.
Proof.
  induction s as [|x s (l & E & Hl)]; [now exists []|]. simpl.
  destruct (isspace x) eqn:Hx.
  - exists (x :: l). simpl. rewrite Hx, Hl. split; [congruence | easy].
  - now exists [].
Qed.

Lemma lstrip_head s c t : lstrip s = c :: t -> isspace c = false.
Proof.
  induction s as [|x s IH]; simpl; [easy|].
  destruct (isspace x) eqn:Hx; [assumption|]. now intros [= <- _].
Qed.

Lemma rstrip_split s :
  exists r, s = rstrip s ++ r /\ forallb isspace r = true.
Proof.
  unfold rstrip. destruct (lstrip_split (rev s)) as (l & E & Hl).
  exists (rev l). split.
  - rewrite <- rev_app_distr, <- E. now rewrite rev_involutive.
  - rewrite forallb_forall in *. intros x Hx. apply Hl. now apply in_rev.
Qed.

Lemma rstrip_last s t c : rstrip s = t ++ [c] -> isspace c = false.
Proof.
  unfold rstrip. intros E. apply (f_equal (@rev N)) in E.
  rewrite rev_involutive, rev_app_distr in E. simpl in E.
  now apply lstrip_head in E.
Qed.

(** Trailing spaces are the only thing [rstrip] removes, so the first
    character of a text that does not start with a space stays first. *)
Lemma rstrip_head s c t :
  rstrip s = c :: t -> exists t', s = c :: t'.
Proof.
  destruct (rstrip_split s) as (r & E & _). intros H.
  rewrite H in E. simpl in E. eauto.
Qed.

Lemma strip_split s :
  exists l r, s = l ++ strip s ++ r
    /\ forallb isspace l = true /\ forallb isspace r = true.
Proof.
  unfold strip. destruct (lstrip_split s) as (l & El & Hl).
  destruct (rstrip_split (lstrip s)) as (r & Er & Hr).
  exists l, r. split; [|easy]. rewrite <- Er. exact El.
Qed.

Lemma strip_head s c t : strip s = c :: t -> isspace c = false.
Proof.
  unfold strip. intros H. apply rstrip_head in H as [t' H].
  now apply lstrip_head in H.
Qed.

Lemma strip_last s t c : strip s = t ++ [c] -> isspace c = false.
Proof. unfold strip. apply rstrip_last. Qed.

Lemma strip_length s : (length (strip s) <= length s)%nat.
Proof.
  destruct (strip_split s) as (l & r & E & _).
  rewrite E at 2. rewrite !length_app. lia.
Qed.

End Finishing.

(** ** clean_html: the claims *)

Section CleanClaims.
Implicit Types (text a b c s : str).

Lemma ends_inside_closed a : ends_inside true a = false -> GT ∈ a.
Proof.
  induction a as [|x a IH]; simpl; [easy|].
  destruct (N.eqb_spec x GT) as [->|Hx]; simpl; intros H.
  - apply elem_of_cons. now left.
  - apply elem_of_cons. right. now apply IH.
Qed.

Lemma remove_spans_app_balanced inside a s :
  ends_inside inside a = false ->
  remove_spans inside (a ++ s) = remove_spans inside a ++ remove_spans false s.
Proof.
  revert inside. induction a as [|x a IH]; intros inside; simpl.
  - now intros ->.
  - destruct inside.
    + destruct (N.eqb_spec x GT); simpl; apply IH.
    + destruct (N.eqb_spec x LT) as [->|Hx]; intros H.
      * pose proof (ends_inside_closed a H) as Hgt.
        assert (E1 : existsb (N.eqb GT) (a ++ s) = true).
        { apply existsb_GT, elem_of_app. now left. }
        assert (E2 : existsb (N.eqb GT) a = true) by now apply existsb_GT.
        rewrite E1, E2. now apply IH.
      * simpl. f_equal. now apply IH.
Qed.

Lemma plain_balanced a : LT ∉ a -> balanced a.
Proof.
  unfold balanced. induction a as [|x a IH]; [easy|].
  rewrite not_elem_of_cons. intros [Hx Ha]. simpl.
  destruct (N.eqb_spec x LT); [congruence | now apply IH].
Qed.

End CleanClaims.

(** C3.  The cell cleaner returns, for every raw cell text, the text with
    its tag-bracketed spans removed, its line feeds and carriage returns
    turned into spaces, and its leading and trailing white space trimmed:
    what is cut off on either side is white space only, and what remains
    neither starts nor ends with white space.  [<b>Bold</b> text] cleans
    to [Bold text], and [line1], a line feed, [line2] to [line1 line2]. *)
Theorem clean_html_removes_tags_and_newlines (fuel : nat) (text : str) :
  (length text < fuel)%nat ->
  exists cleaned l r,
    clean_html fuel text = Some cleaned
    /\ map newline_to_space (remove_spans false text) = l ++ cleaned ++ r
    /\ forallb isspace l = true /\ forallb isspace r = true
    /\ (forall c t, cleaned = c :: t -> isspace c = false)
    /\ (forall t c, cleaned = t ++ [c] -> isspace c = false)
    /\ (LF ∉ cleaned) /\ (CR ∉ cleaned)
    /\ (text = lit "<b>Bold</b> text" -> cleaned = lit "Bold text")
    /\ (text = lit "line1" ++ [LF] ++ lit "line2" -> cleaned = lit "line1 line2").
Proof.
  intros Hfuel. rewrite clean_html_enough by assumption.
  unfold clean_finish. rewrite replace_newlines.
  set (u := map newline_to_space (remove_spans false text)).
  destruct (strip_split u) as (l & r & E & Hl & Hr).
  exists (strip u), l, r.
  assert (Hclear : forall x, x ∈ strip u -> x <> LF /\ x <> CR).
  { intros x Hx. assert (Hu : x ∈ u).
    { rewrite E, !elem_of_app. auto. }
    apply list_elem_of_fmap in Hu as (y & -> & _).
    apply newline_to_space_clear. }
  repeat split; try assumption.
  - apply strip_head.
  - apply strip_last.
  - intros H. now destruct (Hclear _ H).
  - intros H. now destruct (Hclear _ H).
  - intros ->. subst u. vm_compute. reflexivity.
  - intros ->. subst u. vm_compute. reflexivity.
Qed.

Lemma clean_html_removes_tags_and_newlines_witness :
  exists cleaned l r,
    clean_html 20 (lit "<b>Bold</b> text") = Some cleaned
    /\ map newline_to_space (remove_spans false (lit "<b>Bold</b> text"))
       = l ++ cleaned ++ r
    /\ forallb isspace l = true /\ forallb isspace r = true
    /\ (forall c t, cleaned = c :: t -> isspace c = false)
    /\ (forall t c, cleaned = t ++ [c] -> isspace c = false)
    /\ (LF ∉ cleaned) /\ (CR ∉ cleaned)
    /\ (lit "<b>Bold</b> text" = lit "<b>Bold</b> text"
        -> cleaned = lit "Bold text")
    /\ (lit "<b>Bold</b> text" = lit "line1" ++ [LF] ++ lit "line2"
        -> cleaned = lit "line1 line2").
Proof.
  apply (clean_html_removes_tags_and_newlines 20 (lit "<b>Bold</b> text")).
  vm_compute. lia.
Defined.

(** C4.  A less-than sign that is met outside a span (the text [a] before
    it is balanced) and is not part of a tag is still taken for the start
    of one: everything from it up to the next greater-than sign, however
    far, is removed, so the text cleans like the text without that
    stretch.  When no greater-than sign follows, the loop stops and the
    fragment from the less-than sign on is kept as it is, as in [3 < 5];
    a text with no less-than sign at all is kept whole. *)
Theorem clean_html_bare_lt (fuel : nat) (a b c : str) :
  balanced a -> GT ∉ b ->
  (length (a ++ LT :: b ++ GT :: c) < fuel)%nat ->
  strip_tags fuel (a ++ LT :: b ++ GT :: c) = strip_tags fuel (a ++ c)
  /\ clean_html fuel (a ++ LT :: b ++ GT :: c) = clean_html fuel (a ++ c)
  /\ (exists kept, strip_tags fuel (a ++ c) = Some kept)
  /\ strip_tags fuel (a ++ LT :: b) = Some (remove_spans false a ++ LT :: b)
  /\ (LT ∉ a -> strip_tags fuel a = Some a)
  /\ strip_tags fuel (lit "3 < 5") = Some (lit "3 < 5").
Proof.
  intros Ha Hb Hfuel.
  rewrite length_app in Hfuel. cbn [length] in Hfuel.
  rewrite length_app in Hfuel. cbn [length] in Hfuel.
  assert (E : strip_tags fuel (a ++ LT :: b ++ GT :: c)
              = strip_tags fuel (a ++ c)).
  { rewrite !strip_tags_remove_spans
      by (rewrite ?length_app; cbn [length]; rewrite ?length_app; cbn [length]; lia).
    f_equal. rewrite !remove_spans_app_balanced by exact Ha.
    now rewrite remove_spans_span. }
  split; [exact E|]. split; [unfold clean_html; now rewrite E|].
  split.
  { eexists. apply strip_tags_remove_spans. rewrite length_app. lia. }
  split.
  { rewrite strip_tags_remove_spans by (rewrite length_app; cbn [length]; lia).
    rewrite remove_spans_app_balanced by exact Ha.
    now rewrite remove_spans_open. }
  split.
  { intros Hplain. rewrite strip_tags_remove_spans by lia.
    now rewrite remove_spans_plain. }
  destruct fuel as [|fuel]; [lia|]. reflexivity.
Qed.

Lemma clean_html_bare_lt_witness :
  strip_tags 20 (lit "3 " ++ LT :: lit " 5 <b" ++ GT :: lit "x")
    = strip_tags 20 (lit "3 " ++ lit "x")
  /\ clean_html 20 (lit "3 " ++ LT :: lit " 5 <b" ++ GT :: lit "x")
     = clean_html 20 (lit "3 " ++ lit "x")
  /\ (exists kept, strip_tags 20 (lit "3 " ++ lit "x") = Some kept)
  /\ strip_tags 20 (lit "3 " ++ LT :: lit " 5 <b")
     = Some (remove_spans false (lit "3 ") ++ LT :: lit " 5 <b")
  /\ (LT ∉ lit "3 " -> strip_tags 20 (lit "3 ") = Some (lit "3 "))
  /\ strip_tags 20 (lit "3 < 5") = Some (lit "3 < 5").
Proof.
  apply (clean_html_bare_lt 20 (lit "3 ") (lit " 5 <b") (lit "x")).
  - reflexivity.
  - compute_done.
  - vm_compute. lia.
Defined.

(** C10.  The loop of the cell cleaner returns on every text.  A pass
    either leaves the loop with the text unchanged, or removes one span,
    from the first less-than sign to the first greater-than sign after
    it, both included, which shortens the text by two characters at
    least; it leaves the loop when no greater-than sign follows the first
    less-than sign.  So [length text + 1] passes are always enough. *)
Theorem clean_html_terminates (text : str) :
  (clean_body text = Some (Break text)
   \/ exists a b c, text = a ++ LT :: b ++ GT :: c /\ (LT ∉ a) /\ (GT ∉ b)
        /\ clean_body text = Some (Next (a ++ c))
        /\ (length (a ++ c) + 2 <= length text)%nat)
  /\ (forall a b, text = a ++ LT :: b -> LT ∉ a -> GT ∉ b ->
        clean_body text = Some (Break text))
  /\ (forall fuel, (length text < fuel)%nat ->
        exists stripped,
          strip_tags fuel text = Some stripped
          /\ clean_html fuel text = Some (clean_finish stripped)).
Proof.
  split; [|split].
  - destruct (text_shape text)
      as [H | [(a & b & -> & Ha & Hb) | (a & b & c & -> & Ha & Hb)]].
    + left. now apply clean_body_plain.
    + left. now apply clean_body_open.
    + right. exists a, b, c. repeat split; try assumption.
      * now apply clean_body_span.
      * rewrite !length_app. cbn [length]. rewrite length_app. cbn [length]. lia.
  - intros a b -> Ha Hb. now apply clean_body_open.
  - intros fuel Hfuel. exists (remove_spans false text). split.
    + now apply strip_tags_remove_spans.
    + now apply clean_html_enough.
Qed.

(** ** save_csv *)

Section Csv.
Implicit Types (cell s : str) (row : list str) (rows : list (list str)).

Lemma csv_field_quoted cell : csv_field cell = quoted cell.
Proof. unfold csv_field, quoted. now rewrite replace_char. Qed.

Lemma csv_line_row_text row : csv_line row ++ [LF] = row_text row.
Proof.
  unfold csv_line. induction row as [|cell row IH]; [easy|].
  destruct row as [|cell' row].
  - cbn [map join row_text]. now rewrite csv_field_quoted.
  - change (join [COMMA] (map csv_field (cell :: cell' :: row)))
      with (csv_field cell ++ [COMMA] ++ join [COMMA] (map csv_field (cell' :: row))).
    change (row_text (cell :: cell' :: row))
      with (quoted cell ++ COMMA :: row_text (cell' :: row)).
    rewrite <- IH, csv_field_quoted, <- !app_assoc. reflexivity.
Qed.

Lemma collapse_other c s :
  c <> DQ -> collapse_quotes (c :: s) = c :: collapse_quotes s.
Proof.
  intros Hc. destruct s as [|b t]; [easy|]. cbn [collapse_quotes].
  now destruct (N.eqb_spec c DQ).
Qed.

Lemma collapse_doubled cell :
  collapse_quotes
    (flat_map (fun c => if (c =? DQ)%N then [DQ; DQ] else [c]) cell) = cell.
Proof.
  induction cell as [|c cell IH]; [easy|]. cbn [flat_map].
  destruct (N.eqb_spec c DQ) as [->|Hc].
  - cbn [app collapse_quotes]. change (DQ =? DQ)%N with true. simpl.
    now rewrite IH.
  - cbn [app]. rewrite collapse_other by assumption. now rewrite IH.
Qed.

Lemma csv_unescape_field cell : csv_unescape (csv_field cell) = Some cell.
Proof.
  rewrite csv_field_quoted. unfold csv_unescape, quoted, strip_outer_quotes.
  rewrite rev_app_distr. simpl. change (DQ =? DQ)%N with true. simpl.
  now rewrite rev_involutive, collapse_doubled.
Qed.

Lemma read_quoted cur cell done rest :
  read_fields (InQuotes cur) done
    (flat_map (fun c => if (c =? DQ)%N then [DQ; DQ] else [c]) cell
       ++ DQ :: rest)
  = read_fields (AfterQuote (cur ++ cell)) done rest.
Proof.
  revert cur. induction cell as [|c cell IH]; intros cur.
  - simpl. change (DQ =? DQ)%N with true. now rewrite app_nil_r.
  - cbn [flat_map]. destruct (N.eqb_spec c DQ) as [->|Hc].
    + cbn [app read_fields]. change (DQ =? DQ)%N with true. cbv iota.
      rewrite IH. now rewrite <- app_assoc.
    + cbn [app read_fields]. destruct (N.eqb_spec c DQ); [contradiction|].
      rewrite IH. now rewrite <- app_assoc.
Qed.

Lemma read_fields_line done cell row :
  read_fields AtField done (csv_line (cell :: row))
  = Some (done ++ cell :: row).
Proof.
  revert done cell. induction row as [|cell' row IH]; intros done cell.
  - unfold csv_line. simpl join. rewrite csv_field_quoted. unfold quoted.
    cbn [read_fields]. change (DQ =? DQ)%N with true. cbv iota.
    now rewrite read_quoted.
  - unfold csv_line in *.
    change (join [COMMA] (map csv_field (cell :: cell' :: row)))
      with (csv_field cell ++ [COMMA] ++ join [COMMA] (map csv_field (cell' :: row))).
    rewrite csv_field_quoted. unfold quoted.
    cbn [read_fields app]. change (DQ =? DQ)%N with true. cbv iota.
    rewrite <- app_assoc. cbn [app]. rewrite read_quoted.
    cbn [read_fields app]. change (COMMA =? DQ)%N with false.
    change (COMMA =? COMMA)%N with true. cbv iota.
    rewrite IH. now rewrite <- app_assoc.
Qed.

Lemma write_rows filename rows acc fs net out :
  for_each rows (fun row => write filename (csv_line row ++ [LF]))
    (World (<[filename := acc]> fs) net out)
  = Returned tt
      (World (<[filename := acc ++ flat_map row_text rows]> fs) net out).
Proof.
  revert acc. induction rows as [|row rows IH]; intros acc.
  - simpl. unfold proc_ret. now rewrite app_nil_r.
  - cbn [for_each flat_map]. unfold proc_bind at 1. unfold write at 1.
    cbn [files http stdout]. rewrite lookup_insert_eq, insert_insert_eq.
    cbn [default]. rewrite csv_line_row_text, IH. now rewrite <- app_assoc.
Qed.

Lemma save_csv_writes rows filename w :
  save_csv rows filename w
  = Returned tt
      (World (<[filename := flat_map row_text rows]> (files w)) (http w)
             (stdout w ++ [lit "CSV saved as " ++ filename])).
Proof.
  unfold save_csv. unfold proc_bind at 1. unfold open_w at 1.
  unfold proc_bind at 1. rewrite write_rows. reflexivity.
Qed.

End Csv.

(** C2.  The CSV writer leaves in the file, for every grid, the rows in
    order, each row being its cells joined by commas and followed by a
    line feed, each cell wrapped in double quotes whatever it holds, with
    its own double quotes doubled.  The cell made of [He said ] and of [hi]
    between double quotes is written with a pair of double quotes around
    it and two double quotes for each of its own.  Unescaping a written field in the standard way
    gives the cell back, and reading a written line of at least one field
    as a CSV reader does gives the row back. *)
Theorem save_csv_quotes_every_cell
    (rows : list (list str)) (filename : str) (w : world) :
  save_csv rows filename w
  = Returned tt
      (World (<[filename := flat_map row_text rows]> (files w)) (http w)
             (stdout w ++ [lit "CSV saved as " ++ filename]))
  /\ (forall row, csv_line row = join [COMMA] (map quoted row))
  /\ csv_field (lit "He said " ++ [DQ] ++ lit "hi" ++ [DQ])
     = [DQ] ++ lit "He said " ++ [DQ; DQ] ++ lit "hi" ++ [DQ; DQ] ++ [DQ]
  /\ (forall cell, csv_unescape (csv_field cell) = Some cell)
  /\ (forall cell row, read_line (csv_line (cell :: row)) = Some (cell :: row)).
Proof.
  split; [apply save_csv_writes|]. split.
  { intros row. unfold csv_line. f_equal. apply map_ext, csv_field_quoted. }
  split; [reflexivity|]. split; [apply csv_unescape_field|].
  intros cell row. apply (read_fields_line [] cell row).
Qed.

(** ** parse_table on a cell that is not closed *)

Section UnclosedCell.

(** With no [</td>] in the row, [cell_end] is [-1] and [cell_pos] goes
    back to [4], where the same [<td] is found again. *)
Lemma cell_body_unclosed fuel cells :
  cell_body (S fuel) unclosed_cell_row (cells, 4)
  = Some (Next (cells ++ [lit "ab"], 4)).
Proof. vm_compute. reflexivity. Qed.

Lemma cell_body_unclosed_first fuel :
  cell_body (S fuel) unclosed_cell_row ([], 0) = Some (Next ([lit "ab"], 4)).
Proof. vm_compute. reflexivity. Qed.

Lemma cell_loop_unclosed fuel n cells :
  while_true (cell_body fuel unclosed_cell_row) n (cells, 4) = None.
Proof.
  apply (while_true_stuck _ (fun st => snd st = 4)); [|reflexivity].
  intros [cs pos] Hpos. simpl in Hpos. subst pos.
  destruct fuel as [|fuel].
  - left. vm_compute. reflexivity.
  - right. eexists. split; [apply cell_body_unclosed | reflexivity].
Qed.

Lemma parse_cells_unclosed fuel : parse_cells fuel unclosed_cell_row = None.
Proof.
  unfold parse_cells. destruct fuel as [|fuel]; [reflexivity|].
  cbn [while_true]. rewrite cell_body_unclosed_first.
  now rewrite cell_loop_unclosed.
Qed.

Lemma row_body_unclosed fuel :
  row_body fuel unclosed_cell_table ([], 0) = None.
Proof.
  unfold row_body.
  replace (find unclosed_cell_table (lit "<tr") 0) with 7
    by (vm_compute; reflexivity).
  replace (find unclosed_cell_table (lit "</tr>") 7) with 18
    by (vm_compute; reflexivity).
  replace (slice unclosed_cell_table 7 18) with unclosed_cell_row
    by (vm_compute; reflexivity).
  cbv beta iota zeta. change (7 =? -1) with false. change (18 =? -1) with false.
  cbv iota. now rewrite parse_cells_unclosed.
Qed.

End UnclosedCell.

(** C9.  The row and cell parser does not return on the table
    [<table><tr><td>abc</tr></table>], whose cell is not closed: no amount
    of fuel is enough.  The inner loop finds the same [<td] for ever and
    adds the cell [ab] to [cells] at each pass. *)
Theorem parse_table_unclosed_cell_diverges (fuel : nat) :
  parse_table fuel unclosed_cell_table = None
  /\ (forall n cells,
        while_true (cell_body fuel unclosed_cell_row) n (cells, 4) = None)
  /\ (forall cells,
        cell_body (S fuel) unclosed_cell_row (cells, 4)
        = Some (Next (cells ++ [lit "ab"], 4))).
Proof.
  split; [|split].
  - unfold parse_table. destruct fuel as [|fuel]; [reflexivity|].
    cbn [while_true]. now rewrite row_body_unclosed.
  - intros n cells. apply cell_loop_unclosed.
  - intros cells. apply cell_body_unclosed.
Qed.

(** ** Markers that start with a less-than sign *)

Section Markers.
Implicit Types (q u A P s sub : str).

Lemma startswith_tail_no_lt q A u :
  LT ∉ q -> startswith q (A ++ LT :: u) = startswith q A.
Proof.
  revert A. induction q as [|y q IH]; intros A Hq; [now destruct A|].
  apply not_elem_of_cons in Hq as [Hy Hq].
  destruct A as [|z A]; cbn [app startswith].
  - destruct (N.eqb_spec y LT); [congruence | easy].
  - now rewrite IH.
Qed.

Lemma startswith_no_straddle q x A u :
  LT ∉ q ->
  startswith (LT :: q) (x :: (A ++ LT :: u)) = startswith (LT :: q) (x :: A).
Proof. intros Hq. cbn [startswith]. now rewrite startswith_tail_no_lt. Qed.

(** What follows an unclosed opener adds no occurrence of a marker it does
    not hold. *)
Lemma index_of_app_unclosed q A u :
  LT ∉ q -> index_of (LT :: q) (LT :: u) = None ->
  index_of (LT :: q) (A ++ LT :: u) = index_of (LT :: q) A.
Proof.
  intros Hq Hu. induction A as [|x A IH].
  { change ([] ++ LT :: u) with (LT :: u). now rewrite Hu. }
  cbn [app index_of]. rewrite startswith_no_straddle by assumption.
  now rewrite IH.
Qed.

(** An opener put after a text is its first occurrence when the text has
    none. *)
Lemma index_of_app_opener q A u :
  LT ∉ q -> startswith (LT :: q) (LT :: u) = true ->
  index_of (LT :: q) (A ++ LT :: u)
  = Some (default (length A) (index_of (LT :: q) A)).
Proof.
  intros Hq Hu. induction A as [|x A IH].
  - cbn [app index_of]. now rewrite Hu.
  - cbn [app index_of]. rewrite startswith_no_straddle by assumption.
    destruct (startswith (LT :: q) (x :: A)); [reflexivity|].
    rewrite IH. now destruct (index_of (LT :: q) A).
Qed.

Lemma find_bounds s sub pos :
  0 <= pos -> find s sub pos <> -1 ->
  pos <= find s sub pos /\ find s sub pos + len sub <= len s.
Proof.
  intros Hpos. destruct (Z.le_gt_cases pos (len s)) as [Hle|Hgt].
  - rewrite find_found by lia.
    destruct (index_of sub _) as [k|] eqn:E; [|easy]. intros _. simpl.
    apply index_of_bound in E. rewrite length_drop in E.
    unfold len in *. lia.
  - now rewrite find_past_end by lia.
Qed.

Lemma find_app_unclosed q P u pos :
  LT ∉ q -> index_of (LT :: q) (LT :: u) = None -> 0 <= pos <= len P ->
  find (P ++ LT :: u) (LT :: q) pos = find P (LT :: q) pos.
Proof.
  intros Hq Hu Hpos. pose proof (len_nonneg (LT :: u)).
  rewrite !find_found by (rewrite ?len_app; lia).
  rewrite drop_app_le by (unfold len in *; lia).
  now rewrite index_of_app_unclosed.
Qed.

Lemma find_app_opener q P u pos :
  LT ∉ q -> startswith (LT :: q) (LT :: u) = true -> 0 <= pos <= len P ->
  find (P ++ LT :: u) (LT :: q) pos
  = if find P (LT :: q) pos =? -1 then len P else find P (LT :: q) pos.
Proof.
  intros Hq Hu Hpos. pose proof (len_nonneg (LT :: u)).
  rewrite !find_found by (rewrite ?len_app; lia).
  rewrite drop_app_le by (unfold len in *; lia).
  rewrite index_of_app_opener by assumption.
  destruct (index_of (LT :: q) (drop (Z.to_nat pos) P)) as [k|]; simpl.
  - destruct (Z.eqb_spec (pos + Z.of_nat k) (-1)); [lia | reflexivity].
  - rewrite length_drop. unfold len in *. lia.
Qed.

End Markers.

Section LoopsAgree.
Context {S : Type} (body1 body2 : S -> option (ctl S)) (I : S -> Prop).

(** Two loops whose bodies agree on the states of an invariant run
    alike. *)
Lemma while_true_agree :
  (forall s, I s -> body1 s = body2 s) ->
  (forall s s', I s -> body2 s = Some (Next s') -> I s') ->
  forall n s, I s -> while_true body1 n s = while_true body2 n s.
Proof.
  intros Hsame Hinv. induction n as [|n IH]; intros s Hs; [reflexivity|].
  cbn [while_true]. rewrite (Hsame s Hs).
  destruct (body2 s) as [[s'|s']|] eqn:E; try reflexivity.
  apply IH. eapply Hinv; eassumption.
Qed.

End LoopsAgree.

(** ** parse_table on a row that is not closed *)

Section UnclosedRow.
Variables (fuel : nat) (P rest : str).
Hypothesis Hno : find (lit "<tr" ++ rest) (lit "</tr>") 0 = -1.

Let T : str := P ++ lit "<tr" ++ rest.

Lemma unclosed_row_no_closer :
  index_of (LT :: lit "/tr>") (LT :: (lit "tr" ++ rest)) = None.
Proof.
  rewrite find_at_0 in Hno.
  change (lit "<tr" ++ rest) with (LT :: (lit "tr" ++ rest)) in Hno.
  change (lit "</tr>") with (LT :: lit "/tr>") in Hno.
  destruct (index_of _ _); [simpl in Hno; lia | reflexivity].
Qed.

Lemma find_at_end s q : find s (LT :: q) (len s) = -1.
Proof.
  rewrite find_found by (pose proof (len_nonneg s); lia).
  unfold len. rewrite Nat2Z.id, drop_all. reflexivity.
Qed.

Lemma row_body_unclosed_row rows pos :
  0 <= pos <= len P ->
  row_body fuel T (rows, pos) = row_body fuel P (rows, pos).
Proof.
  intros Hpos. pose proof unclosed_row_no_closer as Hu.
  unfold row_body, T.
  change (lit "<tr" ++ rest) with (LT :: (lit "tr" ++ rest)).
  change (lit "<tr") with (LT :: lit "tr").
  change (lit "</tr>") with (LT :: lit "/tr>").
  cbv zeta.
  rewrite find_app_opener by (try assumption; compute_done).
  pose proof (find_bounds P (LT :: lit "tr") pos (proj1 Hpos)) as Hrs.
  destruct (Z.eqb_spec (find P (LT :: lit "tr") pos) (-1)) as [Ers|Ers].
  - pose proof (len_nonneg P).
    destruct (Z.eqb_spec (len P) (-1)); [lia|].
    rewrite find_app_unclosed by (try assumption; try lia; compute_done).
    rewrite find_at_end. reflexivity.
  - specialize (Hrs Ers). change (len (LT :: lit "tr")) with 3 in Hrs.
    cbv iota. rewrite (proj2 (Z.eqb_neq _ _) Ers).
    rewrite find_app_unclosed by (try assumption; try lia; compute_done).
    pose proof (find_bounds P (LT :: lit "/tr>")
                  (find P (LT :: lit "tr") pos)) as Hre.
    destruct (Z.eqb_spec
                (find P (LT :: lit "/tr>") (find P (LT :: lit "tr") pos)) (-1))
      as [Ere|Ere]; [reflexivity|].
    specialize (Hre ltac:(lia) Ere). change (len (LT :: lit "/tr>")) with 5 in Hre.
    rewrite slice_app_l by lia. reflexivity.
Qed.

Lemma row_body_advances rows pos st :
  0 <= pos <= len P ->
  row_body fuel P (rows, pos) = Some (Next st) -> 0 <= snd st <= len P.
Proof.
  intros Hpos. unfold row_body. cbv zeta.
  pose proof (find_bounds P (lit "<tr") pos (proj1 Hpos)) as Hrs.
  destruct (Z.eqb_spec (find P (lit "<tr") pos) (-1)) as [Ers|Ers]; [easy|].
  specialize (Hrs Ers).
  pose proof (find_bounds P (lit "</tr>") (find P (lit "<tr") pos)) as Hre.
  destruct (Z.eqb_spec (find P (lit "</tr>") (find P (lit "<tr") pos)) (-1))
    as [Ere|Ere]; [easy|].
  specialize (Hre ltac:(lia) Ere). change (len (lit "</tr>")) with 5 in Hre.
  destruct (parse_cells fuel _); [|easy].
  simpl. intros [= <-]. simpl. lia.
Qed.

Lemma row_loop_unclosed_row n rows pos :
  0 <= pos <= len P ->
  while_true (row_body fuel T) n (rows, pos)
  = while_true (row_body fuel P) n (rows, pos).
Proof.
  intros Hpos.
  apply (while_true_agree _ _ (fun st => 0 <= snd st <= len P)).
  - intros [rs p] Hp. now apply row_body_unclosed_row.
  - intros [rs p] st Hp. now apply row_body_advances.
  - exact Hpos.
Qed.

Lemma parse_table_unclosed_row_eq : parse_table fuel T = parse_table fuel P.
Proof.
  unfold parse_table. rewrite row_loop_unclosed_row; [reflexivity|].
  pose proof (len_nonneg P). lia.
Qed.

End UnclosedRow.

(** A table with a row, then a [<tr] that is not closed. *)
Example parse_table_unclosed_row_rows :
  parse_table 40
    (lit "<table><tr><td>a</td></tr>" ++ lit "<tr" ++ lit "><td>b</td></table>")
  = Some [[lit "a"]].
Proof. vm_compute. reflexivity. Qed.

(** ** extract_tables *)

Section Extracting.
Implicit Types (html done rest gap body : str) (tables frags : list str).

Lemma found_some_ne base k : 0 <= base -> found base (Some k) <> -1.
Proof. simpl. lia. Qed.

Lemma extract_loop n done rest tables :
  (length rest < n)%nat ->
  exists frags pos,
    while_true (extract_body (done ++ rest)) n (tables, len done)
    = Some (tables ++ frags, pos)
    /\ extraction rest frags.
Proof.
  revert done rest tables.
  induction n as [|n IH]; intros done rest tables Hn; [lia|].
  cbn [while_true]. unfold extract_body. cbv zeta.
  rewrite find_app_at. pose proof (len_nonneg done) as Hdone.
  destruct (index_of (lit "<table") rest) as [k|] eqn:Ek.
  2:{ exists [], (len done). simpl. rewrite app_nil_r. split; [reflexivity|].
      now apply extraction_no_opener, index_of_absent. }
  destruct (Z.eqb_spec (found (len done) (Some k)) (-1)) as [E|_];
    [now apply found_some_ne in E|].
  pose proof (index_of_bound _ _ _ Ek) as Hk.
  pose proof (index_of_first _ _ _ Ek) as Hfirst.
  set (gap := take k rest). set (r1 := drop k rest).
  assert (Hrest : rest = gap ++ r1) by (symmetry; apply take_drop).
  assert (Hgap : length gap = k) by (subst gap; rewrite length_take; lia).
  assert (Hstart : found (len done) (Some k) = len (done ++ gap)).
  { simpl. rewrite len_app. unfold len. lia. }
  rewrite Hstart.
  replace (done ++ rest) with ((done ++ gap) ++ r1)
    by (rewrite Hrest, <- app_assoc; reflexivity).
  rewrite find_app_at. pose proof (len_nonneg (done ++ gap)) as Hdg.
  destruct (index_of (lit "</table>") r1) as [m|] eqn:Em.
  2:{ exists [], (len done). simpl. rewrite app_nil_r. split; [reflexivity|].
      rewrite Hrest. apply extraction_unclosed.
      - rewrite <- Hrest, Hgap. exact Hfirst.
      - now apply index_of_absent. }
  destruct (Z.eqb_spec (found (len (done ++ gap)) (Some m)) (-1)) as [E|_];
    [now apply found_some_ne in E|].
  pose proof (index_of_bound _ _ _ Em) as Hm.
  pose proof (index_of_first _ _ _ Em) as Hfirst'.
  pose proof (index_of_split _ _ _ Em) as Hsplit.
  set (body := take m r1) in *.
  set (rest' := drop (m + length (lit "</table>")) r1) in *.
  assert (Hbody : length body = m) by (subst body; rewrite length_take; lia).
  set (frag := body ++ lit "</table>").
  assert (Hr1 : r1 = frag ++ rest').
  { subst frag. rewrite <- app_assoc. exact Hsplit. }
  assert (Hend : found (len (done ++ gap)) (Some m) + 8
                 = len (done ++ gap) + len frag).
  { simpl. subst frag. rewrite (len_app body). unfold len at 3 4.
    rewrite Hbody. change (Z.of_nat (length (lit "</table>"))) with 8. lia. }
  rewrite Hend, Hr1, slice_app_mid.
  replace (len (done ++ gap) + len frag) with (len ((done ++ gap) ++ frag))
    by apply len_app.
  replace ((done ++ gap) ++ frag ++ rest')
    with (((done ++ gap) ++ frag) ++ rest') by (now rewrite <- !app_assoc).
  destruct (IH ((done ++ gap) ++ frag) rest' (tables ++ [frag]))
    as (frags & pos & Hloop & Hext).
  { rewrite Hrest, Hr1, !length_app in Hn. subst frag.
    rewrite length_app in Hn. simpl in Hn. lia. }
  exists (frag :: frags), pos. split.
  - transitivity (Some ((tables ++ [frag]) ++ frags, pos)); [exact Hloop|].
    now rewrite <- app_assoc.
  - rewrite Hrest, Hr1. subst frag. rewrite <- app_assoc.
    apply extraction_emit.
    + rewrite Hgap. rewrite Hrest, Hsplit in Hfirst. exact Hfirst.
    + rewrite Hbody. rewrite Hsplit in Hfirst'. exact Hfirst'.
    + exact Hext.
Qed.

End Extracting.

(** C5.  On every document the table extractor returns, and what it
    returns are the fragments of the document in the order of the text:
    each one runs from the next [<table] at or after the scan position to
    the end of the first [</table>] after it, so that a nested table is
    cut at the first closing tag; the scan goes on behind the fragment,
    and it stops, keeping what it has, when either marker is missing, so
    that a last table with no closing tag is dropped.  [length html + 1]
    passes are enough. *)
Theorem extract_tables_fragments (fuel : nat) (html : str) :
  (length html < fuel)%nat ->
  exists frags,
    extract_tables fuel html = Some frags
    /\ extraction html frags
    /\ (html = lit "<table><table></table></table>" ->
        frags = [lit "<table><table></table>"])
    /\ (html = lit "<table></table><table>" -> frags = [lit "<table></table>"]).
Proof.
  intros Hfuel.
  destruct (extract_loop fuel [] html [] Hfuel) as (frags & pos & Hloop & Hext).
  change ([] ++ html) with html in Hloop. change (len []) with 0 in Hloop.
  exists frags. unfold extract_tables. rewrite Hloop. simpl.
  split; [reflexivity|]. split; [exact Hext|].
  split; intros ->.
  - assert (E : extract_tables fuel (lit "<table><table></table></table>")
                = Some [lit "<table><table></table>"]).
    { do 31 (destruct fuel as [|fuel]; [vm_compute in Hfuel; lia|]).
      reflexivity. }
    unfold extract_tables in E. rewrite Hloop in E. simpl in E. congruence.
  - assert (E : extract_tables fuel (lit "<table></table><table>")
                = Some [lit "<table></table>"]).
    { do 23 (destruct fuel as [|fuel]; [vm_compute in Hfuel; lia|]).
      reflexivity. }
    unfold extract_tables in E. rewrite Hloop in E. simpl in E. congruence.
Qed.

Lemma extract_tables_fragments_witness :
  exists frags,
    extract_tables 40 (lit "<table><table></table></table>") = Some frags
    /\ extraction (lit "<table><table></table></table>") frags
    /\ (lit "<table><table></table></table>"
        = lit "<table><table></table></table>" ->
        frags = [lit "<table><table></table>"])
    /\ (lit "<table><table></table></table>" = lit "<table></table><table>" ->
        frags = [lit "<table></table>"]).
Proof.
  apply (extract_tables_fragments 40 (lit "<table><table></table></table>")).
  vm_compute. lia.
Defined.

(** ** main: the three ways to fail *)

Section Failing.
Implicit Types (w : world) (source html prog : str) (argv : list str).

Lemma main_usage fuel argv w :
  length argv <> 2%nat -> main fuel argv w = Exited 1 (printed w [usage]).
Proof.
  intros H. destruct argv as [|a [|b [|c l]]]; try reflexivity.
  now contradiction H.
Qed.

Lemma fetch_html_file source html w :
  is_url source = false -> files w !! source = Some html ->
  fetch_html source w = Returned html w.
Proof.
  intros Hurl Hfile. unfold fetch_html. fold (is_url source). rewrite Hurl.
  unfold proc_bind, path_exists, read_text.
  rewrite bool_decide_eq_true_2 by (rewrite Hfile; eauto).
  now rewrite Hfile.
Qed.

Lemma fetch_html_missing source w :
  is_url source = false -> files w !! source = None ->
  fetch_html source w
  = Exited 1 (printed w [lit "Error: source not found."]).
Proof.
  intros Hurl Hfile. unfold fetch_html. fold (is_url source). rewrite Hurl.
  unfold proc_bind, path_exists.
  rewrite bool_decide_eq_false_2
    by (rewrite Hfile; intros [x Hx]; discriminate).
  reflexivity.
Qed.

Lemma fetch_html_url source html w :
  is_url source = true -> http w source = Some html ->
  fetch_html source w
  = Returned html
      (World (<[lit "page.html" := html]> (files w)) (http w)
             (stdout w ++ [lit "HTML saved as page.html"])).
Proof.
  intros Hurl Hget. unfold fetch_html. fold (is_url source). rewrite Hurl.
  unfold proc_bind, http_get, open_w, write, print, proc_ret.
  rewrite Hget. cbn [files http stdout].
  rewrite lookup_insert_eq, insert_insert_eq. reflexivity.
Qed.

Lemma main_fetched fuel prog source html w w1 :
  fetch_html source w = Returned html w1 ->
  main fuel [prog; source] w
  = match extract_tables fuel html with
    | None => Diverged
    | Some [] => Exited 1 (printed w1 [lit "No tables found in the HTML."])
    | Some tables => for_each (enumerate 1 tables) (save_table fuel) w1
    end.
Proof.
  intros Hfetch. unfold main. unfold proc_bind at 1. rewrite Hfetch.
  unfold proc_bind at 1. unfold run_pure.
  destruct (extract_tables fuel html) as [[|t ts]|]; reflexivity.
Qed.

Lemma main_failed_fetch fuel prog source c w w1 :
  fetch_html source w = Exited c w1 ->
  main fuel [prog; source] w = Exited c w1.
Proof.
  intros Hfetch. unfold main. unfold proc_bind at 1. now rewrite Hfetch.
Qed.

Lemma absent_index_of sub s : absent sub s -> index_of sub s = None.
Proof.
  intros H. destruct (index_of sub s) as [k|] eqn:E; [|reflexivity].
  apply index_of_first in E as [E _]. now apply H in E.
Qed.

Lemma extract_tables_none fuel html :
  absent (lit "<table") html -> extract_tables (S fuel) html = Some [].
Proof.
  intros H. unfold extract_tables. cbn [while_true]. unfold extract_body.
  rewrite find_at_0, absent_index_of by assumption. reflexivity.
Qed.

End Failing.

(** C7, as the code has it.  The program exits with status 1 after
    printing one message in each of three cases, and the message depends
    on the case: the usage line when the number of arguments is wrong,
    [Error: source not found.] when the source is neither a URL nor the
    path of a file, and [No tables found in the HTML.] when the extractor
    finds no table in the document, in particular when the document holds
    no [<table] at all.  In the last case no file is written but
    [page.html] when the source is a URL. *)
Theorem main_exits_1 (fuel : nat) (w : world) :
  (forall argv, length argv <> 2%nat ->
     main fuel argv w = Exited 1 (printed w [usage]))
  /\ (forall prog source,
        is_url source = false -> files w !! source = None ->
        main fuel [prog; source] w
        = Exited 1 (printed w [lit "Error: source not found."]))
  /\ (forall prog source html,
        is_url source = false -> files w !! source = Some html ->
        extract_tables fuel html = Some [] ->
        main fuel [prog; source] w
        = Exited 1 (printed w [lit "No tables found in the HTML."]))
  /\ (forall prog source html,
        is_url source = true -> http w source = Some html ->
        extract_tables fuel html = Some [] ->
        main fuel [prog; source] w
        = Exited 1
            (World (<[lit "page.html" := html]> (files w)) (http w)
                   (stdout w ++ [lit "HTML saved as page.html";
                                 lit "No tables found in the HTML."])))
  /\ (forall html, absent (lit "<table") html ->
        extract_tables (S fuel) html = Some []).
Proof.
  split; [|split; [|split; [|split]]].
  - intros argv. apply main_usage.
  - intros prog source Hurl Hfile.
    apply main_failed_fetch. now apply fetch_html_missing.
  - intros prog source html Hurl Hfile Hnone.
    rewrite (main_fetched fuel prog source html w w)
      by now apply fetch_html_file.
    now rewrite Hnone.
  - intros prog source html Hurl Hget Hnone.
    rewrite (main_fetched fuel prog source html w _
               (fetch_html_url source html w Hurl Hget)).
    rewrite Hnone. unfold printed. cbn [files http stdout].
    now rewrite <- app_assoc.
  - intros html. apply extract_tables_none.
Qed.

(** The claim as the specification words it asks for the usage message in
    all three cases.  A source that is not found gets another message. *)
Lemma main_source_not_found_prints_no_usage :
  ~ (exists w',
       main 10 [lit "project1.py"; lit "missing.html"]
         (World ∅ (fun _ => None) [])
       = Exited 1 w'
       /\ stdout w' = [usage]).
Proof.
  intros (w' & Hmain & Hout).
  vm_compute in Hmain. injection Hmain as <-.
  vm_compute in Hout. discriminate Hout.
Qed.

Example main_source_not_found :
  main 10 [lit "project1.py"; lit "missing.html"] (World ∅ (fun _ => None) [])
  = Exited 1 (World ∅ (fun _ => None) [lit "Error: source not found."]).
Proof. vm_compute. reflexivity. Qed.

(** ** The names of the output files *)

Section Naming.
Implicit Types (i j k : nat) (fs : gmap (list N) (list N)).

Lemma lit_inj a b : lit a = lit b -> a = b.
Proof.
  unfold lit. intros H. apply (f_equal (map ascii_of_N)) in H.
  rewrite !map_map in H.
  rewrite !(map_ext _ id ascii_N_embedding), !map_id in H.
  apply (f_equal string_of_list_ascii) in H.
  now rewrite !string_of_list_ascii_of_string in H.
Qed.

Lemma str_of_nat_inj i j : str_of_nat i = str_of_nat j -> i = j.
Proof.
  unfold str_of_nat. intros H. apply lit_inj in H.
  apply (f_equal NilEmpty.uint_of_string) in H.
  rewrite !NilEmpty.usu in H. injection H as H.
  apply (f_equal Nat.of_uint) in H.
  now rewrite !DecimalNat.Unsigned.of_to in H.
Qed.

Lemma output_name_inj i j : output_name i = output_name j -> i = j.
Proof.
  unfold output_name. intros H.
  apply app_inv_head, app_inv_tail in H. now apply str_of_nat_inj.
Qed.

Lemma saved_other i grids fs path :
  (forall k, (k < length grids)%nat -> path <> output_name (i + k)) ->
  saved i grids fs !! path = fs !! path.
Proof.
  revert i fs. induction grids as [|g more IH]; intros i fs H; [reflexivity|].
  assert (Hmore : forall k, (k < length more)%nat ->
                    path <> output_name (S i + k)).
  { intros k Hk. replace (S i + k)%nat with (i + S k)%nat by lia.
    apply H. simpl. lia. }
  destruct g as [|r g]; cbn [saved]; rewrite IH by assumption.
  - reflexivity.
  - apply lookup_insert_ne. intros E. apply (H 0%nat); [simpl; lia|].
    now rewrite Nat.add_0_r.
Qed.

Lemma saved_lookup i grids fs k g :
  grids !! k = Some g -> g <> [] ->
  saved i grids fs !! output_name (i + k) = Some (flat_map row_text g).
Proof.
  revert i fs k. induction grids as [|g0 more IH]; intros i fs k; [easy|].
  destruct k as [|k]; simpl lookup.
  - intros [= ->] Hg. rewrite Nat.add_0_r.
    destruct g as [|r g]; [easy|]. cbn [saved].
    rewrite saved_other; [apply lookup_insert_eq|].
    intros k _ E. apply output_name_inj in E. lia.
  - intros Hk Hg. replace (i + S k)%nat with (S i + k)%nat by lia.
    destruct g0 as [|r g0]; cbn [saved]; now apply IH.
Qed.

Lemma saved_lookup_empty i grids fs k :
  grids !! k = Some [] ->
  saved i grids fs !! output_name (i + k) = fs !! output_name (i + k).
Proof.
  revert i fs k. induction grids as [|g0 more IH]; intros i fs k; [easy|].
  destruct k as [|k]; simpl lookup.
  - intros [= ->]. cbn [saved]. apply saved_other.
    intros k _ E. apply output_name_inj in E. lia.
  - intros Hk. replace (i + S k)%nat with (S i + k)%nat by lia.
    destruct g0 as [|r g0]; cbn [saved]; rewrite IH by assumption.
    + reflexivity.
    + apply lookup_insert_ne. intros E. apply output_name_inj in E. lia.
Qed.

Lemma save_loop fuel tables grids i w :
  Forall2 (fun t g => parse_table fuel t = Some g) tables grids ->
  for_each (enumerate i tables) (save_table fuel) w
  = Returned tt
      (World (saved i grids (files w)) (http w)
             (stdout w ++ saved_log i grids)).
Proof.
  intros H. revert i w.
  induction H as [|t g tables grids Ht _ IH]; intros i w.
  - simpl. unfold proc_ret. rewrite app_nil_r. now destruct w.
  - cbn [enumerate for_each]. unfold proc_bind at 1.
    unfold save_table at 1. unfold proc_bind at 1. unfold run_pure.
    rewrite Ht. destruct g as [|r g].
    + unfold proc_ret. cbn [saved saved_log]. apply IH.
    + rewrite save_csv_writes, IH. cbn [files http stdout saved saved_log].
      now rewrite <- app_assoc.
Qed.

End Naming.

(** C6, as the code has it.  The loop of [main] numbers the tables from 1 in the order of the
    document and writes the grid of table number N, when it has a row, to
    [output_N.csv]; a table with no row writes nothing and keeps its
    number, so the numbers of the files may have gaps; no other file is
    touched.  With two tables, the second of which has no row, the only
    file written is [output_1.csv], and [output_2.csv] is left as it
    was, as long as the first table has a row; when it has none no file
    is written at all, as the lemma after the witness shows. *)
Theorem output_files_numbered
    (fuel : nat) (prog source html : str) (w w1 : world)
    (tables : list str) (grids : list (list (list str))) :
  fetch_html source w = Returned html w1 ->
  extract_tables fuel html = Some tables ->
  tables <> [] ->
  Forall2 (fun t g => parse_table fuel t = Some g) tables grids ->
  exists w',
    main fuel [prog; source] w = Returned tt w'
    /\ (forall k g, grids !! k = Some g -> g <> [] ->
          files w' !! output_name (S k) = Some (flat_map row_text g))
    /\ (forall k, grids !! k = Some [] ->
          files w' !! output_name (S k) = files w1 !! output_name (S k))
    /\ (forall path,
          (forall k, (k < length tables)%nat -> path <> output_name (S k)) ->
          files w' !! path = files w1 !! path)
    /\ (forall g1, grids = [g1; []] -> g1 <> [] ->
          files w' = <[lit "output_1.csv" := flat_map row_text g1]> (files w1)
          /\ files w' !! lit "output_2.csv" = files w1 !! lit "output_2.csv")
    /\ output_name 1 = lit "output_1.csv"
    /\ output_name 2 = lit "output_2.csv".
Proof.
  intros Hfetch Hext Hne Hparse.
  rewrite (main_fetched fuel prog source html w w1 Hfetch), Hext.
  destruct tables as [|t ts]; [contradiction|].
  rewrite (save_loop fuel (t :: ts) grids 1 w1 Hparse).
  eexists. split; [reflexivity|]. cbn [files].
  split; [|split; [|split; [|split; [|split]]]].
  - intros k g Hk Hg. now apply (saved_lookup 1).
  - intros k Hk. now apply (saved_lookup_empty 1).
  - intros path Hpath. apply saved_other. intros k Hk. apply Hpath.
    now rewrite (Forall2_length _ _ _ Hparse).
  - intros g1 -> Hg1. destruct g1 as [|r g1]; [contradiction|].
    split; [reflexivity|]. cbn [saved].
    apply lookup_insert_ne. intros E. vm_compute in E. discriminate E.
  - reflexivity.
  - reflexivity.
Qed.

Lemma output_files_numbered_witness :
  exists w',
    main 60 [lit "project1.py"; lit "in.html"] two_tables_world
    = Returned tt w'
    /\ (forall k g, [[[lit "a"]]; []] !! k = Some g -> g <> [] ->
          files w' !! output_name (S k) = Some (flat_map row_text g))
    /\ (forall k, [[[lit "a"]]; []] !! k = Some [] ->
          files w' !! output_name (S k)
          = files two_tables_world !! output_name (S k))
    /\ (forall path,
          (forall k,
             (k < length [lit "<table><tr><td>a</td></tr></table>";
                         lit "<table></table>"])%nat ->
             path <> output_name (S k)) ->
          files w' !! path = files two_tables_world !! path)
    /\ (forall g1, [[[lit "a"]]; []] = [g1; []] -> g1 <> [] ->
          files w'
          = <[lit "output_1.csv" := flat_map row_text g1]>
              (files two_tables_world)
          /\ files w' !! lit "output_2.csv"
             = files two_tables_world !! lit "output_2.csv")
    /\ output_name 1 = lit "output_1.csv"
    /\ output_name 2 = lit "output_2.csv".
Proof.
  apply (output_files_numbered 60 (lit "project1.py") (lit "in.html")
           two_tables_doc two_tables_world two_tables_world
           [lit "<table><tr><td>a</td></tr></table>"; lit "<table></table>"]
           [[[lit "a"]]; []]).
  - vm_compute. reflexivity.
  - vm_compute. reflexivity.
  - discriminate.
  - repeat constructor; vm_compute; reflexivity.
Defined.

(** The claim as the specification words it promises [output_1.csv] for
    every input with two tables the second of which has no row.  In the
    document [<table></table><table></table>] the second table has no
    [<tr], and the run on it writes no [output_1.csv]: the first table has
    no row either, and the guard of [main] skips it as well. *)
Lemma two_tables_without_rows_write_no_file :
  extract_tables 60 rowless_tables_doc
  = Some [lit "<table></table>"; lit "<table></table>"]
  /\ count_sub (lit "<tr") (lit "<table></table>") = 0%nat
  /\ ~ (exists w' content,
          main 60 [lit "project1.py"; lit "in.html"] rowless_tables_world
          = Returned tt w'
          /\ files w' !! lit "output_1.csv" = Some content).
Proof.
  split; [vm_compute; reflexivity|]. split; [reflexivity|].
  intros (w' & content & Hmain & Hfile).
  assert (E : main 60 [lit "project1.py"; lit "in.html"] rowless_tables_world
              = Returned tt rowless_tables_world) by (vm_compute; reflexivity).
  rewrite E in Hmain. injection Hmain as <-.
  vm_compute in Hfile. discriminate Hfile.
Qed.

(** ** Markers in a text of tokens *)

Section Tokens.
Implicit Types (q s X R : str) (t : token) (ts : list token).

Lemma render_app ts1 ts2 : render (ts1 ++ ts2) = render ts1 ++ render ts2.
Proof. apply flat_map_app. Qed.

Lemma render_cons t ts : render (t :: ts) = render_token t ++ render ts.
Proof. reflexivity. Qed.

Lemma no_char_spec c s : no_char c s = true <-> c ∉ s.
Proof.
  unfold no_char. induction s as [|x s IH]; simpl.
  - split; [intros _; apply not_elem_of_nil | easy].
  - rewrite andb_true_iff, IH, not_elem_of_cons, negb_true_iff, N.eqb_neq.
    intuition congruence.
Qed.

Lemma index_of_skip_plain q X R :
  LT ∉ X ->
  index_of (LT :: q) (X ++ R) = Nat.add (length X) <$> index_of (LT :: q) R.
Proof.
  induction X as [|x X IH]; intros HX.
  - simpl app. now destruct (index_of (LT :: q) R).
  - apply not_elem_of_cons in HX as [Hx HX].
    cbn [app index_of startswith].
    destruct (N.eqb_spec LT x); [congruence|]. cbn [andb].
    rewrite IH by assumption. now destruct (index_of (LT :: q) R).
Qed.

Lemma index_of_skip_token q t R :
  skips q t ->
  index_of (LT :: q) (render_token t ++ R)
  = Nat.add (length (render_token t)) <$> index_of (LT :: q) R.
Proof.
  destruct t as [s|s]; simpl skips.
  - apply index_of_skip_plain.
  - intros [Hs Hq]. cbn [render_token app index_of startswith].
    rewrite N.eqb_refl. cbn [andb].
    rewrite <- app_assoc. cbn [app]. rewrite Hq.
    replace (s ++ GT :: R) with ((s ++ [GT]) ++ R)
      by (now rewrite <- app_assoc).
    rewrite index_of_skip_plain.
    + rewrite !length_app. cbn [length].
      destruct (index_of (LT :: q) R); simpl;
        [f_equal; rewrite ?length_app; simpl; lia | reflexivity].
    + rewrite not_elem_of_app, not_elem_of_cons. split; [assumption|].
      split; [discriminate | apply not_elem_of_nil].
Qed.

Lemma index_of_skip_tokens q ts R :
  Forall (skips q) ts ->
  index_of (LT :: q) (render ts ++ R)
  = Nat.add (length (render ts)) <$> index_of (LT :: q) R.
Proof.
  induction 1 as [|t ts Ht _ IH].
  - simpl. now destruct (index_of (LT :: q) R).
  - rewrite render_cons, <- app_assoc, index_of_skip_token by assumption.
    rewrite IH, length_app.
    destruct (index_of (LT :: q) R); simpl; [f_equal; lia | reflexivity].
Qed.

Lemma index_of_skip_all q ts :
  Forall (skips q) ts -> index_of (LT :: q) (render ts) = None.
Proof.
  intros H. rewrite <- (app_nil_r (render ts)).
  now rewrite index_of_skip_tokens.
Qed.

Lemma index_of_here sub s : startswith sub s = true -> index_of sub s = Some 0%nat.
Proof. destruct s; cbn [index_of]; now intros ->. Qed.

(** A tag that opens with [q] is an occurrence of [LT :: q]. *)
Lemma index_of_hit q a R :
  index_of (LT :: q) (render_token (Tag (q ++ a)) ++ R) = Some 0%nat.
Proof.
  apply index_of_here. cbn [render_token]. rewrite <- !app_assoc.
  apply (startswith_app (LT :: q)).
Qed.

Lemma startswith_tail_no_gt q s R :
  GT ∉ q -> startswith q (s ++ GT :: R) = startswith q s.
Proof.
  revert s. induction q as [|y q IH]; intros s Hq; [now destruct s|].
  apply not_elem_of_cons in Hq as [Hy Hq].
  destruct s as [|z s]; cbn [app startswith].
  - destruct (N.eqb_spec y GT); [congruence | easy].
  - now rewrite IH.
Qed.

Lemma startswith_closer q s R :
  GT ∉ q -> GT ∉ s -> startswith (q ++ [GT]) (s ++ GT :: R) = true -> s = q.
Proof.
  revert s. induction q as [|y q IH]; intros s Hq Hs.
  - destruct s as [|z s]; [easy|].
    apply not_elem_of_cons in Hs as [Hz _].
    cbn [app startswith]. destruct (N.eqb_spec GT z); [congruence | easy].
  - apply not_elem_of_cons in Hq as [Hy Hq].
    destruct s as [|z s]; cbn [app startswith].
    + destruct (N.eqb_spec y GT); [congruence | easy].
    + apply not_elem_of_cons in Hs as [_ Hs].
      rewrite andb_true_iff, N.eqb_eq. intros [-> H].
      f_equal. now apply IH.
Qed.

Lemma token_ok_skips_opener allowed q t :
  GT ∉ q -> (forall s, allowed s = true -> startswith q s = false) ->
  token_ok allowed t = true -> skips q t.
Proof.
  intros Hq Hallowed. destruct t as [s|s]; simpl.
  - apply no_char_spec.
  - rewrite !andb_true_iff, !no_char_spec. intros [[Hlt Hgt] Hok].
    split; [assumption|]. intros R.
    rewrite startswith_tail_no_gt by assumption. now apply Hallowed.
Qed.

Lemma token_ok_skips_closer allowed q t :
  GT ∉ q -> (forall s, allowed s = true -> s <> q) ->
  token_ok allowed t = true -> skips (q ++ [GT]) t.
Proof.
  intros Hq Hallowed. destruct t as [s|s]; simpl.
  - apply no_char_spec.
  - rewrite !andb_true_iff, !no_char_spec. intros [[Hlt Hgt] Hok].
    split; [assumption|]. intros R.
    destruct (startswith (q ++ [GT]) (s ++ GT :: R)) eqn:E; [|reflexivity].
    apply startswith_closer in E; [|assumption..]. now apply Hallowed in E.
Qed.

End Tokens.

(** ** What well-formedness gives *)

Section WellFormed.
Implicit Types (q s a : str) (t : token) (ts : list token)
  (c : cell_el) (r : row_el).

Lemma outside_tag_spec s :
  outside_tag s = true ->
  startswith (lit "table") s = false /\ startswith (lit "tr") s = false.
Proof.
  unfold outside_tag. rewrite andb_true_iff, !negb_true_iff. tauto.
Qed.

Lemma section_tag_spec s :
  section_tag s = true -> outside_tag s = true /\ s <> lit "/table".
Proof.
  unfold section_tag. rewrite andb_true_iff, negb_true_iff.
  intros [H1 H2]. split; [assumption|]. now apply bool_decide_eq_false in H2.
Qed.

Lemma inline_tag_spec s :
  inline_tag s = true ->
  section_tag s = true
  /\ startswith (lit "td") s = false /\ startswith (lit "th") s = false
  /\ s <> lit "/tr" /\ s <> lit "/td" /\ s <> lit "/th".
Proof.
  unfold inline_tag. rewrite !andb_true_iff, !negb_true_iff.
  intros [[[[[H1 H2] H3] H4] H5] H6].
  apply bool_decide_eq_false in H4, H5, H6. tauto.
Qed.

Lemma tokens_skip_opener allowed q ts :
  GT ∉ q -> (forall s, allowed s = true -> startswith q s = false) ->
  forallb (token_ok allowed) ts = true -> Forall (skips q) ts.
Proof.
  intros Hq Hallowed H. apply Forall_forall. intros t Ht.
  apply (token_ok_skips_opener allowed); try assumption.
  rewrite forallb_forall in H. apply H. now apply list_elem_of_In.
Qed.

Lemma tokens_skip_closer allowed q ts :
  GT ∉ q -> (forall s, allowed s = true -> s <> q) ->
  forallb (token_ok allowed) ts = true -> Forall (skips (q ++ [GT])) ts.
Proof.
  intros Hq Hallowed H. apply Forall_forall. intros t Ht.
  apply (token_ok_skips_closer allowed); try assumption.
  rewrite forallb_forall in H. apply H. now apply list_elem_of_In.
Qed.

Lemma attrs_ok_spec a : attrs_ok a = true -> (LT ∉ a) /\ (GT ∉ a).
Proof.
  unfold attrs_ok. now rewrite andb_true_iff, !no_char_spec.
Qed.

(** The tags of the table itself. *)
Lemma structural_tag_skips q name a :
  attrs_ok a = true -> LT ∉ name ->
  (forall R, startswith q ((name ++ a) ++ GT :: R) = false) ->
  skips q (Tag (name ++ a)).
Proof.
  intros Ha Hname Hq. apply attrs_ok_spec in Ha as [Ha _].
  split; [|exact Hq]. now rewrite not_elem_of_app.
Qed.

Lemma cell_name_cases c : cell_name c = lit "td" \/ cell_name c = lit "th".
Proof. unfold cell_name. destruct (cell_header c); auto. Qed.

(** Outside the table nothing starts with [<table]; between the rows
    nothing starts with [<tr]; inside a row nothing starts with [<td] or
    [<th] but the cells. *)
Lemma outside_skip_table ts :
  forallb (token_ok outside_tag) ts = true -> Forall (skips (lit "table")) ts.
Proof.
  apply tokens_skip_opener; [compute_done|].
  intros s Hs. now apply outside_tag_spec in Hs.
Qed.

Lemma section_skip_tr ts :
  forallb (token_ok section_tag) ts = true -> Forall (skips (lit "tr")) ts.
Proof.
  apply tokens_skip_opener; [compute_done|].
  intros s Hs. apply section_tag_spec in Hs as [Hs _].
  now apply outside_tag_spec in Hs.
Qed.

Lemma inline_skip_cell name ts :
  name = lit "td" \/ name = lit "th" ->
  forallb (token_ok inline_tag) ts = true -> Forall (skips name) ts.
Proof.
  intros Hname. apply tokens_skip_opener.
  - destruct Hname as [-> | ->]; compute_done.
  - intros s Hs. apply inline_tag_spec in Hs.
    destruct Hname as [-> | ->]; tauto.
Qed.

(** No closing tag of the table's own hides in inline tokens. *)
Lemma inline_skip_closer q ts :
  q = lit "/table" \/ q = lit "/tr" \/ q = lit "/td" \/ q = lit "/th" ->
  forallb (token_ok inline_tag) ts = true -> Forall (skips (q ++ [GT])) ts.
Proof.
  intros Hq. apply tokens_skip_closer.
  - destruct Hq as [-> | [-> | [-> | ->]]]; compute_done.
  - intros s Hs. apply inline_tag_spec in Hs as (Hs & _ & _ & H1 & H2 & H3).
    apply section_tag_spec in Hs as [_ H0].
    destruct Hq as [-> | [-> | [-> | ->]]]; assumption.
Qed.

Lemma section_skip_table_closer ts :
  forallb (token_ok section_tag) ts = true ->
  Forall (skips (lit "/table" ++ [GT])) ts.
Proof.
  apply tokens_skip_closer; [compute_done|].
  intros s Hs. now apply section_tag_spec in Hs.
Qed.

Lemma cell_tokens_skip q c :
  q = lit "/table" \/ q = lit "/tr" ->
  wf_cell c = true -> Forall (skips (q ++ [GT])) (cell_tokens c).
Proof.
  intros Hq. unfold wf_cell. rewrite andb_true_iff. intros [Ha Hcontent].
  unfold cell_tokens. apply Forall_cons. split; [|apply Forall_app; split].
  - apply structural_tag_skips; [assumption | |].
    + destruct (cell_name_cases c) as [-> | ->]; compute_done.
    + intros R. destruct (cell_name_cases c) as [-> | ->];
        destruct Hq as [-> | ->]; reflexivity.
  - apply inline_skip_closer; [tauto | assumption].
  - apply Forall_cons. split; [|constructor].
    split.
    + destruct (cell_name_cases c) as [-> | ->]; compute_done.
    + intros R. destruct (cell_name_cases c) as [-> | ->];
        destruct Hq as [-> | ->]; reflexivity.
Qed.

Lemma cells_tokens_skip q cells :
  q = lit "/table" \/ q = lit "/tr" ->
  forallb (fun gc => forallb (token_ok inline_tag) (fst gc)
                     && wf_cell (snd gc)) cells = true ->
  Forall (skips (q ++ [GT])) (cells_tokens cells).
Proof.
  intros Hq. induction cells as [|[gap c] cells IH]; [constructor|].
  cbn [forallb fst snd]. rewrite !andb_true_iff. intros [[Hgap Hc] Hcells].
  unfold cells_tokens. cbn [flat_map fst snd].
  rewrite !Forall_app. repeat split.
  - apply inline_skip_closer; [tauto | assumption].
  - now apply cell_tokens_skip.
  - now apply IH.
Qed.

Lemma row_open_tokens_skip q r :
  q = lit "/table" \/ q = lit "/tr" ->
  wf_row r = true -> Forall (skips (q ++ [GT])) (row_open_tokens r).
Proof.
  intros Hq. unfold wf_row. rewrite !andb_true_iff.
  intros [[Ha Hcells] Htail]. unfold row_open_tokens.
  apply Forall_cons. split; [|apply Forall_app; split].
  - apply structural_tag_skips; [assumption | compute_done |].
    intros R. destruct Hq as [-> | ->]; reflexivity.
  - now apply cells_tokens_skip.
  - apply inline_skip_closer; [tauto | assumption].
Qed.

Lemma rows_tokens_skip rows :
  forallb (fun gr => forallb (token_ok section_tag) (fst gr)
                     && wf_row (snd gr)) rows = true ->
  Forall (skips (lit "/table" ++ [GT])) (rows_tokens rows).
Proof.
  induction rows as [|[gap r] rows IH]; [constructor|].
  cbn [forallb fst snd]. rewrite !andb_true_iff. intros [[Hgap Hr] Hrows].
  unfold rows_tokens, row_tokens. cbn [flat_map fst snd].
  rewrite !Forall_app. repeat split.
  - now apply section_skip_table_closer.
  - apply row_open_tokens_skip; [tauto | assumption].
  - apply Forall_cons. split; [|constructor].
    split; [compute_done | intros R; reflexivity].
  - now apply IH.
Qed.

Lemma table_open_tokens_skip tbl :
  wf_table tbl = true ->
  Forall (skips (lit "/table" ++ [GT])) (table_open_tokens tbl).
Proof.
  unfold wf_table. rewrite !andb_true_iff. intros [[Ha Hrows] Htail].
  unfold table_open_tokens.
  apply Forall_cons. split; [|apply Forall_app; split].
  - apply structural_tag_skips; [assumption | compute_done |].
    intros R. reflexivity.
  - now apply rows_tokens_skip.
  - now apply section_skip_table_closer.
Qed.

End WellFormed.

(** ** One pass of the cell loop over a well-formed cell *)

Section CellStep.
Variables (done R : str) (gap : list token) (c : cell_el).
Hypothesis Hgap_td : Forall (skips (lit "td")) gap.
Hypothesis Hgap_th : Forall (skips (lit "th")) gap.
Hypothesis Hwf : wf_cell c = true.

Let name : str := cell_name c.
Let O : str := render_token (Tag (name ++ cell_attrs c)).
Let C : str := render (cell_content c).
Let Z : str := render_token (Tag (lit "/" ++ name)).
Let row : str := done ++ render gap ++ O ++ C ++ Z ++ R.

Lemma render_cell_tokens : render (cell_tokens c) = O ++ C ++ Z.
Proof.
  unfold cell_tokens. rewrite render_cons, render_app.
  unfold render at 2. cbn [flat_map]. now rewrite app_nil_r.
Qed.

Lemma cell_row_at_gap : row = done ++ (render gap ++ O ++ C ++ Z ++ R).
Proof. reflexivity. Qed.

Lemma cell_row_at_open : row = (done ++ render gap) ++ (O ++ C ++ Z ++ R).
Proof. unfold row. now rewrite <- !app_assoc. Qed.

Lemma cell_row_at_content :
  row = (done ++ render gap ++ O) ++ C ++ (Z ++ R).
Proof. unfold row. now rewrite <- !app_assoc. Qed.

Lemma cell_own_start :
  find row (LT :: name) (len done) = len (done ++ render gap).
Proof.
  rewrite cell_row_at_gap, find_app_at.
  assert (Hskip : Forall (skips name) gap).
  { subst name. destruct (cell_name_cases c) as [-> | ->]; assumption. }
  rewrite index_of_skip_tokens by assumption.
  unfold O. rewrite index_of_hit. simpl. rewrite len_app. unfold len. lia.
Qed.

Lemma cell_other_start q :
  (q = lit "td" /\ name = lit "th") \/ (q = lit "th" /\ name = lit "td") ->
  find row (LT :: q) (len done) = -1
  \/ len (done ++ render gap) < find row (LT :: q) (len done).
Proof.
  intros Hq. rewrite cell_row_at_gap, find_app_at.
  assert (Hskip : Forall (skips q) gap).
  { destruct Hq as [[-> _] | [-> _]]; assumption. }
  rewrite index_of_skip_tokens by assumption.
  assert (E : index_of (LT :: q) (O ++ C ++ Z ++ R)
              = S <$> index_of (LT :: q)
                        (((name ++ cell_attrs c) ++ [GT]) ++ C ++ Z ++ R)).
  { unfold O. destruct Hq as [[-> ->] | [-> ->]]; reflexivity. }
  rewrite E. clear E.
  destruct (index_of (LT :: q) _) as [k|];
    cbn [fmap option_fmap option_map found]; [right | now left].
  rewrite len_app. unfold len. lia.
Qed.

Lemma cell_content_start :
  find row [GT] (len (done ++ render gap)) + 1 = len (done ++ render gap ++ O).
Proof.
  rewrite cell_row_at_open, find_app_at.
  apply andb_true_iff in Hwf as [Ha _]. apply attrs_ok_spec in Ha as [_ Ha].
  assert (E : O ++ C ++ Z ++ R
              = (LT :: name ++ cell_attrs c) ++ GT :: (C ++ Z ++ R)).
  { unfold O. cbn [render_token app]. now rewrite <- !app_assoc. }
  rewrite E, index_of_char_app.
  - rewrite !len_app. unfold O. cbn [render_token found].
    unfold len. rewrite !length_app. cbn [length]. rewrite !length_app. lia.
  - rewrite not_elem_of_cons, not_elem_of_app. split; [discriminate|].
    split; [|assumption].
    subst name. destruct (cell_name_cases c) as [-> | ->]; compute_done.
Qed.

Lemma cell_content_end :
  find row (LT :: lit "/" ++ name ++ [GT]) (len (done ++ render gap ++ O))
  = len (done ++ render gap ++ O ++ C).
Proof.
  rewrite cell_row_at_content, find_app_at.
  apply andb_true_iff in Hwf as [_ Hcontent].
  assert (Hskip : Forall (skips ((lit "/" ++ name) ++ [GT])) (cell_content c)).
  { apply inline_skip_closer; [|assumption].
    subst name. destruct (cell_name_cases c) as [-> | ->]; tauto. }
  change (LT :: lit "/" ++ name ++ [GT])
    with (LT :: (lit "/" ++ name) ++ [GT]).
  unfold C. rewrite index_of_skip_tokens by assumption.
  rewrite index_of_here.
  - cbn [fmap option_fmap option_map found].
    rewrite !len_app. unfold len. lia.
  - unfold Z. cbn [render_token]. rewrite <- app_assoc.
    apply (startswith_app (LT :: (lit "/" ++ name) ++ [GT])).
Qed.

Lemma cell_content_slice :
  slice row (len (done ++ render gap ++ O))
    (len (done ++ render gap ++ O ++ C)) = C.
Proof.
  rewrite cell_row_at_content.
  replace (len (done ++ render gap ++ O ++ C))
    with (len (done ++ render gap ++ O) + len C)
    by (rewrite !len_app; lia).
  apply slice_app_mid.
Qed.

Lemma cell_after :
  len (done ++ render gap ++ O ++ C) + 5
  = len (done ++ render gap ++ render (cell_tokens c)).
Proof.
  rewrite render_cell_tokens, !len_app.
  assert (E : len Z = 5).
  { unfold Z. subst name. destruct (cell_name_cases c) as [-> | ->]; reflexivity. }
  lia.
Qed.

Lemma cell_content_short : (length (strip C) <= length row)%nat.
Proof.
  pose proof (strip_length C). unfold row. rewrite !length_app. lia.
Qed.

Lemma cell_base_not_minus_one : (len (done ++ render gap) =? -1) = false.
Proof. apply Z.eqb_neq. pose proof (len_nonneg (done ++ render gap)). lia. Qed.

Lemma cell_body_cell fuel cells :
  (length row < fuel)%nat ->
  cell_body fuel row (cells, len done)
  = Some (Next (cells ++ [cell_value c],
               len (done ++ render gap ++ render (cell_tokens c)))).
Proof.
  intros Hfuel. unfold cell_body. cbv zeta.
  pose proof cell_own_start as Hown.
  pose proof cell_content_start as Hstart.
  pose proof cell_content_end as Hend.
  pose proof cell_content_slice as Hslice.
  pose proof cell_after as Hafter.
  pose proof cell_base_not_minus_one as Hbase.
  assert (Hclean : clean_html fuel (strip C) = Some (cell_value c)).
  { apply clean_html_enough. pose proof cell_content_short. lia. }
  destruct (cell_header c) eqn:Hh.
  - assert (Hname : name = lit "th") by (unfold name, cell_name; now rewrite Hh).
    pose proof (cell_other_start (lit "td") (or_introl (conj eq_refl Hname)))
      as Hother.
    rewrite Hname in Hown, Hend.
    change (LT :: lit "th") with (lit "<th") in Hown.
    change (LT :: lit "td") with (lit "<td") in Hother.
    change (LT :: lit "/" ++ lit "th" ++ [GT]) with (lit "</th>") in Hend.
    rewrite Hown, Hbase, andb_false_r.
    assert (Hcond : negb (find row (lit "<td") (len done) =? -1)
                    && ((find row (lit "<td") (len done)
                         <? len (done ++ render gap)) || false) = false).
    { destruct Hother as [-> | Hlt]; [reflexivity|].
      rewrite (proj2 (Z.ltb_ge _ _)) by lia. apply andb_false_r. }
    rewrite Hcond, Hstart, Hend, Hslice, Hclean, Hafter. reflexivity.
  - assert (Hname : name = lit "td") by (unfold name, cell_name; now rewrite Hh).
    pose proof (cell_other_start (lit "th") (or_intror (conj eq_refl Hname)))
      as Hother.
    rewrite Hname in Hown, Hend.
    change (LT :: lit "td") with (lit "<td") in Hown.
    change (LT :: lit "th") with (lit "<th") in Hother.
    change (LT :: lit "/" ++ lit "td" ++ [GT]) with (lit "</td>") in Hend.
    rewrite Hown, Hbase. cbn [andb negb].
    assert (Hcond : (len (done ++ render gap)
                     <? find row (lit "<th") (len done))
                    || (find row (lit "<th") (len done) =? -1) = true).
    { destruct Hother as [-> | Hlt]; [apply orb_true_r|].
      now rewrite (proj2 (Z.ltb_lt _ _)) by lia. }
    rewrite Hcond, Hstart, Hend, Hslice, Hclean, Hafter. reflexivity.
Qed.

End CellStep.

(** ** The cell loop over a well-formed row *)

Section CellLoop.
Variable fuel : nat.
Implicit Types (done : str) (lead tail : list token) (cells : list str)
  (items : list (list token * cell_el)).

Lemma cell_body_no_cell done tail cells :
  Forall (skips (lit "td")) tail -> Forall (skips (lit "th")) tail ->
  cell_body fuel (done ++ render tail) (cells, len done)
  = Some (Break (cells, len done)).
Proof.
  intros Htd Hth. unfold cell_body. cbv zeta.
  rewrite !find_app_at.
  change (lit "<td") with (LT :: lit "td").
  change (lit "<th") with (LT :: lit "th").
  now rewrite !index_of_skip_all by assumption.
Qed.

Lemma cell_loop items :
  forall lead tail done cells n,
    Forall (skips (lit "td")) lead -> Forall (skips (lit "th")) lead ->
    forallb (fun gc => forallb (token_ok inline_tag) (fst gc)
                       && wf_cell (snd gc)) items = true ->
    Forall (skips (lit "td")) tail -> Forall (skips (lit "th")) tail ->
    (length (done ++ render (lead ++ cells_tokens items ++ tail)) < fuel)%nat ->
    (length (render (lead ++ cells_tokens items ++ tail)) < n)%nat ->
    exists pos,
      while_true
        (cell_body fuel (done ++ render (lead ++ cells_tokens items ++ tail)))
        n (cells, len done)
      = Some (cells ++ map (fun gc => cell_value (snd gc)) items, pos).
Proof.
  induction items as [|[gap c] items IH];
    intros lead tail done cells n Hl_td Hl_th Hwf Ht_td Ht_th Hfuel Hn.
  - destruct n as [|n]; [lia|]. cbn [while_true cells_tokens flat_map app].
    rewrite cell_body_no_cell by (apply Forall_app; split; assumption).
    exists (len done). cbn [map]. now rewrite app_nil_r.
  - cbn [forallb fst snd] in Hwf. apply andb_true_iff in Hwf as [Hgc Hwf].
    apply andb_true_iff in Hgc as [Hgap Hc].
    set (R := render (cells_tokens items ++ tail)).
    assert (Hrow : render (lead ++ cells_tokens ((gap, c) :: items) ++ tail)
                   = render (lead ++ gap)
                       ++ render_token (Tag (cell_name c ++ cell_attrs c))
                       ++ render (cell_content c)
                       ++ render_token (Tag (lit "/" ++ cell_name c)) ++ R).
    { unfold cells_tokens. cbn [flat_map fst snd].
      fold (cells_tokens items). subst R.
      rewrite !render_app, render_cell_tokens, <- !app_assoc. reflexivity. }
    rewrite Hrow in *.
    destruct n as [|n]; [lia|]. cbn [while_true].
    rewrite cell_body_cell; try assumption.
    2:{ apply Forall_app. split; [assumption|].
        now apply (inline_skip_cell (lit "td")); [left|]. }
    2:{ apply Forall_app. split; [assumption|].
        now apply (inline_skip_cell (lit "th")); [right|]. }
    set (done' := done ++ render (lead ++ gap) ++ render (cell_tokens c)).
    assert (Hsame : done ++ render (lead ++ gap)
                      ++ render_token (Tag (cell_name c ++ cell_attrs c))
                      ++ render (cell_content c)
                      ++ render_token (Tag (lit "/" ++ cell_name c)) ++ R
                    = done' ++ render ([] ++ cells_tokens items ++ tail)).
    { subst done' R. rewrite render_cell_tokens, <- !app_assoc. reflexivity. }
    rewrite Hsame in *.
    destruct (IH [] tail done' (cells ++ [cell_value c]) n) as [pos Hloop];
      try assumption; try constructor.
    { subst done' R. cbn [app].
      rewrite !length_app in Hn. cbn [render_token] in Hn.
      rewrite !length_app in Hn. cbn [length] in Hn. lia. }
    exists pos. rewrite Hloop. cbn [map snd]. now rewrite <- app_assoc.
Qed.

(** [parse_cells] on the text of a row without its closing tag. *)
Lemma parse_cells_row r :
  wf_row r = true ->
  (length (render (row_open_tokens r)) < fuel)%nat ->
  parse_cells fuel (render (row_open_tokens r)) = Some (row_values r).
Proof.
  unfold wf_row. rewrite !andb_true_iff. intros [[Ha Hcells] Htail] Hfuel.
  unfold parse_cells, row_open_tokens in *.
  assert (Hlead : forall q, q = lit "td" \/ q = lit "th" ->
            Forall (skips q) [Tag (lit "tr" ++ row_attrs r)]).
  { intros q Hq. constructor; [|constructor].
    apply structural_tag_skips; [assumption | compute_done |].
    intros R. destruct Hq as [-> | ->]; reflexivity. }
  destruct (cell_loop (row_cells r) [Tag (lit "tr" ++ row_attrs r)]
              (row_tail r) [] [] fuel) as [pos Hloop]; auto.
  - now apply (inline_skip_cell (lit "td")); [left|].
  - now apply (inline_skip_cell (lit "th")); [right|].
  - cbn [app] in Hloop. change (len []) with 0 in Hloop.
    cbn [app]. rewrite Hloop. reflexivity.
Qed.

End CellLoop.

(** ** The row loop over a well-formed table *)

Lemma render_single (t : token) : render [t] = render_token t.
Proof. unfold render. cbn [flat_map]. apply app_nil_r. Qed.

Section RowLoop.
Variable fuel : nat.
Implicit Types (done R : str) (gap lead tail : list token) (r : row_el)
  (acc : list (list str)) (rows : list (list token * row_el)).

Lemma row_body_row done R gap r acc :
  Forall (skips (lit "tr")) gap -> wf_row r = true ->
  (length (done ++ render gap ++ render (row_open_tokens r)
             ++ render_token (Tag (lit "/tr")) ++ R) < fuel)%nat ->
  row_body fuel
    (done ++ render gap ++ render (row_open_tokens r)
       ++ render_token (Tag (lit "/tr")) ++ R)
    (acc, len done)
  = Some (Next (acc ++ [row_values r],
               len (done ++ render gap ++ render (row_tokens r)))).
Proof.
  intros Hgap Hwf Hfuel.
  set (B := render (row_open_tokens r)) in *.
  set (Z := render_token (Tag (lit "/tr"))) in *.
  set (table := done ++ render gap ++ B ++ Z ++ R) in *.
  assert (Hstart : find table (lit "<tr") (len done) = len (done ++ render gap)).
  { unfold table. rewrite find_app_at.
    change (lit "<tr") with (LT :: lit "tr").
    rewrite index_of_skip_tokens by assumption.
    unfold B, row_open_tokens. rewrite render_cons, <- app_assoc, index_of_hit.
    simpl. rewrite len_app. unfold len. lia. }
  assert (Hend : find table (lit "</tr>") (len (done ++ render gap))
                 = len (done ++ render gap) + len B).
  { replace table with ((done ++ render gap) ++ B ++ Z ++ R)
      by (unfold table; now rewrite <- !app_assoc).
    rewrite find_app_at.
    change (lit "</tr>") with (LT :: lit "/tr" ++ [GT]).
    unfold B. rewrite index_of_skip_tokens
      by (apply row_open_tokens_skip; [tauto | assumption]).
    rewrite index_of_here by reflexivity.
    cbn [fmap option_fmap option_map found]. unfold len. lia. }
  assert (Hslice : slice table (len (done ++ render gap))
                     (len (done ++ render gap) + len B) = B).
  { replace table with ((done ++ render gap) ++ B ++ Z ++ R)
      by (unfold table; now rewrite <- !app_assoc).
    apply slice_app_mid. }
  assert (Hcells : parse_cells fuel B = Some (row_values r)).
  { apply parse_cells_row; [assumption|].
    fold B. unfold table in Hfuel. rewrite !length_app in Hfuel. lia. }
  assert (Hnext : len (done ++ render gap) + len B + 5
                  = len (done ++ render gap ++ render (row_tokens r))).
  { unfold row_tokens. rewrite render_app. fold B.
    rewrite !len_app. change (len (render [Tag (lit "/tr")])) with 5. lia. }
  unfold row_body. cbv zeta. rewrite Hstart.
  rewrite (proj2 (Z.eqb_neq _ _))
    by (pose proof (len_nonneg (done ++ render gap)); lia).
  rewrite Hend.
  rewrite (proj2 (Z.eqb_neq _ _))
    by (pose proof (len_nonneg (done ++ render gap));
        pose proof (len_nonneg B); lia).
  rewrite Hslice, Hcells, Hnext. reflexivity.
Qed.

Lemma row_body_no_row done tail acc :
  Forall (skips (lit "tr")) tail ->
  row_body fuel (done ++ render tail) (acc, len done)
  = Some (Break (acc, len done)).
Proof.
  intros Htail. unfold row_body. cbv zeta. rewrite find_app_at.
  change (lit "<tr") with (LT :: lit "tr").
  now rewrite index_of_skip_all by assumption.
Qed.

Lemma row_loop rows :
  forall lead tail done acc n,
    Forall (skips (lit "tr")) lead ->
    forallb (fun gr => forallb (token_ok section_tag) (fst gr)
                       && wf_row (snd gr)) rows = true ->
    Forall (skips (lit "tr")) tail ->
    (length (done ++ render (lead ++ rows_tokens rows ++ tail)) < fuel)%nat ->
    (length (render (lead ++ rows_tokens rows ++ tail)) < n)%nat ->
    exists pos,
      while_true
        (row_body fuel (done ++ render (lead ++ rows_tokens rows ++ tail)))
        n (acc, len done)
      = Some (acc ++ map (fun gr => row_values (snd gr)) rows, pos).
Proof.
  induction rows as [|[gap r] rows IH];
    intros lead tail done acc n Hlead Hwf Htail Hfuel Hn.
  - destruct n as [|n]; [lia|]. cbn [while_true rows_tokens flat_map app].
    rewrite row_body_no_row by (apply Forall_app; split; assumption).
    exists (len done). cbn [map]. now rewrite app_nil_r.
  - cbn [forallb fst snd] in Hwf. apply andb_true_iff in Hwf as [Hgr Hwf].
    apply andb_true_iff in Hgr as [Hgap Hr].
    set (R := render (rows_tokens rows ++ tail)).
    assert (Hrow : render (lead ++ rows_tokens ((gap, r) :: rows) ++ tail)
                   = render (lead ++ gap) ++ render (row_open_tokens r)
                       ++ render_token (Tag (lit "/tr")) ++ R).
    { unfold rows_tokens, row_tokens. cbn [flat_map fst snd].
      fold (rows_tokens rows). subst R.
      rewrite !render_app, render_single, <- !app_assoc. reflexivity. }
    rewrite Hrow in *.
    destruct n as [|n]; [lia|]. cbn [while_true].
    rewrite row_body_row; try assumption.
    2:{ apply Forall_app. split; [assumption | now apply section_skip_tr]. }
    set (done' := done ++ render (lead ++ gap) ++ render (row_tokens r)).
    assert (Hsame : done ++ render (lead ++ gap) ++ render (row_open_tokens r)
                      ++ render_token (Tag (lit "/tr")) ++ R
                    = done' ++ render ([] ++ rows_tokens rows ++ tail)).
    { subst done' R. unfold row_tokens. cbn [app].
      rewrite !render_app, render_single, <- !app_assoc. reflexivity. }
    rewrite Hsame in *.
    destruct (IH [] tail done' (acc ++ [row_values r]) n) as [pos Hloop];
      try assumption; try constructor.
    { subst done' R. cbn [app].
      rewrite !length_app in Hn. cbn [render_token] in Hn.
      rewrite !length_app in Hn. cbn [length] in Hn. lia. }
    exists pos. rewrite Hloop. cbn [map snd]. now rewrite <- app_assoc.
Qed.

(** [parse_table] on a well-formed table gives the values of its cells,
    row by row. *)
Lemma parse_table_wf tbl :
  wf_table tbl = true ->
  (length (render_table tbl) < fuel)%nat ->
  parse_table fuel (render_table tbl) = Some (table_values tbl).
Proof.
  unfold wf_table. rewrite !andb_true_iff. intros [[Ha Hrows] Htail] Hfuel.
  unfold parse_table, render_table, table_tokens, table_open_tokens in *.
  assert (Hshape :
    (Tag (lit "table" ++ table_attrs tbl)
       :: rows_tokens (table_rows tbl) ++ table_tail tbl)
      ++ [Tag (lit "/table")]
    = [Tag (lit "table" ++ table_attrs tbl)]
        ++ rows_tokens (table_rows tbl)
        ++ (table_tail tbl ++ [Tag (lit "/table")])).
  { cbn [app]. now rewrite <- app_assoc. }
  rewrite Hshape in *.
  destruct (row_loop (table_rows tbl) [Tag (lit "table" ++ table_attrs tbl)]
              (table_tail tbl ++ [Tag (lit "/table")]) [] [] fuel)
    as [pos Hloop]; auto.
  - constructor; [|constructor].
    apply structural_tag_skips; [assumption | compute_done |].
    intros R. reflexivity.
  - apply Forall_app. split; [now apply section_skip_tr|].
    constructor; [|constructor]. split; [compute_done | intros R; reflexivity].
  - change ([] ++ render ?x) with (render x) in Hloop.
    change (len []) with 0 in Hloop. rewrite Hloop. reflexivity.
Qed.

End RowLoop.

(** ** A well-formed document with one table *)

Section OneTable.
Implicit Types (d : document) (tbl : table_el).

Lemma render_table_split tbl :
  render_table tbl
  = render (table_open_tokens tbl) ++ render_token (Tag (lit "/table")).
Proof.
  unfold render_table, table_tokens. now rewrite render_app, render_single.
Qed.

Lemma extract_tables_wf fuel d :
  wf_document d = true ->
  (length (render_document d) < fuel)%nat ->
  extract_tables fuel (render_document d)
  = Some [render_table (doc_table d)].
Proof.
  unfold wf_document. rewrite !andb_true_iff.
  intros [[Hbefore Htable] Hafter] Hfuel.
  set (A := render (doc_before d)).
  set (B := render (table_open_tokens (doc_table d))).
  set (Z := render_token (Tag (lit "/table"))).
  set (E := render (doc_after d)).
  assert (Hdoc : render_document d = A ++ B ++ Z ++ E).
  { unfold render_document. rewrite render_table_split.
    now rewrite <- !app_assoc. }
  assert (Htbl : render_table (doc_table d) = B ++ Z)
    by apply render_table_split.
  rewrite Hdoc in *. rewrite Htbl.
  assert (Hstart : find (A ++ B ++ Z ++ E) (lit "<table") 0 = len A).
  { rewrite find_at_0. change (lit "<table") with (LT :: lit "table").
    unfold A. rewrite index_of_skip_tokens by now apply outside_skip_table.
    unfold B, table_open_tokens.
    rewrite render_cons, <- app_assoc, index_of_hit. simpl. unfold len. lia. }
  assert (Hend : find (A ++ B ++ Z ++ E) (lit "</table>") (len A)
                 = len A + len B).
  { rewrite find_app_at. change (lit "</table>") with (LT :: lit "/table" ++ [GT]).
    unfold B. rewrite index_of_skip_tokens by now apply table_open_tokens_skip.
    rewrite index_of_here by reflexivity.
    cbn [fmap option_fmap option_map found]. unfold len. lia. }
  assert (Hslice : slice (A ++ B ++ Z ++ E) (len A) (len A + len B + 8)
                   = B ++ Z).
  { replace (A ++ B ++ Z ++ E) with (A ++ (B ++ Z) ++ E)
      by now rewrite <- !app_assoc.
    replace (len A + len B + 8) with (len A + len (B ++ Z))
      by (rewrite len_app; change (len Z) with 8; lia).
    apply slice_app_mid. }
  assert (Hnext : find (A ++ B ++ Z ++ E) (lit "<table") (len A + len B + 8)
                  = -1).
  { replace (A ++ B ++ Z ++ E) with ((A ++ B ++ Z) ++ E)
      by now rewrite <- !app_assoc.
    replace (len A + len B + 8) with (len (A ++ B ++ Z))
      by (rewrite !len_app; change (len Z) with 8; lia).
    rewrite find_app_at. change (lit "<table") with (LT :: lit "table").
    unfold E. now rewrite index_of_skip_all by now apply outside_skip_table. }
  pose proof (len_nonneg A). pose proof (len_nonneg B).
  destruct fuel as [|[|fuel]].
  - lia.
  - rewrite !length_app in Hfuel. change (length Z) with 8%nat in Hfuel. lia.
  - unfold extract_tables. cbn [while_true]. unfold extract_body at 1.
    cbv zeta. rewrite Hstart.
    rewrite (proj2 (Z.eqb_neq _ _)) by lia. rewrite Hend.
    rewrite (proj2 (Z.eqb_neq _ _)) by lia. rewrite Hslice.
    unfold extract_body at 1. cbv zeta. rewrite Hnext. reflexivity.
Qed.

Lemma clean_finish_no_newline s : LF ∉ clean_finish s.
Proof.
  unfold clean_finish. rewrite replace_newlines.
  destruct (strip_split (map newline_to_space s)) as (l & r & E & _).
  intros H. assert (Hin : LF ∈ map newline_to_space s).
  { rewrite E, !elem_of_app. auto. }
  apply list_elem_of_fmap in Hin as (y & Hy & _).
  destruct (newline_to_space_clear y) as [Hlf _]. congruence.
Qed.

Lemma line_feeds_app a b : line_feeds (a ++ b) = (line_feeds a + line_feeds b)%nat.
Proof. apply count_occ_app. Qed.

Lemma line_feeds_quoted cell : LF ∉ cell -> line_feeds (quoted cell) = 0%nat.
Proof.
  intros Hcell. apply count_occ_not_In. unfold quoted.
  intros [H | H]; [discriminate|].
  apply in_app_or in H as [H | [H | []]]; [|discriminate].
  apply in_flat_map in H as (x & Hx & Hin).
  destruct (N.eqb_spec x DQ) as [->|_].
  - destruct Hin as [H | [H | []]]; discriminate.
  - destruct Hin as [-> | []]. apply Hcell. now apply list_elem_of_In.
Qed.

Lemma line_feeds_row row :
  Forall (fun cell => LF ∉ cell) row -> line_feeds (row_text row) = 1%nat.
Proof.
  induction 1 as [|cell row Hcell Hrow IH]; [reflexivity|].
  destruct row as [|cell' row].
  - cbn [row_text]. now rewrite line_feeds_app, line_feeds_quoted.
  - change (row_text (cell :: cell' :: row))
      with (quoted cell ++ COMMA :: row_text (cell' :: row)).
    rewrite line_feeds_app, line_feeds_quoted by assumption.
    change (COMMA :: row_text (cell' :: row))
      with ([COMMA] ++ row_text (cell' :: row)).
    now rewrite line_feeds_app, IH.
Qed.

Lemma line_feeds_rows rows :
  Forall (Forall (fun cell => LF ∉ cell)) rows ->
  line_feeds (flat_map row_text rows) = length rows.
Proof.
  induction 1 as [|row rows Hrow _ IH]; [reflexivity|].
  cbn [flat_map length]. now rewrite line_feeds_app, line_feeds_row, IH.
Qed.

Lemma table_values_clean tbl :
  Forall (Forall (fun cell => LF ∉ cell)) (table_values tbl).
Proof.
  unfold table_values, row_values. apply Forall_forall. intros row Hrow.
  apply list_elem_of_fmap in Hrow as (gr & -> & _).
  apply Forall_forall. intros cell Hcell.
  apply list_elem_of_fmap in Hcell as (gc & -> & _).
  apply clean_finish_no_newline.
Qed.

End OneTable.

(** ** Counting the rows in the text *)

Section Counting.
Implicit Types (q s X R a : str) (t : token) (ts : list token).

Lemma count_sub_skip_plain q X R :
  LT ∉ X -> count_sub (LT :: q) (X ++ R) = count_sub (LT :: q) R.
Proof.
  induction X as [|x X IH]; intros HX; [reflexivity|].
  apply not_elem_of_cons in HX as [Hx HX].
  cbn [app count_sub startswith].
  destruct (N.eqb_spec LT x); [congruence|]. cbn [andb]. now rewrite IH.
Qed.

Lemma count_sub_tag q s R :
  LT ∉ s ->
  count_sub (LT :: q) (render_token (Tag s) ++ R)
  = ((if startswith q (s ++ GT :: R) then 1 else 0)
     + count_sub (LT :: q) R)%nat.
Proof.
  intros Hs. cbn [render_token app count_sub startswith].
  rewrite N.eqb_refl. cbn [andb].
  rewrite <- app_assoc. cbn [app]. f_equal.
  replace (s ++ GT :: R) with ((s ++ [GT]) ++ R) by now rewrite <- app_assoc.
  apply count_sub_skip_plain.
  rewrite not_elem_of_app, not_elem_of_cons. split; [assumption|].
  split; [discriminate | apply not_elem_of_nil].
Qed.

Lemma count_sub_skip_token q t R :
  skips q t ->
  count_sub (LT :: q) (render_token t ++ R) = count_sub (LT :: q) R.
Proof.
  destruct t as [s|s]; simpl skips.
  - apply count_sub_skip_plain.
  - intros [Hs Hq]. now rewrite count_sub_tag, Hq.
Qed.

Lemma count_sub_skip_tokens q ts R :
  Forall (skips q) ts ->
  count_sub (LT :: q) (render ts ++ R) = count_sub (LT :: q) R.
Proof.
  induction 1 as [|t ts Ht _ IH]; [reflexivity|].
  now rewrite render_cons, <- app_assoc, count_sub_skip_token.
Qed.

Lemma count_sub_hit q a R :
  LT ∉ q ++ a ->
  count_sub (LT :: q) (render_token (Tag (q ++ a)) ++ R)
  = S (count_sub (LT :: q) R).
Proof.
  intros H. rewrite count_sub_tag by assumption.
  now rewrite <- app_assoc, startswith_app.
Qed.

Lemma inline_skip_tr ts :
  forallb (token_ok inline_tag) ts = true -> Forall (skips (lit "tr")) ts.
Proof.
  apply tokens_skip_opener; [compute_done|].
  intros s Hs. apply inline_tag_spec in Hs as [Hs _].
  apply section_tag_spec in Hs as [Hs _]. now apply outside_tag_spec in Hs.
Qed.

Lemma outside_skip_tr ts :
  forallb (token_ok outside_tag) ts = true -> Forall (skips (lit "tr")) ts.
Proof.
  apply tokens_skip_opener; [compute_done|].
  intros s Hs. now apply outside_tag_spec in Hs.
Qed.

Lemma cells_tokens_skip_tr cells :
  forallb (fun gc => forallb (token_ok inline_tag) (fst gc)
                     && wf_cell (snd gc)) cells = true ->
  Forall (skips (lit "tr")) (cells_tokens cells).
Proof.
  induction cells as [|[gap c] cells IH]; [constructor|].
  cbn [forallb fst snd]. rewrite !andb_true_iff. intros [[Hgap Hc] Hcells].
  unfold cells_tokens, cell_tokens. cbn [flat_map fst snd].
  unfold wf_cell in Hc. apply andb_true_iff in Hc as [Ha Hcontent].
  rewrite !Forall_app. repeat split.
  - now apply inline_skip_tr.
  - constructor.
    + apply structural_tag_skips; [assumption | |].
      * destruct (cell_name_cases c) as [-> | ->]; compute_done.
      * intros R. destruct (cell_name_cases c) as [-> | ->]; reflexivity.
    + apply Forall_app. split; [now apply inline_skip_tr|].
      constructor; [|constructor]. split.
      * destruct (cell_name_cases c) as [-> | ->]; compute_done.
      * intros R. destruct (cell_name_cases c) as [-> | ->]; reflexivity.
  - now apply IH.
Qed.

Lemma count_rows rows R :
  forallb (fun gr => forallb (token_ok section_tag) (fst gr)
                     && wf_row (snd gr)) rows = true ->
  count_sub (lit "<tr") (render (rows_tokens rows) ++ R)
  = (length rows + count_sub (lit "<tr") R)%nat.
Proof.
  change (lit "<tr") with (LT :: lit "tr").
  induction rows as [|[gap r] rows IH]; [reflexivity|].
  cbn [forallb fst snd]. rewrite !andb_true_iff. intros [[Hgap Hr] Hrows].
  change (rows_tokens ((gap, r) :: rows))
    with ((gap ++ row_tokens r) ++ rows_tokens rows).
  unfold row_tokens, row_open_tokens.
  unfold wf_row in Hr. apply andb_true_iff in Hr as [Hr Htail].
  apply andb_true_iff in Hr as [Ha Hcells].
  rewrite !render_app, <- !app_assoc.
  rewrite count_sub_skip_tokens by now apply section_skip_tr.
  rewrite render_cons, <- !app_assoc, count_sub_hit.
  2:{ apply attrs_ok_spec in Ha as [Ha _].
      rewrite not_elem_of_app. split; [compute_done | assumption]. }
  rewrite render_app, <- !app_assoc.
  rewrite count_sub_skip_tokens by now apply cells_tokens_skip_tr.
  rewrite count_sub_skip_tokens by now apply inline_skip_tr.
  rewrite count_sub_skip_tokens
    by (constructor; [|constructor]; split;
        [compute_done | intros R'; reflexivity]).
  rewrite IH by assumption. reflexivity.
Qed.

(** The text of a well-formed document holds [<tr] once for each row of
    its table. *)
Lemma count_tr_document d :
  wf_document d = true ->
  count_sub (lit "<tr") (render_document d)
  = length (table_rows (doc_table d)).
Proof.
  unfold wf_document, wf_table. rewrite !andb_true_iff.
  intros [[Hbefore [[Ha Hrows] Htail]] Hafter].
  unfold render_document, render_table, table_tokens, table_open_tokens.
  assert (Hzero : count_sub (lit "<tr") [] = 0%nat) by reflexivity.
  change (lit "<tr") with (LT :: lit "tr") in *.
  rewrite count_sub_skip_tokens by now apply outside_skip_tr.
  rewrite render_app, render_cons, render_app, <- !app_assoc.
  rewrite count_sub_skip_token.
  2:{ apply structural_tag_skips; [assumption | compute_done |].
      intros R. reflexivity. }
  change (LT :: lit "tr") with (lit "<tr").
  rewrite count_rows by assumption.
  change (lit "<tr") with (LT :: lit "tr").
  rewrite count_sub_skip_tokens by now apply section_skip_tr.
  rewrite count_sub_skip_tokens
    by (constructor; [|constructor]; split;
        [compute_done | intros R'; reflexivity]).
  rewrite <- (app_nil_r (render (doc_after d))).
  rewrite count_sub_skip_tokens by now apply outside_skip_tr.
  rewrite Hzero. lia.
Qed.

End Counting.

(** C1, as the code has it.  For every well-formed document with exactly
    one table that has at least one row, the run writes exactly one file,
    [output_1.csv], and touches no other; the extractor finds the one
    table; the grid holds one row for each [<tr] of the document, each row
    the cleaned values of its cells; and the file holds one line for each
    row.  A table with no row writes no file, as the lemma after the
    witness shows. *)
Theorem one_table_one_file
    (fuel : nat) (prog source : str) (w w1 : world) (d : document) :
  wf_document d = true ->
  table_rows (doc_table d) <> [] ->
  (length (render_document d) < fuel)%nat ->
  fetch_html source w = Returned (render_document d) w1 ->
  main fuel [prog; source] w
  = Returned tt
      (World (<[lit "output_1.csv" :=
                  flat_map row_text (table_values (doc_table d))]> (files w1))
             (http w1)
             (stdout w1 ++ [lit "CSV saved as output_1.csv"]))
  /\ extract_tables fuel (render_document d)
     = Some [render_table (doc_table d)]
  /\ parse_table fuel (render_table (doc_table d))
     = Some (table_values (doc_table d))
  /\ length (table_values (doc_table d))
     = count_sub (lit "<tr") (render_document d)
  /\ length (table_values (doc_table d)) = length (table_rows (doc_table d))
  /\ line_feeds (flat_map row_text (table_values (doc_table d)))
     = length (table_values (doc_table d)).
Proof.
  intros Hwf Hrows Hfuel Hfetch.
  assert (Hext := extract_tables_wf fuel d Hwf Hfuel).
  assert (Hparse : parse_table fuel (render_table (doc_table d))
                   = Some (table_values (doc_table d))).
  { apply parse_table_wf.
    - unfold wf_document in Hwf. rewrite !andb_true_iff in Hwf. tauto.
    - unfold render_document in Hfuel. rewrite !length_app in Hfuel. lia. }
  assert (Hlen : length (table_values (doc_table d))
                 = length (table_rows (doc_table d)))
    by (unfold table_values; apply length_map).
  split; [|split; [|split; [|split; [|split]]]];
    try assumption.
  - rewrite (main_fetched fuel prog source _ w w1 Hfetch), Hext.
    rewrite (save_loop fuel [render_table (doc_table d)]
               [table_values (doc_table d)] 1 w1)
      by (constructor; [assumption | constructor]).
    destruct (table_values (doc_table d)) as [|row rows] eqn:E.
    + destruct (table_rows (doc_table d)); [contradiction | discriminate].
    + reflexivity.
  - now rewrite Hlen, count_tr_document.
  - apply line_feeds_rows, table_values_clean.
Qed.

Lemma one_table_one_file_witness :
  main 200 [lit "project1.py"; lit "in.html"] sample_world
  = Returned tt
      (World (<[lit "output_1.csv" :=
                  flat_map row_text (table_values (doc_table sample_doc))]>
                (files sample_world))
             (http sample_world)
             (stdout sample_world ++ [lit "CSV saved as output_1.csv"]))
  /\ extract_tables 200 (render_document sample_doc)
     = Some [render_table (doc_table sample_doc)]
  /\ parse_table 200 (render_table (doc_table sample_doc))
     = Some (table_values (doc_table sample_doc))
  /\ length (table_values (doc_table sample_doc))
     = count_sub (lit "<tr") (render_document sample_doc)
  /\ length (table_values (doc_table sample_doc))
     = length (table_rows (doc_table sample_doc))
  /\ line_feeds (flat_map row_text (table_values (doc_table sample_doc)))
     = length (table_values (doc_table sample_doc)).
Proof.
  apply (one_table_one_file 200 (lit "project1.py") (lit "in.html")
           sample_world sample_world sample_doc).
  - vm_compute. reflexivity.
  - discriminate.
  - vm_compute. lia.
  - vm_compute. reflexivity.
Defined.

(** The claim as the specification words it promises a file for every
    well-formed document with one table.  The well-formed document
    [<table></table>] has one table, and the run on it writes no file. *)
Lemma one_table_without_rows_writes_nothing :
  wf_document empty_table_doc = true
  /\ render_document empty_table_doc = lit "<table></table>"
  /\ ~ (exists w' name content,
          main 20 [lit "project1.py"; lit "in.html"] empty_table_world
          = Returned tt w'
          /\ files empty_table_world !! name = None
          /\ files w' = <[name := content]> (files empty_table_world)).
Proof.
  split; [reflexivity|]. split; [reflexivity|].
  intros (w' & name & content & Hmain & Hfresh & Hfiles).
  assert (E : main 20 [lit "project1.py"; lit "in.html"] empty_table_world
              = Returned tt empty_table_world) by (vm_compute; reflexivity).
  rewrite E in Hmain. injection Hmain as <-.
  apply (f_equal (fun m => m !! name)) in Hfiles.
  rewrite lookup_insert_eq, Hfresh in Hfiles. discriminate.
Qed.

Example sample_grid :
  parse_table 200 (render_table (doc_table sample_doc))
  = Some [[lit "Item"; lit "Price"]; [lit "Tea"; lit "3"]].
Proof. vm_compute. reflexivity. Qed.

Example empty_table_run :
  main 20 [lit "project1.py"; lit "in.html"] empty_table_world
  = Returned tt empty_table_world.
Proof. vm_compute. reflexivity. Qed.

Example two_tables_run :
  main 60 [lit "project1.py"; lit "in.html"] two_tables_world
  = Returned tt
      (World (<[lit "output_1.csv" := [DQ] ++ lit "a" ++ [DQ; LF]]>
                (files two_tables_world))
             (http two_tables_world)
             [lit "CSV saved as output_1.csv"]).
Proof. vm_compute. reflexivity. Qed.

(** * More about the program *)

(** ** What every grid is made of *)

Section LoopInvariant.
Context {S : Type} (body : S -> option (ctl S)) (I : S -> Prop).

(** A property kept by every pass holds when the loop returns. *)
Lemma while_true_invariant :
  (forall s s', I s -> body s = Some (Next s') -> I s') ->
  (forall s s', I s -> body s = Some (Break s') -> I s') ->
  forall n s r, I s -> while_true body n s = Some r -> I r.
Proof.
  intros Hnext Hbreak. induction n as [|n IH]; intros s r Hs; [easy|].
  cbn [while_true]. destruct (body s) as [[s'|s']|] eqn:E; [| |easy].
  - apply IH. eapply Hnext; eassumption.
  - intros [= <-]. eapply Hbreak; eassumption.
Qed.

End LoopInvariant.

Section TidyCells.
Implicit Types (cell text row_html table_html : str) (cells : list str)
  (rows : list (list str)).

Lemma clean_finish_tidy text : tidy (clean_finish text).
Proof.
  unfold tidy, clean_finish. rewrite replace_newlines.
  set (u := map newline_to_space text).
  assert (Hclear : forall x, x ∈ strip u -> x <> LF /\ x <> CR).
  { intros x Hx. destruct (strip_split u) as (l & r & E & _).
    assert (Hu : x ∈ u) by (rewrite E, !elem_of_app; auto).
    apply list_elem_of_fmap in Hu as (y & -> & _).
    apply newline_to_space_clear. }
  repeat split.
  - intros H. now destruct (Hclear _ H).
  - intros H. now destruct (Hclear _ H).
  - apply strip_head.
  - apply strip_last.
Qed.

Lemma clean_html_tidy fuel text cleaned :
  clean_html fuel text = Some cleaned -> tidy cleaned.
Proof.
  unfold clean_html. destruct (strip_tags fuel text); [|easy].
  intros [= <-]. apply clean_finish_tidy.
Qed.

Lemma cell_body_tidy fuel row_html cells pos cells' pos' :
  Forall tidy cells ->
  cell_body fuel row_html (cells, pos) = Some (Next (cells', pos')) ->
  Forall tidy cells'.
Proof.
  intros Hcells. unfold cell_body. cbv zeta.
  destruct (_ && _); [easy|].
  destruct (_ && _).
  - destruct (clean_html fuel _) as [cleaned|] eqn:E; [|easy].
    intros [= <- _]. apply Forall_app. split; [assumption|].
    constructor; [|constructor]. eapply clean_html_tidy, E.
  - destruct (clean_html fuel _) as [cleaned|] eqn:E; [|easy].
    intros [= <- _]. apply Forall_app. split; [assumption|].
    constructor; [|constructor]. eapply clean_html_tidy, E.
Qed.

Lemma cell_body_break fuel row_html st st' :
  cell_body fuel row_html st = Some (Break st') -> st' = st.
Proof.
  destruct st as [cells pos]. unfold cell_body. cbv zeta.
  destruct (_ && _); [now intros [= <-]|].
  destruct (_ && _); destruct (clean_html fuel _); easy.
Qed.

Lemma parse_cells_tidy fuel row_html cells :
  parse_cells fuel row_html = Some cells -> Forall tidy cells.
Proof.
  unfold parse_cells.
  destruct (while_true _ fuel _) as [[cs pos]|] eqn:E; [|easy].
  intros [= <-].
  apply (while_true_invariant _ (fun st => Forall tidy (fst st))) in E;
    [exact E | | | constructor].
  - intros [c p] [c' p'] Hc Hbody. eapply cell_body_tidy; eassumption.
  - intros st st' Hst Hbody. apply cell_body_break in Hbody. now subst.
Qed.

Lemma row_body_tidy fuel table_html rows pos rows' pos' :
  Forall (Forall tidy) rows ->
  row_body fuel table_html (rows, pos) = Some (Next (rows', pos')) ->
  Forall (Forall tidy) rows'.
Proof.
  intros Hrows. unfold row_body. cbv zeta.
  destruct (_ =? _); [easy|]. destruct (_ =? _); [easy|].
  destruct (parse_cells fuel _) as [cells|] eqn:E; [|easy].
  intros [= <- _]. apply Forall_app. split; [assumption|].
  constructor; [|constructor]. eapply parse_cells_tidy, E.
Qed.

Lemma row_body_break fuel table_html st st' :
  row_body fuel table_html st = Some (Break st') -> st' = st.
Proof.
  destruct st as [rows pos]. unfold row_body. cbv zeta.
  destruct (_ =? _); [now intros [= <-]|].
  destruct (_ =? _); [now intros [= <-]|].
  destruct (parse_cells fuel _); easy.
Qed.

Lemma parse_table_tidy fuel table_html rows :
  parse_table fuel table_html = Some rows -> Forall (Forall tidy) rows.
Proof.
  unfold parse_table.
  destruct (while_true _ fuel _) as [[rs pos]|] eqn:E; [|easy].
  intros [= <-].
  apply (while_true_invariant _ (fun st => Forall (Forall tidy) (fst st)))
    in E; [exact E | | | constructor].
  - intros [r p] [r' p'] Hr Hbody. eapply row_body_tidy; eassumption.
  - intros st st' Hst Hbody. apply row_body_break in Hbody. now subst.
Qed.

End TidyCells.

(** X1.  Whatever the text of a table, the cells of the grid that
    [parse_table] returns are tidy: none holds a line feed or a carriage
    return, and none starts or ends with white space. *)
Theorem parse_table_cells_tidy
    (fuel : nat) (table_html : str) (rows : list (list str)) :
  parse_table fuel table_html = Some rows ->
  Forall (Forall tidy) rows.
Proof. apply parse_table_tidy. Qed.

Lemma parse_table_cells_tidy_witness :
  Forall (Forall tidy) [[lit "a b"; lit "c"]].
Proof.
  apply (parse_table_cells_tidy 60
           (lit "<table><tr><td> a" ++ [LF] ++ lit "b </td><th>c</th></tr>")).
  vm_compute. reflexivity.
Defined.

(** X2.  Whatever the text of a table, when its grid has a row the loop
    of [main] writes for it a file with exactly one line feed for each
    row of the grid: no cell can break a line. *)
Theorem save_table_one_line_per_row
    (fuel i : nat) (table_html : str) (rows : list (list str)) (w : world) :
  parse_table fuel table_html = Some rows ->
  rows <> [] ->
  exists w' content,
    save_table fuel (i, table_html) w = Returned tt w'
    /\ files w' !! output_name i = Some content
    /\ line_feeds content = length rows.
Proof.
  intros Hparse Hrows. unfold save_table, proc_bind, run_pure.
  rewrite Hparse. destruct rows as [|row rows]; [contradiction|].
  rewrite save_csv_writes. eexists _, _. split; [reflexivity|].
  cbn [files]. split; [apply lookup_insert_eq|].
  apply line_feeds_rows. apply parse_table_tidy in Hparse.
  eapply Forall_impl; [exact Hparse|]. intros r Hr.
  eapply Forall_impl; [exact Hr|]. intros c Hc. apply Hc.
Qed.

Lemma save_table_one_line_per_row_witness :
  exists w' content,
    save_table 60
      (3%nat, lit "<table><tr><td>a</td></tr><tr><td>b</td></tr></table>")
      two_tables_world
    = Returned tt w'
    /\ files w' !! output_name 3 = Some content
    /\ line_feeds content = length [[lit "a"]; [lit "b"]].
Proof.
  apply (save_table_one_line_per_row 60 3
           (lit "<table><tr><td>a</td></tr><tr><td>b</td></tr></table>")
           [[lit "a"]; [lit "b"]] two_tables_world).
  - vm_compute. reflexivity.
  - discriminate.
Defined.

(** ** Cleaning twice *)

Section CleanAgain.
Implicit Types (s text a b r l : str).

Lemma strip_tags_result fuel text r :
  strip_tags fuel text = Some r -> r = remove_spans false text.
Proof.
  intros H. unfold strip_tags in H.
  apply (while_true_more _ _ (fuel + S (length text))) in H; [|lia].
  fold (strip_tags (fuel + S (length text)) text) in H.
  rewrite strip_tags_remove_spans in H by lia. congruence.
Qed.

Lemma clean_html_result fuel text cleaned :
  clean_html fuel text = Some cleaned ->
  cleaned = clean_finish (remove_spans false text).
Proof.
  unfold clean_html. destruct (strip_tags fuel text) as [r|] eqn:E; [|easy].
  intros [= <-]. now rewrite (strip_tags_result _ _ _ E).
Qed.

(** Where a less-than sign of [a ++ r] stands when [a] has none. *)
Lemma split_after_plain a r a' b' :
  LT ∉ a -> a ++ r = a' ++ LT :: b' ->
  exists a'', a' = a ++ a'' /\ r = a'' ++ LT :: b'.
Proof.
  revert a'. induction a as [|x a IH]; intros a' Ha E.
  - now exists a'.
  - apply not_elem_of_cons in Ha as [Hx Ha].
    destruct a' as [|y a']; simpl in E.
    + injection E as -> _. congruence.
    + injection E as <- E. destruct (IH a' Ha E) as (a'' & -> & ->).
      now exists a''.
Qed.

Lemma spanless_plain s : LT ∉ s -> spanless s.
Proof.
  intros Hs a b ->. exfalso. apply Hs.
  rewrite elem_of_app, elem_of_cons. auto.
Qed.

Lemma spanless_app_plain a r : LT ∉ a -> spanless r -> spanless (a ++ r).
Proof.
  intros Ha Hr a' b' E.
  destruct (split_after_plain a r a' b' Ha E) as (a'' & _ & Er).
  now apply (Hr a'' b').
Qed.

Lemma spanless_open b : GT ∉ b -> spanless (LT :: b).
Proof.
  intros Hb a' b' E. destruct a' as [|y a']; simpl in E.
  - now injection E as <-.
  - injection E as _ E. intros H. apply Hb. rewrite E.
    rewrite elem_of_app, elem_of_cons. auto.
Qed.

Lemma remove_spans_spanless_fuel n text :
  (length text < n)%nat -> spanless (remove_spans false text).
Proof.
  revert text. induction n as [|n IH]; intros text Hn; [lia|].
  destruct (text_shape text)
    as [H | [(a & b & -> & Ha & Hb) | (a & b & c & -> & Ha & Hb)]].
  - rewrite remove_spans_plain by assumption. now apply spanless_plain.
  - rewrite remove_spans_app_plain, remove_spans_open by assumption.
    apply spanless_app_plain; [assumption | now apply spanless_open].
  - rewrite remove_spans_app_plain, remove_spans_span by assumption.
    apply spanless_app_plain; [assumption|]. apply IH.
    rewrite length_app in Hn. cbn [length] in Hn.
    rewrite length_app in Hn. cbn [length] in Hn. lia.
Qed.

Lemma remove_spans_spanless text : spanless (remove_spans false text).
Proof. apply (remove_spans_spanless_fuel (S (length text))). lia. Qed.

Lemma newline_to_space_bracket x c :
  c = LT \/ c = GT -> newline_to_space x = c -> x = c.
Proof.
  unfold newline_to_space. intros Hc.
  destruct ((x =? LF) || (x =? CR))%N; [|easy].
  destruct Hc as [-> | ->]; discriminate.
Qed.

Lemma spanless_newlines s : spanless s -> spanless (map newline_to_space s).
Proof.
  intros Hs a b E.
  apply map_eq_app in E as (a0 & r0 & -> & _ & E).
  apply map_eq_cons in E as (x & b0 & -> & Hx & <-).
  apply newline_to_space_bracket in Hx; [|auto]. subst x.
  intros H. apply list_elem_of_fmap in H as (y & Hy & Hin).
  symmetry in Hy. apply newline_to_space_bracket in Hy; [|auto]. subst y.
  now apply (Hs a0 b0).
Qed.

Lemma spanless_infix l s r : spanless (l ++ s ++ r) -> spanless s.
Proof.
  intros H a b ->. specialize (H (l ++ a) (b ++ r)).
  rewrite <- !app_assoc in H. specialize (H eq_refl).
  rewrite not_elem_of_app in H. tauto.
Qed.

Lemma clean_finish_spanless s : spanless s -> spanless (clean_finish s).
Proof.
  intros Hs. unfold clean_finish. rewrite replace_newlines.
  destruct (strip_split (map newline_to_space s)) as (l & r & E & _).
  apply (spanless_infix l _ r). rewrite <- E. now apply spanless_newlines.
Qed.

Lemma remove_spans_id s : spanless s -> remove_spans false s = s.
Proof.
  intros Hs. destruct (text_shape s)
    as [H | [(a & b & -> & Ha & Hb) | (a & b & c & -> & Ha & Hb)]].
  - now apply remove_spans_plain.
  - now rewrite remove_spans_app_plain, remove_spans_open.
  - exfalso. apply (Hs a (b ++ GT :: c) eq_refl).
    rewrite elem_of_app, elem_of_cons. auto.
Qed.

Lemma newlines_id s : LF ∉ s -> CR ∉ s -> map newline_to_space s = s.
Proof.
  induction s as [|x s IH]; [easy|].
  rewrite !not_elem_of_cons. intros [H1 Hlf] [H2 Hcr].
  cbn [map]. rewrite IH by assumption. f_equal.
  unfold newline_to_space.
  destruct (N.eqb_spec x LF); [congruence|].
  destruct (N.eqb_spec x CR); [congruence | reflexivity].
Qed.

Lemma lstrip_id s :
  (forall c t, s = c :: t -> isspace c = false) -> lstrip s = s.
Proof.
  destruct s as [|x s]; [easy|]. intros H. simpl.
  now rewrite (H x s eq_refl).
Qed.

Lemma rstrip_id s :
  (forall t c, s = t ++ [c] -> isspace c = false) -> rstrip s = s.
Proof.
  intros H. unfold rstrip. rewrite lstrip_id; [apply rev_involutive|].
  intros c t E. apply (H (rev t) c).
  rewrite <- (rev_involutive s), E. reflexivity.
Qed.

Lemma clean_finish_id s : tidy s -> clean_finish s = s.
Proof.
  intros (Hlf & Hcr & Hhead & Hlast). unfold clean_finish.
  rewrite replace_newlines, newlines_id by assumption.
  unfold strip. rewrite lstrip_id by assumption. now apply rstrip_id.
Qed.

Lemma remove_spans_length inside s :
  (length (remove_spans inside s) <= length s)%nat.
Proof.
  revert inside. induction s as [|x s IH]; intros inside; [simpl; lia|].
  cbn [remove_spans]. destruct inside.
  - destruct (x =? GT)%N; [specialize (IH false) | specialize (IH true)];
      simpl; lia.
  - destruct (x =? LT)%N.
    + destruct (existsb _ s); [specialize (IH true); simpl; lia | lia].
    + specialize (IH false). simpl. lia.
Qed.

Lemma clean_finish_length s : (length (clean_finish s) <= length s)%nat.
Proof.
  unfold clean_finish. rewrite replace_newlines.
  pose proof (strip_length (map newline_to_space s)) as H.
  now rewrite length_map in H.
Qed.

End CleanAgain.

(** X3.  What [clean_html] returns holds no tag any more: none of its
    less-than signs is followed by a greater-than sign.  It is also never
    longer than the raw text. *)
Theorem clean_html_leaves_no_span (fuel : nat) (text cleaned : str) :
  clean_html fuel text = Some cleaned ->
  spanless cleaned /\ (length cleaned <= length text)%nat.
Proof.
  intros H. apply clean_html_result in H. subst cleaned. split.
  - apply clean_finish_spanless, remove_spans_spanless.
  - pose proof (clean_finish_length (remove_spans false text)).
    pose proof (remove_spans_length false text). lia.
Qed.

Lemma clean_html_leaves_no_span_witness :
  spanless (lit "a > b < c")
  /\ (length (lit "a > b < c") <= length (lit "<i>a</i> > b < c "))%nat.
Proof.
  apply (clean_html_leaves_no_span 30 (lit "<i>a</i> > b < c ")).
  vm_compute. reflexivity.
Defined.

(** X4.  Cleaning is idempotent: a cleaned cell cleans to itself, in one
    pass of the loop. *)
Theorem clean_html_idempotent (fuel n : nat) (text cleaned : str) :
  clean_html fuel text = Some cleaned ->
  clean_html (S n) cleaned = Some cleaned.
Proof.
  intros H.
  assert (Hspan : spanless cleaned).
  { apply clean_html_result in H. subst cleaned.
    apply clean_finish_spanless, remove_spans_spanless. }
  apply clean_html_tidy in H.
  unfold clean_html, strip_tags. cbn [while_true].
  assert (Hbody : clean_body cleaned = Some (Break cleaned)).
  { destruct (text_shape cleaned)
      as [Hp | [(a & b & -> & Ha & Hb) | (a & b & c & -> & Ha & Hb)]].
    - now apply clean_body_plain.
    - now apply clean_body_open.
    - exfalso. apply (Hspan a (b ++ GT :: c) eq_refl).
      rewrite elem_of_app, elem_of_cons. auto. }
  rewrite Hbody. cbn. now rewrite clean_finish_id.
Qed.

Lemma clean_html_idempotent_witness :
  clean_html 1 (lit "a > b < c") = Some (lit "a > b < c").
Proof.
  apply (clean_html_idempotent 30 0 (lit "<i>a</i> > b < c ")).
  vm_compute. reflexivity.
Defined.

(** ** Reading a saved file back *)

Section ReadBack.
Implicit Types (cell cur R : str) (fields row : list str)
  (rows done : list (list str)).

Lemma read_rows_quoted cur cell fields done R :
  read_rows (InQuotes cur) fields done
    (flat_map (fun c => if (c =? DQ)%N then [DQ; DQ] else [c]) cell
       ++ DQ :: R)
  = read_rows (AfterQuote (cur ++ cell)) fields done R.
Proof.
  revert cur. induction cell as [|c cell IH]; intros cur.
  - simpl. change (DQ =? DQ)%N with true. now rewrite app_nil_r.
  - cbn [flat_map]. destruct (N.eqb_spec c DQ) as [->|Hc].
    + cbn [app read_rows]. change (DQ =? DQ)%N with true. cbv iota.
      rewrite IH. now rewrite <- app_assoc.
    + cbn [app read_rows]. destruct (N.eqb_spec c DQ); [contradiction|].
      rewrite IH. now rewrite <- app_assoc.
Qed.

Lemma read_rows_field cell fields done R :
  read_rows AtField fields done (quoted cell ++ R)
  = read_rows (AfterQuote cell) fields done R.
Proof.
  unfold quoted. cbn [app read_rows]. change (DQ =? DQ)%N with true.
  cbv iota. rewrite <- app_assoc. cbn [app]. now rewrite read_rows_quoted.
Qed.

Lemma read_rows_row_cells cell more fields done R :
  read_rows AtField fields done (row_text (cell :: more) ++ R)
  = read_rows AtField [] (done ++ [fields ++ cell :: more]) R.
Proof.
  revert cell fields. induction more as [|cell' more IH]; intros cell fields.
  - cbn [row_text]. rewrite <- app_assoc, read_rows_field.
    cbn [app read_rows]. reflexivity.
  - change (row_text (cell :: cell' :: more))
      with (quoted cell ++ COMMA :: row_text (cell' :: more)).
    rewrite <- app_assoc, read_rows_field.
    cbn [app read_rows]. change (COMMA =? DQ)%N with false.
    change (COMMA =? COMMA)%N with true. cbv iota.
    rewrite IH. now rewrite <- app_assoc.
Qed.

Lemma read_rows_row row done R :
  read_rows AtField [] done (row_text row ++ R)
  = read_rows AtField [] (done ++ [row]) R.
Proof.
  destruct row as [|cell more]; [reflexivity|].
  apply (read_rows_row_cells cell more [] done R).
Qed.

Lemma read_rows_text rows done :
  read_rows AtField [] done (flat_map row_text rows) = Some (done ++ rows).
Proof.
  revert done. induction rows as [|row rows IH]; intros done.
  - simpl. now rewrite app_nil_r.
  - cbn [flat_map]. rewrite read_rows_row, IH. now rewrite <- app_assoc.
Qed.

End ReadBack.

(** X5.  The file [save_csv] writes can be read back: a reader of quoted
    fields finds in it the grid that was saved, whatever the cells hold
    (commas, double quotes, line feeds) and also for rows with no cell.
    So two grids that give the same file are the same grid. *)
Theorem save_csv_read_back
    (rows : list (list str)) (filename : str) (w : world) :
  (exists w' content,
     save_csv rows filename w = Returned tt w'
     /\ files w' !! filename = Some content
     /\ read_csv content = Some rows)
  /\ (forall rows', flat_map row_text rows = flat_map row_text rows' ->
        rows = rows').
Proof.
  split.
  - rewrite save_csv_writes. eexists _, _. split; [reflexivity|].
    cbn [files]. split; [apply lookup_insert_eq|].
    apply (read_rows_text rows []).
  - intros rows' E.
    pose proof (read_rows_text rows []) as H1.
    pose proof (read_rows_text rows' []) as H2.
    rewrite E in H1. cbn [app] in *. congruence.
Qed.

(** ** The fragments of extract_tables *)

Section Fragments.
Implicit Types (s sub html f : str) (k n : nat).

Lemma startswith_take sub s n :
  (length sub <= n)%nat -> startswith sub (take n s) = startswith sub s.
Proof.
  revert s n. induction sub as [|x sub IH]; intros s n Hn.
  - now destruct (take n s), s.
  - destruct n as [|n]; [simpl in Hn; lia|].
    destruct s as [|y s]; [reflexivity|]. cbn [take startswith].
    rewrite IH by (simpl in Hn; lia). reflexivity.
Qed.

Lemma startswith_take_inv sub s n :
  startswith sub (take n s) = true -> startswith sub s = true.
Proof.
  revert s n. induction sub as [|x sub IH]; intros s n; [now destruct s|].
  destruct n as [|n]; [now destruct s|].
  destruct s as [|y s]; [easy|]. cbn [take startswith].
  rewrite !andb_true_iff. intros [Hx H]. split; [assumption|].
  now apply (IH s n).
Qed.

(** Cutting a text behind the first occurrence of a marker keeps that
    occurrence the first. *)
Lemma index_of_take sub s k n :
  index_of sub s = Some k -> (k + length sub <= n)%nat ->
  index_of sub (take n s) = Some k.
Proof.
  revert k n. induction s as [|y s IH]; intros k n.
  - cbn [index_of]. destruct (startswith sub []) eqn:E; [|easy].
    intros [= <-] _. rewrite take_nil. cbn [index_of]. now rewrite E.
  - cbn [index_of]. destruct (startswith sub (y :: s)) eqn:E.
    + intros [= <-] Hn. apply index_of_here.
      rewrite startswith_take by lia. exact E.
    + destruct (index_of sub s) as [k'|] eqn:Ek; [|easy].
      cbn. intros [= <-] Hn. destruct n as [|n]; [lia|].
      cbn [take index_of].
      destruct (startswith sub (y :: take n s)) eqn:E'.
      * apply (startswith_take_inv sub (y :: s) (S n)) in E'. congruence.
      * rewrite (IH k' n eq_refl) by lia. reflexivity.
Qed.

Lemma opener_then_closer f k :
  startswith (lit "<table") f = true ->
  index_of (lit "</table>") f = Some k -> (6 <= k)%nat.
Proof.
  intros Hopen.
  apply startswith_split in Hopen. rewrite Hopen.
  generalize (drop (length (lit "<table")) f). intros f' H.
  cbn in H. destruct (index_of _ f') as [k'|]; [|easy].
  cbn in H. injection H as <-. lia.
Qed.

Lemma find_index_of html sub pos r :
  0 <= pos -> find html sub pos = r -> r <> -1 ->
  exists k, index_of sub (drop (Z.to_nat pos) html) = Some k
            /\ r = pos + Z.of_nat k.
Proof.
  intros Hpos Hfind Hr.
  destruct (Z.le_gt_cases pos (len html)) as [Hle|Hgt].
  - rewrite find_found in Hfind by lia.
    destruct (index_of sub _) as [k|]; [|simpl in Hfind; congruence].
    exists k. split; [reflexivity | now rewrite <- Hfind].
  - rewrite find_past_end in Hfind by lia. congruence.
Qed.

Lemma extract_body_shape html tables pos tables' pos' :
  0 <= pos -> Forall fragment_shape tables ->
  extract_body html (tables, pos) = Some (Next (tables', pos')) ->
  0 <= pos' /\ Forall fragment_shape tables'.
Proof.
  intros Hpos Htables. unfold extract_body. cbv zeta.
  destruct (Z.eqb_spec (find html (lit "<table") pos) (-1)) as [|Hs]; [easy|].
  set (start := find html (lit "<table") pos) in *.
  destruct (Z.eqb_spec (find html (lit "</table>") start) (-1)) as [|He];
    [easy|].
  set (end_ := find html (lit "</table>") start) in *.
  intros [= <- <-].
  pose proof (find_bounds html (lit "<table") pos Hpos Hs) as [Hs1 Hs2].
  fold start in Hs1, Hs2.
  pose proof (find_bounds html (lit "</table>") start ltac:(lia) He)
    as [He1 He2].
  fold end_ in He1, He2. change (len (lit "</table>")) with 8 in He2.
  split; [lia|]. apply Forall_app. split; [assumption|].
  constructor; [|constructor].
  destruct (find_index_of html (lit "<table") pos start Hpos eq_refl Hs)
    as (j & Ej & Hj).
  destruct (find_index_of html (lit "</table>") start end_ ltac:(lia) eq_refl He)
    as (k & Ek & Hk).
  set (D := drop (Z.to_nat start) html) in *.
  assert (Hopen : startswith (lit "<table") D = true).
  { apply index_of_first in Ej as [Ej _].
    apply occurs_at_startswith in Ej. rewrite drop_drop in Ej.
    subst D. replace (Z.to_nat start) with (Z.to_nat pos + j)%nat by lia.
    exact Ej. }
  pose proof (index_of_bound _ _ _ Ek) as Hbound.
  change (length (lit "</table>")) with 8%nat in Hbound.
  pose proof (opener_then_closer D k Hopen Ek) as Hk6.
  assert (Hslice : slice html start (end_ + 8) = take (k + 8) D).
  { unfold slice. pose proof (len_nonneg html).
    rewrite !clamp_in by lia. subst D. f_equal. lia. }
  rewrite Hslice. unfold fragment_shape.
  rewrite length_take. replace (Init.Nat.min (k + 8) (length D)) with (k + 8)%nat
    by lia.
  split; [|split].
  - rewrite startswith_take by (cbn; lia). exact Hopen.
  - replace (k + 8 - 8)%nat with k by lia.
    apply index_of_take; [exact Ek | cbn; lia].
  - lia.
Qed.

Lemma extract_body_break html st st' :
  extract_body html st = Some (Break st') -> st' = st.
Proof.
  destruct st as [tables pos]. unfold extract_body. cbv zeta.
  destruct (_ =? _); [now intros [= <-]|].
  destruct (_ =? _); [now intros [= <-] | easy].
Qed.

Lemma extract_tables_shape fuel html frags :
  extract_tables fuel html = Some frags -> Forall fragment_shape frags.
Proof.
  unfold extract_tables.
  destruct (while_true _ fuel _) as [[ts pos]|] eqn:E; [|easy].
  intros [= <-].
  apply (while_true_invariant _
           (fun st => 0 <= snd st /\ Forall fragment_shape (fst st))) in E.
  - apply E.
  - intros [t p] [t' p'] [Hp Ht] Hbody.
    eapply extract_body_shape; eassumption.
  - intros st st' Hst Hbody. apply extract_body_break in Hbody. now subst.
  - split; [simpl; lia | constructor].
Qed.

(** A text with the shape of a fragment is its own only fragment. *)
Lemma extract_tables_of_fragment n f :
  fragment_shape f -> extract_tables (S (S n)) f = Some [f].
Proof.
  intros (Hopen & Hclose & Hlen).
  assert (Hstart : find f (lit "<table") 0 = 0).
  { rewrite find_at_0, (index_of_here _ _ Hopen). reflexivity. }
  assert (Hend : find f (lit "</table>") 0 = len f - 8).
  { rewrite find_at_0, Hclose. unfold found, len. lia. }
  assert (Hslice : slice f 0 (len f - 8 + 8) = f).
  { replace (len f - 8 + 8) with (len [] + len f) by (unfold len; simpl; lia).
    change 0 with (len []). rewrite <- (app_nil_r f) at 1.
    apply (slice_app_mid [] f []). }
  assert (Hnext : find f (lit "<table") (len f - 8 + 8) = -1).
  { replace (len f - 8 + 8) with (len f) by lia.
    apply (find_at_end f (lit "table")). }
  unfold extract_tables. cbn [while_true]. unfold extract_body at 1.
  cbv zeta. rewrite Hstart. change (0 =? -1) with false. cbv iota.
  rewrite Hend.
  rewrite (proj2 (Z.eqb_neq _ _)) by (unfold len; lia).
  rewrite Hslice. unfold extract_body at 1. cbv zeta.
  rewrite Hnext. reflexivity.
Qed.

End Fragments.

(** X6.  Every fragment [extract_tables] returns, on any document, opens
    with [<table], holds [</table>] once only, as its last eight
    characters, and is at least fourteen characters long. *)
Theorem extract_tables_fragment_shape
    (fuel : nat) (html : str) (frags : list str) :
  extract_tables fuel html = Some frags -> Forall fragment_shape frags.
Proof. apply extract_tables_shape. Qed.

Lemma extract_tables_fragment_shape_witness :
  Forall fragment_shape
    [lit "<table><table></table>"; lit "<table id=x>a</table>"].
Proof.
  apply (extract_tables_fragment_shape 60
           (lit "p<table><table></table></table><table id=x>a</table><table>")).
  vm_compute. reflexivity.
Defined.

(** X7.  Extracting again changes nothing: each fragment of a document is
    the one and only fragment of itself. *)
Theorem extract_tables_again
    (fuel n : nat) (html : str) (frags : list str) :
  extract_tables fuel html = Some frags ->
  Forall (fun f => extract_tables (S (S n)) f = Some [f]) frags.
Proof.
  intros H. apply extract_tables_shape in H.
  eapply Forall_impl; [exact H|]. intros f Hf.
  now apply extract_tables_of_fragment.
Qed.

Lemma extract_tables_again_witness :
  Forall (fun f => extract_tables 2 f = Some [f])
    [lit "<table><table></table>"; lit "<table id=x>a</table>"].
Proof.
  apply (extract_tables_again 60 0
           (lit "p<table><table></table></table><table id=x>a</table><table>")).
  vm_compute. reflexivity.
Defined.

(** ** What a run touches *)

Section Touching.
Implicit Types (w : world) (source html prog path : str).

Lemma fetch_html_url_fails source w :
  is_url source = true -> http w source = None ->
  fetch_html source w = Uncaught w.
Proof.
  intros Hurl Hget. unfold fetch_html. fold (is_url source). rewrite Hurl.
  unfold proc_bind, http_get. now rewrite Hget.
Qed.

Lemma save_table_untouched fuel it w w' path :
  final_world (save_table fuel it w) = Some w' ->
  (forall i, path <> output_name i) ->
  files w' !! path = files w !! path /\ http w' = http w.
Proof.
  destruct it as [i table_html]. unfold save_table, proc_bind, run_pure.
  destruct (parse_table fuel table_html) as [[|row rows]|]; [| |easy].
  - unfold proc_ret. now intros [= <-].
  - rewrite save_csv_writes. intros [= <-] Hpath. cbn [files http].
    split; [|reflexivity]. now apply lookup_insert_ne.
Qed.

Lemma save_table_returns fuel it w :
  (exists w', save_table fuel it w = Returned tt w')
  \/ save_table fuel it w = Diverged.
Proof.
  destruct it as [i table_html]. unfold save_table, proc_bind, run_pure.
  destruct (parse_table fuel table_html) as [[|row rows]|]; [| |now right].
  - left. now exists w.
  - left. rewrite save_csv_writes. eauto.
Qed.

Lemma save_loop_untouched fuel items w w' path :
  final_world (for_each items (save_table fuel) w) = Some w' ->
  (forall i, path <> output_name i) ->
  files w' !! path = files w !! path /\ http w' = http w.
Proof.
  revert w. induction items as [|it items IH]; intros w.
  - cbn. now intros [= <-].
  - cbn [for_each]. unfold proc_bind at 1.
    destruct (save_table_returns fuel it w) as [[w1 E] | E]; rewrite E; [|easy].
    intros Hfinal Hpath.
    destruct (IH w1 Hfinal Hpath) as [H1 H2].
    assert (Hw1 : final_world (save_table fuel it w) = Some w1)
      by now rewrite E.
    destruct (save_table_untouched fuel it w w1 path Hw1 Hpath) as [H3 H4].
    split; congruence.
Qed.

Lemma fetch_html_untouched source w r path :
  final_world (fetch_html source w) = Some r ->
  path <> lit "page.html" ->
  files r !! path = files w !! path /\ http r = http w.
Proof.
  intros Hfinal Hpath.
  destruct (is_url source) eqn:Hurl.
  - destruct (http w source) as [body|] eqn:Hget.
    + rewrite (fetch_html_url source body w Hurl Hget) in Hfinal.
      injection Hfinal as <-. cbn [files http]. split; [|reflexivity].
      apply lookup_insert_ne. congruence.
    + rewrite (fetch_html_url_fails source w Hurl Hget) in Hfinal.
      now injection Hfinal as <-.
  - destruct (files w !! source) as [text|] eqn:Hfile.
    + rewrite (fetch_html_file source text w Hurl Hfile) in Hfinal.
      now injection Hfinal as <-.
    + rewrite (fetch_html_missing source w Hurl Hfile) in Hfinal.
      now injection Hfinal as <-.
Qed.

Lemma fetch_html_cases source w :
  (exists html w1, fetch_html source w = Returned html w1)
  \/ (exists c w1, fetch_html source w = Exited c w1)
  \/ (exists w1, fetch_html source w = Uncaught w1).
Proof.
  destruct (is_url source) eqn:Hurl.
  - destruct (http w source) as [body|] eqn:Hget.
    + left. rewrite (fetch_html_url source body w Hurl Hget). eauto.
    + right. right. rewrite (fetch_html_url_fails source w Hurl Hget). eauto.
  - destruct (files w !! source) as [text|] eqn:Hfile.
    + left. rewrite (fetch_html_file source text w Hurl Hfile). eauto.
    + right. left. rewrite (fetch_html_missing source w Hurl Hfile). eauto.
Qed.

Lemma main_untouched fuel argv w w' path :
  final_world (main fuel argv w) = Some w' ->
  path <> lit "page.html" -> (forall i, path <> output_name i) ->
  files w' !! path = files w !! path /\ http w' = http w.
Proof.
  intros Hfinal Hpage Hout.
  destruct (Nat.eq_dec (length argv) 2%nat) as [Hlen|Hlen].
  2:{ rewrite main_usage in Hfinal by assumption. now injection Hfinal as <-. }
  destruct argv as [|prog [|source [|x l]]]; try discriminate Hlen.
  destruct (fetch_html_cases source w)
    as [(html & w1 & E) | [(c & w1 & E) | (w1 & E)]].
  - assert (Hw1 : final_world (fetch_html source w) = Some w1) by now rewrite E.
    destruct (fetch_html_untouched source w w1 path Hw1 Hpage) as [H1 H2].
    rewrite (main_fetched fuel prog source html w w1 E) in Hfinal.
    destruct (extract_tables fuel html) as [[|t ts]|]; [| |easy].
    + injection Hfinal as <-. now cbn [printed files http].
    + destruct (save_loop_untouched fuel _ w1 w' path Hfinal Hout) as [H3 H4].
      split; congruence.
  - assert (Hw1 : final_world (fetch_html source w) = Some w1) by now rewrite E.
    destruct (fetch_html_untouched source w w1 path Hw1 Hpage) as [H1 H2].
    rewrite (main_failed_fetch fuel prog source c w w1 E) in Hfinal.
    now injection Hfinal as <-.
  - assert (Hw1 : final_world (fetch_html source w) = Some w1) by now rewrite E.
    destruct (fetch_html_untouched source w w1 path Hw1 Hpage) as [H1 H2].
    unfold main in Hfinal. unfold proc_bind at 1 in Hfinal. rewrite E in Hfinal.
    now injection Hfinal as <-.
Qed.

End Touching.

(** X8.  A source that starts with [http://] or [https://] is fetched from
    the network even when a file of that name exists.  The body is
    returned and becomes the whole content of [page.html], whatever that
    file held, and one line is printed.  When the request fails nothing is
    written or printed: the exception is not caught, and [main] ends with
    status 1. *)
Theorem fetch_html_from_url (fuel : nat) (prog source : str) (w : world) :
  is_url source = true ->
  (forall body, http w source = Some body ->
     fetch_html source w
     = Returned body
         (World (<[lit "page.html" := body]> (files w)) (http w)
                (stdout w ++ [lit "HTML saved as page.html"])))
  /\ (http w source = None ->
        fetch_html source w = Uncaught w
        /\ main fuel [prog; source] w = Uncaught w
        /\ exit_status (main fuel [prog; source] w) = Some 1).
Proof.
  intros Hurl. split.
  - intros body Hget. now apply fetch_html_url.
  - intros Hget.
    pose proof (fetch_html_url_fails source w Hurl Hget) as E.
    assert (Hmain : main fuel [prog; source] w = Uncaught w).
    { unfold main. unfold proc_bind at 1. now rewrite E. }
    now rewrite Hmain.
Qed.

Lemma fetch_html_from_url_witness :
  (forall body,
     http (World {[ lit "http://a" := lit "old" ]} (fun _ => None) [])
       (lit "http://a") = Some body ->
     fetch_html (lit "http://a")
       (World {[ lit "http://a" := lit "old" ]} (fun _ => None) [])
     = Returned body
         (World (<[lit "page.html" := body]>
                   (files (World {[ lit "http://a" := lit "old" ]}
                                 (fun _ => None) [])))
                (http (World {[ lit "http://a" := lit "old" ]}
                             (fun _ => None) []))
                (stdout (World {[ lit "http://a" := lit "old" ]}
                               (fun _ => None) [])
                   ++ [lit "HTML saved as page.html"])))
  /\ (http (World {[ lit "http://a" := lit "old" ]} (fun _ => None) [])
        (lit "http://a") = None ->
      fetch_html (lit "http://a")
        (World {[ lit "http://a" := lit "old" ]} (fun _ => None) [])
      = Uncaught (World {[ lit "http://a" := lit "old" ]} (fun _ => None) [])
      /\ main 5 [lit "project1.py"; lit "http://a"]
           (World {[ lit "http://a" := lit "old" ]} (fun _ => None) [])
         = Uncaught
             (World {[ lit "http://a" := lit "old" ]} (fun _ => None) [])
      /\ exit_status
           (main 5 [lit "project1.py"; lit "http://a"]
              (World {[ lit "http://a" := lit "old" ]} (fun _ => None) []))
         = Some 1).
Proof.
  apply (fetch_html_from_url 5 (lit "project1.py") (lit "http://a")
           (World {[ lit "http://a" := lit "old" ]} (fun _ => None) [])).
  reflexivity.
Defined.

(** X9.  A run that ends, however it ends, leaves every file alone whose
    name is neither [page.html] nor [output_N.csv] for some N, and never
    changes what the network answers. *)
Theorem main_touches_only_its_outputs
    (fuel : nat) (argv : list str) (w w' : world) (path : str) :
  final_world (main fuel argv w) = Some w' ->
  path <> lit "page.html" ->
  (forall i, path <> output_name i) ->
  files w' !! path = files w !! path /\ http w' = http w.
Proof. apply main_untouched. Qed.

Lemma main_touches_only_its_outputs_witness :
  files (World (<[lit "output_1.csv" := [DQ] ++ lit "a" ++ [DQ; LF]]>
                  (files two_tables_world))
               (http two_tables_world)
               [lit "CSV saved as output_1.csv"])
    !! lit "in.html"
  = files two_tables_world !! lit "in.html"
  /\ http (World (<[lit "output_1.csv" := [DQ] ++ lit "a" ++ [DQ; LF]]>
                    (files two_tables_world))
                 (http two_tables_world)
                 [lit "CSV saved as output_1.csv"])
     = http two_tables_world.
Proof.
  apply (main_touches_only_its_outputs 60
           [lit "project1.py"; lit "in.html"] two_tables_world).
  - vm_compute. reflexivity.
  - vm_compute. discriminate.
  - intros i E. unfold output_name in E. simpl in E. discriminate E.
Defined.

(** ** Tables without rows, files written twice *)

Section Quiet.
Implicit Types (w : world) (tables : list str).

Lemma saved_all_empty i (tables : list str) fs :
  saved i (map (fun _ => []) tables) fs = fs
  /\ saved_log i (map (fun _ => []) tables) = [].
Proof.
  revert i. induction tables as [|t tables IH]; intros i; [easy|].
  cbn [map saved saved_log]. apply IH.
Qed.

Lemma find_absent s sub pos : absent sub s -> 0 <= pos -> find s sub pos = -1.
Proof.
  intros Habs Hpos. destruct (Z.le_gt_cases pos (len s)) as [Hle|Hgt].
  - rewrite find_found by lia. rewrite absent_index_of; [reflexivity|].
    intros j Hj. apply (Habs (Z.to_nat pos + j)%nat).
    unfold occurs_at in *. now rewrite <- drop_drop.
  - now apply find_past_end.
Qed.

(** A grid that has a row keeps it. *)
Lemma row_loop_keeps_rows fuel table_html n st r :
  fst st <> [] ->
  while_true (row_body fuel table_html) n st = Some r -> fst r <> [].
Proof.
  apply (while_true_invariant (row_body fuel table_html)
           (fun st => fst st <> [])).
  - intros [rows pos] [rows' pos'] Hrows. unfold row_body. cbv zeta.
    destruct (_ =? _); [easy|]. destruct (_ =? _); [easy|].
    destruct (parse_cells fuel _) as [cells|]; [|easy].
    intros [= <- _]. cbn [fst]. now destruct rows.
  - intros s s' Hs Hbody. apply row_body_break in Hbody. now subst.
Qed.

(** The grid of a table is empty exactly when its text holds no [<tr],
    or no [</tr>] behind the first [<tr]. *)
Lemma parse_table_no_row fuel table_html :
  parse_table (S fuel) table_html = Some []
  <-> find table_html (lit "<tr") 0 = -1
      \/ find table_html (lit "</tr>") (find table_html (lit "<tr") 0) = -1.
Proof.
  unfold parse_table. cbn [while_true].
  destruct (row_body (S fuel) table_html ([], 0)) as [[s'|s']|] eqn:Hbody;
    unfold row_body in Hbody; cbv zeta in Hbody;
    destruct (Z.eqb_spec (find table_html (lit "<tr") 0) (-1)) as [E1|E1];
    try discriminate Hbody;
    try (injection Hbody as <-; split; [now left | reflexivity]);
    destruct (Z.eqb_spec
                (find table_html (lit "</tr>")
                   (find table_html (lit "<tr") 0)) (-1)) as [E2|E2];
    try discriminate Hbody;
    try (injection Hbody as <-; split; [now right | reflexivity]).
  all: destruct (parse_cells (S fuel) _) as [cells|]; try discriminate Hbody.
  - injection Hbody as <-. split; [|tauto]. intros H. exfalso.
    destruct (while_true _ fuel _) as [r|] eqn:Hloop; [|discriminate H].
    apply row_loop_keeps_rows in Hloop; [|discriminate].
    injection H as H. contradiction.
  - split; [discriminate | tauto].
Qed.

End Quiet.

(** X10.  When the document has tables but none of them has a row, that
    is, when the grid of each of them is empty, the run writes no file and
    prints nothing about them, and still ends with status 0: only a
    document with no table at all is an error.  The grid of a table is
    empty exactly when its text holds no [<tr], or no [</tr>] behind its
    first [<tr]. *)
Theorem main_tables_without_rows
    (fuel : nat) (prog source html : str) (w w1 : world) (tables : list str) :
  fetch_html source w = Returned html w1 ->
  extract_tables (S fuel) html = Some tables ->
  tables <> [] ->
  Forall (fun t => parse_table (S fuel) t = Some []) tables ->
  main (S fuel) [prog; source] w = Returned tt w1
  /\ exit_status (main (S fuel) [prog; source] w) = Some 0
  /\ (forall t,
        parse_table (S fuel) t = Some []
        <-> find t (lit "<tr") 0 = -1
            \/ find t (lit "</tr>") (find t (lit "<tr") 0) = -1).
Proof.
  intros Hfetch Hext Hne Hrows.
  assert (E : main (S fuel) [prog; source] w = Returned tt w1).
  { rewrite (main_fetched (S fuel) prog source html w w1 Hfetch), Hext.
    destruct tables as [|t ts]; [contradiction|].
    rewrite (save_loop (S fuel) (t :: ts) (map (fun _ => []) (t :: ts)) 1 w1).
    - destruct (saved_all_empty 1 (t :: ts) (files w1)) as [-> ->].
      rewrite app_nil_r. now destruct w1.
    - clear -Hrows.
      induction Hrows as [|x l Hx _ IH]; constructor; [exact Hx | exact IH]. }
  split; [exact E|]. split; [now rewrite E|].
  intros t. apply parse_table_no_row.
Qed.

Lemma main_tables_without_rows_witness :
  main 40 [lit "project1.py"; lit "in.html"]
    (World {[ lit "in.html" := lit "<table></tr></table><table><tr>x</table>" ]}
           (fun _ => None) [])
  = Returned tt
      (World {[ lit "in.html" := lit "<table></tr></table><table><tr>x</table>" ]}
             (fun _ => None) [])
  /\ exit_status
       (main 40 [lit "project1.py"; lit "in.html"]
          (World {[ lit "in.html"
                    := lit "<table></tr></table><table><tr>x</table>" ]}
                 (fun _ => None) []))
     = Some 0
  /\ (forall t,
        parse_table 40 t = Some []
        <-> find t (lit "<tr") 0 = -1
            \/ find t (lit "</tr>") (find t (lit "<tr") 0) = -1).
Proof.
  apply (main_tables_without_rows 39 (lit "project1.py") (lit "in.html")
           (lit "<table></tr></table><table><tr>x</table>")
           (World {[ lit "in.html"
                     := lit "<table></tr></table><table><tr>x</table>" ]}
                  (fun _ => None) [])
           (World {[ lit "in.html"
                     := lit "<table></tr></table><table><tr>x</table>" ]}
                  (fun _ => None) [])
           [lit "<table></tr></table>"; lit "<table><tr>x</table>"]).
  - vm_compute. reflexivity.
  - vm_compute. reflexivity.
  - discriminate.
  - repeat constructor; vm_compute; reflexivity.
Defined.

(** X11.  [save_csv] replaces the file: what the file held before, and an
    earlier save under the same name, leave no trace, and no other file
    changes. *)
Theorem save_csv_replaces
    (rows1 rows2 : list (list str)) (filename : str) (w : world) :
  exists w',
    proc_bind (save_csv rows1 filename) (fun _ => save_csv rows2 filename) w
    = Returned tt w'
    /\ files w' = <[filename := flat_map row_text rows2]> (files w)
    /\ (forall path, path <> filename -> files w' !! path = files w !! path).
Proof.
  unfold proc_bind. rewrite !save_csv_writes. cbn [files http stdout].
  eexists. split; [reflexivity|]. cbn [files].
  rewrite insert_insert_eq. split; [reflexivity|].
  intros path Hpath. now apply lookup_insert_ne.
Qed.

(** ** Every unclosed first cell hangs the parser *)

Section Hanging.
Implicit Types (q s R x rest before after : str) (header : bool).

Lemma index_of_lt_plain q s R :
  LT ∉ s -> startswith q (s ++ R) = false ->
  index_of (LT :: q) (LT :: s ++ R)
  = (fun k => S (length s + k)) <$> index_of (LT :: q) R.
Proof.
  intros Hs Hq. cbn [index_of startswith]. rewrite N.eqb_refl, Hq.
  cbn [andb]. rewrite index_of_skip_plain by assumption.
  now destruct (index_of (LT :: q) R).
Qed.

Lemma index_of_plain_none q s : LT ∉ s -> index_of (LT :: q) s = None.
Proof.
  intros Hs. rewrite <- (app_nil_r s).
  now rewrite index_of_skip_plain by assumption.
Qed.

Lemma find_lower s sub pos : 0 <= pos -> -1 <= find s sub pos.
Proof.
  intros Hpos. destruct (Z.eq_dec (find s sub pos) (-1)) as [->|H]; [lia|].
  pose proof (find_bounds s sub pos Hpos H). lia.
Qed.

Variables (header : bool) (x rest : str).
Hypothesis Hx : x <> [].
Hypothesis Hxp : LT ∉ x.
Hypothesis Hrp : LT ∉ rest.

Let name : str := if header then lit "th" else lit "td".
Let other : str := if header then lit "td" else lit "th".
Let row : str := unclosed_row header x rest.

Lemma hanging_row_shape :
  row = LT :: (lit "tr" ++ x) ++ (LT :: (name ++ rest) ++ []).
Proof. unfold row, unclosed_row, name. now rewrite app_nil_r. Qed.

Lemma hanging_row_plain_parts :
  (LT ∉ lit "tr" ++ x) /\ (LT ∉ name ++ rest).
Proof.
  rewrite !not_elem_of_app. repeat split; try assumption.
  - compute_done.
  - unfold name. destruct header; compute_done.
Qed.

Lemma hanging_row_no_closer q :
  q = lit "/td>" \/ q = lit "/th>" \/ q = lit "/tr>" ->
  absent (LT :: q) row.
Proof.
  intros Hq. apply index_of_absent. rewrite hanging_row_shape.
  destruct hanging_row_plain_parts as [H1 H2].
  rewrite index_of_lt_plain; [|assumption|].
  2:{ destruct Hq as [-> | [-> | ->]]; reflexivity. }
  rewrite index_of_lt_plain; [reflexivity | assumption |].
  unfold name. destruct Hq as [-> | [-> | ->]]; destruct header; reflexivity.
Qed.

Lemma hanging_row_own_from_0 :
  index_of (LT :: name) row = Some (length (lit "<tr" ++ x)).
Proof.
  rewrite hanging_row_shape.
  destruct hanging_row_plain_parts as [H1 H2].
  rewrite index_of_lt_plain; [|assumption|].
  2:{ unfold name. destruct header; reflexivity. }
  rewrite index_of_here.
  - cbn. rewrite Nat.add_0_r. reflexivity.
  - rewrite app_nil_r. apply (startswith_app (LT :: name)).
Qed.

Lemma hanging_row_other_from_0 : index_of (LT :: other) row = None.
Proof.
  rewrite hanging_row_shape.
  destruct hanging_row_plain_parts as [H1 H2].
  rewrite index_of_lt_plain; [|assumption|].
  2:{ unfold other. destruct header; reflexivity. }
  rewrite index_of_lt_plain; [reflexivity | assumption |].
  unfold name, other. destruct header; reflexivity.
Qed.

Lemma hanging_row_from_4 :
  exists x', drop 4 row = x' ++ LT :: name ++ rest
             /\ (LT ∉ x') /\ S (length x') = length x.
Proof.
  assert (H : forall y, y <> [] -> LT ∉ y ->
            exists x', drop 4 (unclosed_row header y rest)
                       = x' ++ LT :: name ++ rest
                       /\ (LT ∉ x') /\ S (length x') = length y).
  { intros [|y0 y'] Hy Hyp; [contradiction|].
    exists y'. apply not_elem_of_cons in Hyp as [_ Hy'].
    unfold unclosed_row, name. now repeat split. }
  exact (H x Hx Hxp).
Qed.

Lemma hanging_row_long : 4 <= len row.
Proof.
  assert (H : forall y, y <> [] -> 4 <= len (unclosed_row header y rest)).
  { intros [|y0 y'] Hy; [contradiction|].
    unfold unclosed_row, len. rewrite length_app.
    change (length (lit "<tr")) with 3%nat. cbn [app length]. lia. }
  exact (H x Hx).
Qed.

(** Where the two markers are found, from position 0 and from
    position 4. *)
Lemma hanging_row_finds p :
  p = 0 \/ p = 4 ->
  find row (LT :: name) p = len (lit "<tr" ++ x)
  /\ find row (LT :: other) p = -1.
Proof.
  intros [-> | ->].
  - rewrite !find_at_0, hanging_row_own_from_0, hanging_row_other_from_0.
    split; [unfold found, len; lia | reflexivity].
  - pose proof hanging_row_long.
    destruct hanging_row_from_4 as (x' & Hdrop & Hx' & Hlen).
    rewrite !find_found by lia. change (Z.to_nat 4) with 4%nat.
    rewrite Hdrop, !index_of_skip_plain by assumption.
    rewrite index_of_here by apply (startswith_app (LT :: name)).
    assert (E : index_of (LT :: other) (LT :: name ++ rest) = None).
    { change (LT :: name ++ rest) with (LT :: (name ++ rest)).
      rewrite <- (app_nil_r (name ++ rest)).
      rewrite index_of_lt_plain; [reflexivity | apply hanging_row_plain_parts |].
      unfold name, other. destruct header; reflexivity. }
    rewrite E. split; [|reflexivity].
    cbn [fmap option_fmap option_map found]. unfold len.
    rewrite length_app. change (length (lit "<tr")) with 3%nat. lia.
Qed.

Lemma cell_body_unclosed_row fuel cells p :
  p = 0 \/ p = 4 ->
  cell_body fuel row (cells, p) = None
  \/ exists cells', cell_body fuel row (cells, p) = Some (Next (cells', 4)).
Proof.
  intros Hp. destruct (hanging_row_finds p Hp) as [Hown Hother].
  pose proof (len_nonneg (lit "<tr" ++ x)) as Hk.
  pose proof (find_lower row [GT] (len (lit "<tr" ++ x)) Hk) as Hgt.
  pose proof (hanging_row_no_closer (lit "/th>") (or_intror (or_introl eq_refl))) as Hth.
  pose proof (hanging_row_no_closer (lit "/td>") (or_introl eq_refl)) as Htd.
  change (LT :: lit "/th>") with (lit "</th>") in Hth.
  change (LT :: lit "/td>") with (lit "</td>") in Htd.
  unfold cell_body. cbv zeta. unfold name, other in *.
  destruct header.
  - change (LT :: lit "th") with (lit "<th") in Hown.
    change (LT :: lit "td") with (lit "<td") in Hother.
    rewrite Hown, Hother.
    rewrite (proj2 (Z.eqb_neq (len (lit "<tr" ++ x)) (-1))) by lia.
    cbn [Z.eqb Pos.eqb andb negb]. cbv iota.
    rewrite (find_absent _ (lit "</th>")) by (assumption || lia).
    destruct (clean_html fuel _); [right | now left]. now eexists.
  - change (LT :: lit "td") with (lit "<td") in Hown.
    change (LT :: lit "th") with (lit "<th") in Hother.
    rewrite Hown, Hother.
    rewrite (proj2 (Z.eqb_neq (len (lit "<tr" ++ x)) (-1))) by lia.
    cbn [Z.eqb Pos.eqb andb negb orb]. rewrite orb_true_r. cbv iota.
    rewrite (find_absent _ (lit "</td>")) by (assumption || lia).
    destruct (clean_html fuel _); [right | now left]. now eexists.
Qed.

Lemma parse_cells_unclosed_row fuel : parse_cells fuel row = None.
Proof.
  unfold parse_cells.
  rewrite (while_true_stuck _ (fun st => snd st = 0 \/ snd st = 4));
    [reflexivity | | now left].
  intros [cells p] Hp. cbn [snd] in Hp.
  destruct (cell_body_unclosed_row fuel cells p Hp) as [E | [cells' E]].
  - now left.
  - right. exists (cells', 4). split; [exact E | now right].
Qed.

Lemma parse_table_unclosed_first_cell fuel before after :
  absent (lit "<tr") before ->
  parse_table fuel (before ++ row ++ lit "</tr>" ++ after) = None.
Proof.
  intros Hbefore. unfold parse_table.
  destruct fuel as [|fuel]; [reflexivity|]. cbn [while_true].
  set (table := before ++ row ++ lit "</tr>" ++ after).
  assert (Hstart : find table (lit "<tr") 0 = len before).
  { rewrite find_at_0. unfold table.
    assert (Hrow : row ++ lit "</tr>" ++ after
                   = LT :: lit "tr"
                       ++ (x ++ LT :: name ++ rest) ++ lit "</tr>" ++ after).
    { unfold row, unclosed_row, name. now rewrite <- app_assoc. }
    rewrite Hrow.
    pose proof (index_of_app_opener (lit "tr") before
                  (lit "tr" ++ (x ++ LT :: name ++ rest) ++ lit "</tr>" ++ after)
                  ltac:(compute_done) eq_refl) as H.
    pose proof (absent_index_of _ _ Hbefore) as Hb.
    change (lit "<tr") with (LT :: lit "tr") in Hb. rewrite Hb in H.
    change (lit "<tr") with (LT :: lit "tr"). rewrite H.
    unfold found, len. cbn [default]. lia. }
  assert (Hend : find table (lit "</tr>") (len before) = len before + len row).
  { unfold table. rewrite find_app_at.
    pose proof (index_of_app_opener (lit "/tr>") row (lit "/tr>" ++ after)
                  ltac:(compute_done) eq_refl) as H.
    rewrite (absent_index_of _ _
               (hanging_row_no_closer (lit "/tr>")
                  (or_intror (or_intror eq_refl)))) in H.
    change (lit "</tr>") with (LT :: lit "/tr>").
    change ((LT :: lit "/tr>") ++ after) with (LT :: lit "/tr>" ++ after).
    rewrite H. unfold found, len. cbn [default]. lia. }
  assert (Hslice : slice table (len before) (len before + len row) = row)
    by apply slice_app_mid.
  pose proof (len_nonneg before). pose proof (len_nonneg row).
  unfold row_body. cbv zeta. rewrite Hstart.
  rewrite (proj2 (Z.eqb_neq _ _)) by lia. rewrite Hend.
  rewrite (proj2 (Z.eqb_neq _ _)) by lia.
  rewrite Hslice, parse_cells_unclosed_row. reflexivity.
Qed.

End Hanging.

(** X12.  The parser hangs on a whole family of tables, not on one: when
    the first row of a table opens a [td] or [th] cell at least one
    character behind [<tr] and nothing but plain text follows in the row,
    so that the cell is never closed, [parse_table] does not return,
    whatever the fuel and whatever stands before the row and after it. *)
Theorem parse_table_hangs_on_unclosed_cell
    (fuel : nat) (header : bool) (before x rest after : str) :
  x <> [] -> LT ∉ x -> LT ∉ rest -> absent (lit "<tr") before ->
  parse_table fuel
    (before ++ unclosed_row header x rest ++ lit "</tr>" ++ after)
  = None.
Proof.
  intros Hx Hxp Hrp Hbefore.
  now apply parse_table_unclosed_first_cell.
Qed.

Lemma parse_table_hangs_on_unclosed_cell_witness :
  parse_table 50
    (lit "<table>" ++ unclosed_row true (lit " id=r>") (lit " colspan=2>Name")
       ++ lit "</tr>" ++ lit "<tr><td>x</td></tr></table>")
  = None.
Proof.
  apply (parse_table_hangs_on_unclosed_cell 50 true (lit "<table>")
           (lit " id=r>") (lit " colspan=2>Name")
           (lit "<tr><td>x</td></tr></table>")).
  - discriminate.
  - compute_done.
  - compute_done.
  - apply index_of_absent. vm_compute. reflexivity.
Defined.


(** ** A source that is a file *)

Section LocalSource.
Implicit Types (w : world) (source prog path : str) (argv : list str).

Lemma fetch_html_local_keeps source w r :
  is_url source = false ->
  final_world (fetch_html source w) = Some r -> files r = files w.
Proof.
  intros Hurl Hfinal.
  destruct (files w !! source) as [text|] eqn:Hfile.
  - rewrite (fetch_html_file source text w Hurl Hfile) in Hfinal.
    now injection Hfinal as <-.
  - rewrite (fetch_html_missing source w Hurl Hfile) in Hfinal.
    now injection Hfinal as <-.
Qed.

Lemma page_not_output i : lit "page.html" <> output_name i.
Proof. intros E. unfold output_name in E. simpl in E. discriminate E. Qed.

Lemma main_local_untouched fuel argv w w' path :
  (forall prog source, argv = [prog; source] -> is_url source = false) ->
  final_world (main fuel argv w) = Some w' ->
  (forall i, path <> output_name i) ->
  files w' !! path = files w !! path.
Proof.
  intros Hlocal Hfinal Hout.
  destruct (Nat.eq_dec (length argv) 2%nat) as [Hlen|Hlen].
  2:{ rewrite main_usage in Hfinal by assumption. now injection Hfinal as <-. }
  destruct argv as [|prog [|source [|x l]]]; try discriminate Hlen.
  pose proof (Hlocal prog source eq_refl) as Hurl.
  destruct (fetch_html_cases source w)
    as [(html & w1 & E) | [(c & w1 & E) | (w1 & E)]].
  - assert (Hw1 : final_world (fetch_html source w) = Some w1) by now rewrite E.
    rewrite <- (fetch_html_local_keeps source w w1 Hurl Hw1).
    rewrite (main_fetched fuel prog source html w w1 E) in Hfinal.
    destruct (extract_tables fuel html) as [[|t ts]|]; [| |easy].
    + injection Hfinal as <-. now cbn [printed files].
    + now destruct (save_loop_untouched fuel _ w1 w' path Hfinal Hout).
  - assert (Hw1 : final_world (fetch_html source w) = Some w1) by now rewrite E.
    rewrite <- (fetch_html_local_keeps source w w1 Hurl Hw1).
    rewrite (main_failed_fetch fuel prog source c w w1 E) in Hfinal.
    now injection Hfinal as <-.
  - assert (Hw1 : final_world (fetch_html source w) = Some w1) by now rewrite E.
    rewrite <- (fetch_html_local_keeps source w w1 Hurl Hw1).
    unfold main in Hfinal. unfold proc_bind at 1 in Hfinal. rewrite E in Hfinal.
    now injection Hfinal as <-.
Qed.

End LocalSource.

(** X13.  [page.html] is written for a URL only: a run whose argument is
    not a URL, or whose argument count is wrong, leaves [page.html] as it
    was (absent when it was absent), and changes no file but those named
    [output_N.csv]; in particular the source file itself is only read,
    unless it bears such a name. *)
Theorem main_keeps_page_for_local_source
    (fuel : nat) (argv : list str) (w w' : world) :
  (forall prog source, argv = [prog; source] -> is_url source = false) ->
  final_world (main fuel argv w) = Some w' ->
  files w' !! lit "page.html" = files w !! lit "page.html"
  /\ (forall path, (forall i, path <> output_name i) ->
        files w' !! path = files w !! path).
Proof.
  intros Hlocal Hfinal. split.
  - apply (main_local_untouched fuel argv w w' _ Hlocal Hfinal).
    intros i. apply page_not_output.
  - intros path Hpath.
    now apply (main_local_untouched fuel argv w w' path Hlocal Hfinal).
Qed.

Lemma main_keeps_page_for_local_source_witness :
  files (World (<[lit "output_1.csv" := [DQ] ++ lit "a" ++ [DQ; LF]]>
                  (files two_tables_world))
               (http two_tables_world)
               [lit "CSV saved as output_1.csv"])
    !! lit "page.html"
  = files two_tables_world !! lit "page.html"
  /\ (forall path, (forall i, path <> output_name i) ->
        files (World (<[lit "output_1.csv" := [DQ] ++ lit "a" ++ [DQ; LF]]>
                        (files two_tables_world))
                     (http two_tables_world)
                     [lit "CSV saved as output_1.csv"])
          !! path
        = files two_tables_world !! path).
Proof.
  apply (main_keeps_page_for_local_source 60
           [lit "project1.py"; lit "in.html"] two_tables_world).
  - intros prog source [= <- <-]. reflexivity.
  - vm_compute. reflexivity.
Defined.

(** ** Fragments are pieces of the document *)

Section Pieces.
Implicit Types (doc rest : str) (gaps frags : list str).

Lemma extraction_interleave doc frags :
  extraction doc frags ->
  exists gaps rest,
    length gaps = length frags /\ doc = interleave gaps frags rest.
Proof.
  induction 1 as [doc _ | gap rest _ _ | gap body rest frags _ _ _ IH].
  - now exists [], doc.
  - now exists [], (gap ++ rest).
  - destruct IH as (gaps & rest' & Hlen & ->).
    exists (gap :: gaps), rest'. split; [now cbn; rewrite Hlen|].
    cbn [interleave]. now rewrite <- !app_assoc.
Qed.

Lemma interleave_length gaps frags rest :
  length gaps = length frags ->
  length (interleave gaps frags rest)
  = (length (concat gaps) + length (concat frags) + length rest)%nat.
Proof.
  revert frags. induction gaps as [|g gaps IH]; intros [|f frags] Hlen;
    try discriminate Hlen; [reflexivity|].
  injection Hlen as Hlen. cbn [interleave concat].
  rewrite !length_app, (IH frags Hlen). lia.
Qed.

End Pieces.

(** X14.  The fragments are disjoint pieces of the document, in its
    order: the document is a gap, the first fragment, a gap, the second
    fragment, and so on, then a rest.  So no character of the document
    is in two fragments, nothing is in a fragment that is not in the
    document, and the fragments together are no longer than the
    document. *)
Theorem extract_tables_pieces (fuel : nat) (html : str) :
  (length html < fuel)%nat ->
  exists frags gaps rest,
    extract_tables fuel html = Some frags
    /\ length gaps = length frags
    /\ html = interleave gaps frags rest
    /\ (length (concat frags) <= length html)%nat.
Proof.
  intros Hfuel.
  destruct (extract_loop fuel [] html [] Hfuel) as (frags & pos & Hloop & Hext).
  change ([] ++ html) with html in Hloop. change (len []) with 0 in Hloop.
  destruct (extraction_interleave html frags Hext) as (gaps & rest & Hlen & E).
  exists frags, gaps, rest.
  split; [unfold extract_tables; now rewrite Hloop|].
  split; [exact Hlen|]. split; [exact E|].
  rewrite E, (interleave_length gaps frags rest Hlen). lia.
Qed.

Lemma extract_tables_pieces_witness :
  exists frags gaps rest,
    extract_tables 60 (lit "a<table>1</table>bc<table>2</table>d<table>")
    = Some frags
    /\ length gaps = length frags
    /\ lit "a<table>1</table>bc<table>2</table>d<table>"
       = interleave gaps frags rest
    /\ (length (concat frags)
        <= length (lit "a<table>1</table>bc<table>2</table>d<table>"))%nat.
Proof.
  apply (extract_tables_pieces 60
           (lit "a<table>1</table>bc<table>2</table>d<table>")).
  vm_compute. lia.
Defined.

(** ** The rows before an unclosed row *)

Section RowsBefore.
Implicit Types (tbl : table_el) (before rest : str).

(** [parse_table] on a well-formed table without its closing tag. *)
Lemma parse_table_open_wf fuel tbl :
  wf_table tbl = true ->
  (length (render (table_open_tokens tbl)) < fuel)%nat ->
  parse_table fuel (render (table_open_tokens tbl)) = Some (table_values tbl).
Proof.
  unfold wf_table. rewrite !andb_true_iff. intros [[Ha Hrows] Htail] Hfuel.
  unfold parse_table, table_open_tokens in *.
  change (Tag (lit "table" ++ table_attrs tbl)
            :: rows_tokens (table_rows tbl) ++ table_tail tbl)
    with ([Tag (lit "table" ++ table_attrs tbl)]
            ++ rows_tokens (table_rows tbl) ++ table_tail tbl) in *.
  destruct (row_loop fuel (table_rows tbl)
              [Tag (lit "table" ++ table_attrs tbl)]
              (table_tail tbl) [] [] fuel) as [pos Hloop]; auto.
  - constructor; [|constructor].
    apply structural_tag_skips; [assumption | compute_done |].
    intros R. reflexivity.
  - now apply section_skip_tr.
  - change ([] ++ render ?x) with (render x) in Hloop.
    change (len []) with 0 in Hloop. rewrite Hloop. reflexivity.
Qed.

(** At the [<tr] that is not closed the loop over the rows breaks. *)
Lemma row_loop_stops fuel before rest n rows :
  find (lit "<tr" ++ rest) (lit "</tr>") 0 = -1 ->
  while_true (row_body fuel (before ++ lit "<tr" ++ rest)) (S n)
    (rows, len before)
  = Some (rows, len before).
Proof.
  intros Hno.
  rewrite (row_loop_unclosed_row fuel before rest Hno)
    by (pose proof (len_nonneg before); lia).
  cbn [while_true]. unfold row_body. cbv zeta.
  change (lit "<tr") with (LT :: lit "tr"). now rewrite find_at_end.
Qed.

Lemma save_table_rows fuel i table_html w row rows :
  parse_table fuel table_html = Some (row :: rows) ->
  save_table fuel (i, table_html) w
  = Returned tt
      (World (<[output_name i := flat_map row_text (row :: rows)]> (files w))
             (http w)
             (stdout w ++ [lit "CSV saved as " ++ output_name i])).
Proof.
  intros Hparse. unfold save_table, proc_bind, run_pure. rewrite Hparse.
  apply save_csv_writes.
Qed.

Lemma hanging_row_table_hangs fuel :
  parse_table fuel hanging_row_table = None.
Proof.
  change hanging_row_table
    with (lit "<table>" ++ unclosed_row false (lit ">") (lit ">abc")
            ++ lit "</tr>" ++ lit "<tr><td>b</td></table>").
  apply parse_table_unclosed_first_cell.
  - discriminate.
  - compute_done.
  - compute_done.
  - apply index_of_absent. vm_compute. reflexivity.
Qed.

End RowsBefore.

(** C8.  What the claim says holds wherever the parser gets through the
    rows before the unclosed one, and fails where it does not.  When a
    table fragment holds a [<tr] with no [</tr>] after it, the loop over
    the rows breaks at that [<tr], and the grid is the grid of the text
    before it; when that text is a well-formed table without its closing
    tag, the grid holds the values of every row of it, and the loop of
    [main] writes them, one line for each row, to the file of the table.
    But in [hanging_row_table] the row before the unclosed one opens a
    cell that is not closed: the loop over its cells never ends, so the
    row is neither in a grid nor in a file. *)
Theorem parse_table_unclosed_row :
  (hanging_row_table
   = lit "<table><tr><td>abc</tr>" ++ lit "<tr" ++ lit "><td>b</td></table>"
   /\ find (lit "<tr" ++ lit "><td>b</td></table>") (lit "</tr>") 0 = -1
   /\ forall fuel,
        parse_table fuel hanging_row_table = None
        /\ forall i w, save_table fuel (i, hanging_row_table) w = Diverged)
  /\ (forall fuel before rest,
        find (lit "<tr" ++ rest) (lit "</tr>") 0 = -1 ->
        parse_table fuel (before ++ lit "<tr" ++ rest) = parse_table fuel before
        /\ forall n rows,
             while_true (row_body fuel (before ++ lit "<tr" ++ rest)) (S n)
               (rows, len before)
             = Some (rows, len before))
  /\ (forall fuel tbl rest,
        wf_table tbl = true ->
        find (lit "<tr" ++ rest) (lit "</tr>") 0 = -1 ->
        (length (render (table_open_tokens tbl)) < fuel)%nat ->
        parse_table fuel (render (table_open_tokens tbl) ++ lit "<tr" ++ rest)
        = Some (table_values tbl)
        /\ length (table_values tbl) = length (table_rows tbl)
        /\ line_feeds (flat_map row_text (table_values tbl))
           = length (table_rows tbl)
        /\ (table_rows tbl <> [] ->
            forall i w,
              save_table fuel
                (i, render (table_open_tokens tbl) ++ lit "<tr" ++ rest) w
              = Returned tt
                  (World (<[output_name i :=
                              flat_map row_text (table_values tbl)]> (files w))
                         (http w)
                         (stdout w ++ [lit "CSV saved as " ++ output_name i])))).
Proof.
  split; [|split].
  - split; [reflexivity|]. split; [vm_compute; reflexivity|].
    intros fuel. split; [apply hanging_row_table_hangs|].
    intros i w. unfold save_table, proc_bind, run_pure.
    now rewrite hanging_row_table_hangs.
  - intros fuel before rest Hno. split.
    + now apply parse_table_unclosed_row_eq.
    + intros n rows. now apply row_loop_stops.
  - intros fuel tbl rest Hwf Hno Hfuel.
    assert (Hparse : parse_table fuel
                       (render (table_open_tokens tbl) ++ lit "<tr" ++ rest)
                     = Some (table_values tbl)).
    { rewrite (parse_table_unclosed_row_eq fuel _ rest Hno).
      now apply parse_table_open_wf. }
    assert (Hlen : length (table_values tbl) = length (table_rows tbl))
      by (unfold table_values; apply length_map).
    split; [exact Hparse|]. split; [exact Hlen|]. split.
    + rewrite <- Hlen. apply line_feeds_rows, table_values_clean.
    + intros Hrows i w.
      destruct (table_values tbl) as [|row rows] eqn:E.
      * destruct (table_rows tbl); [contradiction | discriminate].
      * now apply save_table_rows.
Qed.

Lemma parse_table_unclosed_row_witness :
  parse_table 40
    (render (table_open_tokens one_row_table) ++ lit "<tr"
       ++ lit "><td>b</td></table>")
  = Some (table_values one_row_table)
  /\ length (table_values one_row_table) = length (table_rows one_row_table)
  /\ line_feeds (flat_map row_text (table_values one_row_table))
     = length (table_rows one_row_table)
  /\ (table_rows one_row_table <> [] ->
      forall i w,
        save_table 40
          (i, render (table_open_tokens one_row_table) ++ lit "<tr"
                ++ lit "><td>b</td></table>") w
        = Returned tt
            (World (<[output_name i :=
                        flat_map row_text (table_values one_row_table)]>
                      (files w))
                   (http w)
                   (stdout w ++ [lit "CSV saved as " ++ output_name i]))).
Proof.
  apply (proj2 (proj2 parse_table_unclosed_row) 40%nat one_row_table
           (lit "><td>b</td></table>")).
  - reflexivity.
  - vm_compute. reflexivity.
  - vm_compute. lia.
Defined.

Example one_row_table_text :
  render (table_open_tokens one_row_table) = lit "<table><tr><td>a</td></tr>"
  /\ table_values one_row_table = [[lit "a"]].
Proof. split; vm_compute; reflexivity. Qed.
